(** * dlintegrate: a dynamically loaded, multithreaded left-rectangle integrator

    A shallow embedding of [src/lessons/integrate/dlintegrate.c] and the
    properties of its command line, its partitioner, its workers and its
    dispatcher.

    Numbers are IEEE-754 values as the specification of floating-point
    arithmetic of the Standard Library gives them ([spec_float], with its
    correctly rounded operations): [farg_t] is binary64 ([double]) and the
    parser's [long double] is the x87 extended format of the platform the
    program is written for (GNU/Linux on x86-64). *)

From Stdlib Require Import ZArith List String Ascii Bool Lia Permutation.
From Stdlib Require Import Floats.SpecFloat.
From stdpp Require Import base list.

Local Open Scope Z_scope.

(** ** Floating-point formats *)

Module Fmt.

(** [double]: 53 bits of precision, exponents below 1024. *)
Definition dprec : Z := 53.
Definition demax : Z := 1024.

(** [long double] on x86-64: 64 bits of precision, exponents below 16384. *)
Definition lprec : Z := 64.
Definition lemax : Z := 16384.

Definition isfinite (x : spec_float) : bool :=
  match x with
  | S754_zero _ | S754_finite _ _ _ => true
  | S754_infinity _ | S754_nan => false
  end.

(** Conversion between formats: the value rounded to nearest, ties to
    even, in the target format; zeros, infinities and NaN are kept. *)
Definition convert (prec emax : Z) (x : spec_float) : spec_float :=
  match x with
  | S754_finite s m e => binary_normalize prec emax (cond_Zopp s (Zpos m)) e s
  | _ => x
  end.

(** The integer part of a finite value, rounding toward zero. *)
Definition trunc (x : spec_float) : Z :=
  match x with
  | S754_finite s m e =>
      cond_Zopp s (match e with
                   | Z0 => Zpos m
                   | Zpos p => Z.shiftl (Zpos m) e
                   | Zneg p => Z.shiftr (Zpos m) (Zpos p)
                   end)
  | _ => 0
  end.

End Fmt.

(** [typedef double farg_t;] *)
Definition farg_t : Type := spec_float.
Definition long_double : Type := spec_float.
Definition long_long : Type := Z.

Definition LLONG_MIN : Z := - 2 ^ 63.
Definition LLONG_MAX : Z := 2 ^ 63 - 1.

(** ** The arithmetic the numerical core uses

    The source invites changing [farg_t] ("Change this type to float,
    double, long double"), so the partitioner, the worker and the
    aggregation are written over the operations they use. *)

Class Arith (F : Type) : Type := {
  fzero : F;               (* .0 *)
  fadd : F -> F -> F;      (* a + b *)
  fsub : F -> F -> F;      (* a - b *)
  fmul : F -> F -> F;      (* a * b *)
  fdiv : F -> F -> F;      (* a / b *)
  flt : F -> F -> bool;    (* a < b *)
  of_ll : long_long -> F   (* (farg_t) i, for a long long i *)
}.

(** The program as compiled: [farg_t] is [double]. *)
#[export] Instance binary64 : Arith farg_t := {
  fzero := S754_zero false;
  fadd := SFadd Fmt.dprec Fmt.demax;
  fsub := SFsub Fmt.dprec Fmt.demax;
  fmul := SFmul Fmt.dprec Fmt.demax;
  fdiv := SFdiv Fmt.dprec Fmt.demax;
  flt := SFltb;
  of_ll := fun i => binary_normalize Fmt.dprec Fmt.demax i 0 false
}.

(** [long double] operations of [parse_args]. *)
Definition ld_sub : long_double -> long_double -> long_double :=
  SFsub Fmt.lprec Fmt.lemax.
Definition ld_le : long_double -> long_double -> bool := SFleb.
Definition ld_of_farg : farg_t -> long_double := Fmt.convert Fmt.lprec Fmt.lemax.
Definition farg_of_ld : long_double -> farg_t := Fmt.convert Fmt.dprec Fmt.demax.

(** [<float.h>]: [FLT_EPSILON] is 2^-23, [DBL_EPSILON] is 2^-52. *)
Definition FLT_EPSILON : farg_t := binary_normalize Fmt.dprec Fmt.demax 1 (-23) false.
Definition DBL_EPSILON : farg_t := binary_normalize Fmt.dprec Fmt.demax 1 (-52) false.

(** [static const farg_t EPSILON = FLT_EPSILON;] *)
Definition EPSILON : farg_t := FLT_EPSILON.

(** ** Errors and exit codes *)

Inductive error : Type :=
| PE_OK          (* No error *)
| PE_NOARGS      (* No arguments provided *)
| PE_WRONGARG    (* Argument has wrong format *)
| PE_NENARGS     (* Not enough arguments *)
| PE_TMARGS      (* Too much arguments *)
| PE_CVGERR      (* Convergence error *)
| PE_MALLOC      (* Memory allocation error *)
| PE_THREAD      (* Threading error *)
| PE_DLERR       (* Dynamic loader error *)
| __PE_LAST.

Definition error_eqb (a b : error) : bool :=
  match a, b with
  | PE_OK, PE_OK | PE_NOARGS, PE_NOARGS | PE_WRONGARG, PE_WRONGARG
  | PE_NENARGS, PE_NENARGS | PE_TMARGS, PE_TMARGS | PE_CVGERR, PE_CVGERR
  | PE_MALLOC, PE_MALLOC | PE_THREAD, PE_THREAD | PE_DLERR, PE_DLERR
  | __PE_LAST, __PE_LAST => true
  | _, _ => false
  end.

Definition error_msg (e : error) : option string :=
  match e with
  | PE_OK => Some ""%string
  | PE_NOARGS => Some "No arguments provided"%string
  | PE_WRONGARG => Some "Wrong argument '%s'"%string
  | PE_NENARGS => Some "Not enough arguments"%string
  | PE_TMARGS => Some "Too many arguments"%string
  | PE_CVGERR => Some "Convergence unreachable"%string
  | PE_MALLOC => Some "Could not allocate memory"%string
  | PE_THREAD => Some "Threading error"%string
  | PE_DLERR => Some "Dynamic loader (%s)"%string
  | __PE_LAST => None
  end.

(** [<stdlib.h>] and [<sysexits.h>]. *)
Definition EXIT_SUCCESS : Z := 0.
Definition EXIT_FAILURE : Z := 1.
Definition EX_USAGE : Z := 64.
Definition EX_DATAERR : Z := 65.
Definition EX_SOFTWARE : Z := 70.
Definition EX_OSERR : Z := 71.

Definition error_retcodes (e : error) : Z :=
  match e with
  | PE_OK => EXIT_SUCCESS
  | PE_NOARGS => EX_USAGE
  | PE_WRONGARG => EX_USAGE
  | PE_NENARGS => EX_USAGE
  | PE_TMARGS => EX_USAGE
  | PE_CVGERR => EX_DATAERR
  | PE_MALLOC => EX_OSERR
  | PE_THREAD => EX_OSERR
  | PE_DLERR => EX_SOFTWARE
  | __PE_LAST => EXIT_FAILURE
  end.

(** ** The numerical core: partitions, workers, aggregation *)

Section Core.

Context {F : Type} `{Arith F}.

(** [struct thread_args]; [resptr] points into the array [results], and
    is kept as the index of the slot it points to. *)
Record thread_args : Type := {
  th_start : F;
  th_end : F;
  th_step : F;
  th_funcptr : F -> F;
  th_resptr : nat
}.

(** What a worker does that others can see: it calls the loaded
    function, and it stores into the memory [resptr] points to. *)
Inductive wevent : Type :=
| Call (x : F)
| Store (slot : nat) (v : F).

(** The loop of [integrate_worker]:
    [while (start < end) { res += func(start) * step; start += step; }].
    It yields the points the function was called at, in order, and the
    final [res]; [None] when [fuel] iterations did not end the loop. *)
Fixpoint worker_loop (fuel : nat) (func : F -> F) (start end_ step res : F)
  : option (list F * F) :=
  if flt start end_ then
    match fuel with
    | O => None
    | S fuel' =>
        match worker_loop fuel' func (fadd start step) end_ step
                          (fadd res (fmul (func start) step)) with
        | Some (xs, r) => Some (start :: xs, r)
        | None => None
        end
    end
  else Some ([], res).

Definition integrate_worker (fuel : nat) (args : thread_args) : option (list wevent) :=
  match worker_loop fuel (th_funcptr args) (th_start args) (th_end args)
                    (th_step args) fzero with
  | Some (xs, res) => Some (map Call xs ++ [Store (th_resptr args) res])
  | None => None
  end.

(** Lines 424-439 of [main]: the interval, the step, the width of a
    part, and one [thread_args] per thread. *)
Definition make_thargs (start end_ : F) (nsteps nthreads : long_long)
           (dlfunc : F -> F) : list thread_args :=
  let interval := fsub end_ start in
  let step := fdiv interval (of_ll nsteps) in
  let part := fdiv interval (of_ll nthreads) in
  map (fun i : nat =>
         {| th_start := fmul part (of_ll (Z.of_nat i));
            th_end := fmul part (of_ll (Z.of_nat i + 1));
            th_step := step;
            th_funcptr := dlfunc;
            th_resptr := i |})
      (seq 0 (Z.to_nat nthreads)).

(** The effect of a worker's events on the array [results]. *)
Definition apply_wevent (results : list F) (e : wevent) : list F :=
  match e with
  | Call _ => results
  | Store slot v => <[slot := v]> results
  end.

Definition is_call (e : wevent) : bool :=
  match e with
  | Call _ => true
  | Store _ _ => false
  end.

Definition calls (evs : list wevent) : nat := length (List.filter is_call evs).

(** The workers run to completion in the order [sched] (the order in
    which the operating system lets them finish); [None] when one of
    them does not finish. The result is the array and the number of
    calls of the loaded function. *)
Fixpoint run_workers (fuel : nat) (thargs : list thread_args) (sched : list nat)
         (results : list F) : option (list F * nat) :=
  match sched with
  | [] => Some (results, O)
  | i :: rest =>
      match thargs !! i with
      | None => run_workers fuel thargs rest results
      | Some ta =>
          match integrate_worker fuel ta with
          | None => None
          | Some evs =>
              match run_workers fuel thargs rest (fold_left apply_wevent evs results) with
              | Some (r, n) => Some (r, (calls evs + n)%nat)
              | None => None
              end
          end
      end
  end.

(** [farg_t sum = .0; for (i = 0; i < nthreads; i++) sum += results[i];] *)
Definition sum_results (results : list F) : F := fold_left fadd results fzero.

(** The terms of the specification: the sample points by repeated
    addition, and the left-rectangle sum over a list of points. *)
Fixpoint sample (start step : F) (k : nat) : F :=
  match k with
  | O => start
  | S k' => fadd (sample start step k') step
  end.

Definition left_sum (func : F -> F) (step : F) (xs : list F) : F :=
  fold_left (fun res x => fadd res (fmul (func x) step)) xs fzero.

End Core.

Arguments thread_args F : clear implicits.
Arguments wevent F : clear implicits.

(** ** The process: what it does that can be observed, and its environment *)

Inductive message : Type :=
| MsgUsage                                   (* fprintf(stderr, USAGE, ...) *)
| MsgHelp                                    (* fprintf(stderr, HELP, ...) *)
| MsgError (e : error)                       (* "Error: %s.\n" with error_msg[e] *)
| MsgCanNot (start end_ : long_double)       (* "Can not left-integrate from ..." *)
| MsgTook.                                   (* "Took %.8Lg s\n" *)

Inductive event : Type :=
| Stderr (m : message)
| Stdout (sum : farg_t)                      (* printf("%Lg\n", (long double)sum) *)
| Dlopen (ldname : string)
| Dlsym (symbol : string)
| Dlclose
| PthreadCreate (i : nat) (ok : bool)        (* pthread_create(&threads[i], ...) *)
| PthreadCancel (i : nat)                    (* pthread_cancel(threads[i]) *)
| PthreadJoin (i : nat).                     (* pthread_join(threads[i], NULL) *)

(** How a computation of the process ends: it goes on with a value, the
    process exits with a code, or the process waits forever. These are
    the ends the code of the main thread provides for. A process that a
    signal ends is not among them: see [dispatch] for the two places
    where that can happen. *)
Inductive status (A : Type) : Type :=
| Ret (a : A)
| Exit (code : Z)
| Hang.

Arguments Ret {A} a.
Arguments Exit {A} code.
Arguments Hang {A}.

Definition M (A : Type) : Type := (list event * status A)%type.

#[export] Instance M_ret : MRet M := fun A a => ([], Ret a).

#[export] Instance M_bind : MBind M := fun A B k m =>
  match m with
  | (t, Ret a) => let '(t', s) := k a in (t ++ t', s)
  | (t, Exit code) => (t, Exit code)
  | (t, Hang) => (t, Hang)
  end.

Definition emit (e : event) : M unit := ([e], Ret tt).
Definition exit {A : Type} (code : Z) : M A := ([], Exit code).
Definition hang {A : Type} : M A := ([], Hang).

(** What [sscanf(str, "%Lg%c", dstptr, &etc)] did: the value it returned
    (the number of items assigned, or [EOF]) and the [long double] it
    stored (meaningful when at least one item was assigned). *)
Record scan_result : Type := {
  assigned : Z;
  scanned : long_double
}.

(** The C library and the operating system, as far as the program uses
    them. *)
Record env : Type := {
  (** [sscanf] with the format ["%Lg%c"] *)
  sscanf_Lg_c : string -> scan_result;
  (** the [long long] a conversion yields for a [long double] whose
      integer part no [long long] holds (the C standard leaves it open) *)
  llong_of_unrepresentable : long_double -> long_long;
  (** [get_nprocs()] *)
  get_nprocs : Z;
  (** [dirname(strdup(argv[0]))], [None] when [strdup] returned [NULL] *)
  bindir_of : string -> option string;
  (** [asprintf] of the symbol name succeeded *)
  asprintf_ok : bool;
  (** [dlopen(ldname, ...)] returned a handle *)
  dlopen_ok : string -> bool;
  (** [dlsym(handle, funcname)], [None] for [NULL] *)
  dlsym : string -> option (farg_t -> farg_t);
  (** [pthread_create] for [threads[i]] returned 0 *)
  pthread_create_ok : nat -> bool;
  (** the order in which the scheduler prefers to let workers finish *)
  schedule : list nat;
  (** how many iterations of a worker's loop one is ready to wait for *)
  patience : nat
}.



(** ** Error reporting *)

(** [err_handler]: nothing for [PE_OK]; otherwise a message on the
    standard error (after the usage text for [PE_NOARGS]) and
    [exit(error_retcodes[err])]. *)
Definition report (err : error) : M unit :=
  emit (Stderr (MsgError err));; exit (error_retcodes err).

Definition err_handler (err : error) : M unit :=
  match err with
  | PE_OK => mret tt
  | PE_WRONGARG => report err
  | PE_DLERR => report err
  | PE_NOARGS => emit (Stderr MsgUsage);; report err
  | _ => report err
  end.

(** ** The command line *)

(** [(long long)x] for a [long double] x. *)
Definition llong_of_ld (E : env) (x : long_double) : long_long :=
  let t := Fmt.trunc x in
  if Fmt.isfinite x && (LLONG_MIN <=? t) && (t <=? LLONG_MAX) then t
  else llong_of_unrepresentable E x.

(** [ld_conv]: the flag it returns and what [*dstptr] holds afterwards. *)
Definition ld_conv (E : env) (str : string) : bool * long_double :=
  let r := sscanf_Lg_c E str in
  ((assigned r =? 1) && Fmt.isfinite (scanned r), scanned r).

(** What one call of [getopt] returned: the option character (["?"] for
    an unknown option or a missing argument) and [optarg]. *)
Inductive getopt_ret : Type :=
| Opt (sym : ascii) (optarg : string).

(** [getopt(argc, argv, "hvt:n:F:")] of the GNU C library, called until it
    returns -1: the options in the order it reports them, and the
    elements of [argv] it leaves as positional arguments (it moves them
    behind the options; ["--"] ends the options). The elements are those
    after [argv[0]]. *)
Module Getopt.

Definition takes_arg (c : ascii) : bool :=
  Ascii.eqb c "t" || Ascii.eqb c "n" || Ascii.eqb c "F".

Definition is_flag (c : ascii) : bool :=
  Ascii.eqb c "h" || Ascii.eqb c "v".

(** The characters of one element after its ["-"]; the second
    component is the option still waiting for its argument. *)
Fixpoint cluster (cs : string) : list getopt_ret * option ascii :=
  match cs with
  | EmptyString => ([], None)
  | String c rest =>
      if takes_arg c then
        match rest with
        | EmptyString => ([], Some c)
        | _ => ([Opt c rest], None)
        end
      else
        let '(rs, waiting) := cluster rest in
        ((if is_flag c then Opt c "" else Opt "?" "") :: rs, waiting)
  end.

Fixpoint scan (waiting : option ascii) (argv : list string)
  : list getopt_ret * list string :=
  match argv with
  | [] =>
      (match waiting with
       | Some _ => [Opt "?" ""]
       | None => []
       end, [])
  | a :: rest =>
      match waiting with
      | Some c => let '(rs, pos) := scan None rest in (Opt c a :: rs, pos)
      | None =>
          if String.eqb a "--" then ([], rest)
          else
            match a with
            | String "-" (String c cs) =>
                let '(rs1, w) := cluster (String c cs) in
                let '(rs, pos) := scan w rest in
                (rs1 ++ rs, pos)
            | _ => let '(rs, pos) := scan None rest in (rs, a :: pos)
            end
      end
  end.

End Getopt.

Definition getopt (argv : list string) : list getopt_ret * list string :=
  Getopt.scan None argv.

(** [struct defaults] and [DEFAULTS]; [10e6] is a [double] constant,
    converted to [long long]. *)
Record defaults : Type := {
  nsteps : long_long;
  nthreads : long_long
}.

Definition DEFAULTS : defaults :=
  {| nsteps := Fmt.trunc (fmul (of_ll 10) (of_ll (10 ^ 6)) : farg_t);
     nthreads := 1 |}.

(** [struct args], which begins with an anonymous [struct defaults]. *)
Record args : Type := {
  base : defaults;
  start : farg_t;
  end_ : farg_t;
  funcname : option string;
  isverbose : bool;
  ishelp : bool
}.

Definition set_nsteps (a : args) (n : long_long) : args :=
  {| base := {| nsteps := n; nthreads := nthreads (base a) |};
     start := start a; end_ := end_ a; funcname := funcname a;
     isverbose := isverbose a; ishelp := ishelp a |}.

Definition set_nthreads (a : args) (n : long_long) : args :=
  {| base := {| nsteps := nsteps (base a); nthreads := n |};
     start := start a; end_ := end_ a; funcname := funcname a;
     isverbose := isverbose a; ishelp := ishelp a |}.

Definition set_funcname (a : args) (f : string) : args :=
  {| base := base a; start := start a; end_ := end_ a; funcname := Some f;
     isverbose := isverbose a; ishelp := ishelp a |}.

Definition set_isverbose (a : args) : args :=
  {| base := base a; start := start a; end_ := end_ a; funcname := funcname a;
     isverbose := true; ishelp := ishelp a |}.

Definition set_interval (a : args) (s e : farg_t) : args :=
  {| base := base a; start := s; end_ := e; funcname := funcname a;
     isverbose := isverbose a; ishelp := ishelp a |}.

(** [struct args args = { DEFAULTS, .funcname = NULL };] *)
Definition init_args : args :=
  {| base := DEFAULTS; start := fzero; end_ := fzero; funcname := None;
     isverbose := false; ishelp := false |}.

(** The [for] loop of [parse_args] over the values [getopt] returns. *)
Fixpoint getopt_loop (E : env) (rs : list getopt_ret) (a : args) : M args :=
  match rs with
  | [] => mret a
  | Opt sym optarg :: rest =>
      if Ascii.eqb sym "h" then
        emit (Stderr MsgUsage);; emit (Stderr MsgHelp);; exit (error_retcodes PE_OK)
      else if Ascii.eqb sym "v" then
        getopt_loop E rest (set_isverbose a)
      else if Ascii.eqb sym "t" then
        let '(ok, threads) := ld_conv E optarg in
        (if negb ok || (llong_of_ld E threads <? 0)
         then err_handler PE_WRONGARG else mret tt);;
        getopt_loop E rest (set_nthreads a (llong_of_ld E threads))
      else if Ascii.eqb sym "n" then
        let '(ok, steps) := ld_conv E optarg in
        (if negb ok || (llong_of_ld E steps <=? 0)
         then err_handler PE_WRONGARG else mret tt);;
        getopt_loop E rest (set_nsteps a (llong_of_ld E steps))
      else if Ascii.eqb sym "F" then
        getopt_loop E rest (set_funcname a optarg)
      else
        err_handler PE_WRONGARG;; getopt_loop E rest a
  end.

Definition is_null {A : Type} (p : option A) : bool :=
  match p with
  | None => true
  | Some _ => false
  end.

(** [parse_args], on the elements of [argv] after [argv[0]]. *)
Definition parse_args (E : env) (argv : list string) : M args :=
  let '(rs, positional) := getopt argv in
  a ← getopt_loop E rs init_args;
  (if is_null (funcname a) || (Z.of_nat (length positional) <? 2)
   then err_handler PE_NENARGS else mret tt);;
  (if 2 <? Z.of_nat (length positional)
   then err_handler PE_TMARGS else mret tt);;
  let arg0 := nth 0 positional ""%string in
  let arg1 := nth 1 positional ""%string in
  let '(ok0, start) := ld_conv E arg0 in
  let '(ok1, end_) := if ok0 then ld_conv E arg1 else (false, S754_nan) in
  (if negb ok0 || negb ok1 then err_handler PE_WRONGARG else mret tt);;
  (if ld_le (ld_sub end_ start) (ld_of_farg EPSILON)
   then emit (Stderr (MsgCanNot start end_));; err_handler PE_CVGERR
   else mret tt);;
  let a := set_interval a (farg_of_ld start) (farg_of_ld end_) in
  mret (set_nthreads a (if nthreads (base a) =? 0 then get_nprocs E
                        else nthreads (base a))).

(** ** The dispatcher *)

Definition FUNC_PREFIX : string := "dlfunc_".

(** The order in which the workers finish: the scheduler's preferences
    among the [n] workers first, then the workers it did not name. *)
Definition completion_order (n : nat) (pref : list nat) : list nat :=
  let named := List.nodup Nat.eq_dec (List.filter (fun i => (i <? n)%nat) pref) in
  named ++ List.filter (fun i => negb (existsb (Nat.eqb i) named)) (seq 0 n).

(** The loop that starts the threads. When [pthread_create] fails for
    thread [i], the inner loop runs [k] from [i] down to 0 and calls
    [pthread_cancel(threads[i])] each time. *)
Definition cancel_threads (i : nat) : M unit :=
  (map (fun k : nat => PthreadCancel i) (rev (seq 0 (S i))), Ret tt).

Fixpoint start_threads (E : env) (idx : list nat) : M bool :=
  match idx with
  | [] => mret true
  | i :: rest =>
      emit (PthreadCreate i (pthread_create_ok E i));;
      if pthread_create_ok E i then start_threads E rest
      else cancel_threads i;; mret false
  end.

(** The loop of [pthread_join]: it goes past thread [i] when that worker
    has finished. *)
Fixpoint join_threads (fuel : nat) (thargs : list (thread_args farg_t)) (i : nat)
  : M unit :=
  match thargs with
  | [] => mret tt
  | ta :: rest =>
      match integrate_worker fuel ta with
      | Some _ => emit (PthreadJoin i);; join_threads fuel rest (S i)
      | None => hang
      end
  end.

(** The labels at the end of [main]: [dlclose] when the handle was
    opened, then [err_handler(err, NULL); return 0;]. *)
Definition finish (opened : bool) (err : error) : M unit :=
  (if opened then emit Dlclose else mret tt);;
  err_handler err;;
  exit 0.

(** [main] after [parse_args]: the names, the loader, the threads, the
    sum. The second [asprintf] is followed by a test of [funcname] again,
    which cannot fail there.

    This is the main thread as its code runs. Two things are left out,
    both of which can end the process by a signal instead: the three
    arrays of [alloca] (lines 415-422; [alloca] does not return [NULL],
    and arrays for a large number of threads do not fit the stack), and,
    on the way out of a failed [pthread_create], the workers that were
    created before: they keep running while [main] calls
    [pthread_cancel] on [threads[i]], which was never set, and closes
    the module they call into. What is proved of the runs on the second
    way is what [main] does on it as far as it gets. *)
Definition dispatch (E : env) (bindir : string) (a : args) : M unit :=
  if negb (asprintf_ok E) then finish false PE_MALLOC else
  let funcname := (FUNC_PREFIX ++ default ""%string (funcname a))%string in
  let ldname := (bindir ++ "/" ++ funcname ++ ".so")%string in
  emit (Dlopen ldname);;
  if negb (dlopen_ok E ldname) then finish false PE_DLERR else
  emit (Dlsym funcname);;
  match dlsym E funcname with
  | None => finish true PE_DLERR
  | Some dlfunc =>
      let n := Z.to_nat (nthreads (base a)) in
      let results := replicate n (fzero : farg_t) in
      let thargs := make_thargs (start a) (end_ a) (nsteps (base a))
                                (nthreads (base a)) dlfunc in
      started ← start_threads E (seq 0 n);
      if negb started then finish true PE_THREAD else
      join_threads (patience E) thargs 0;;
      match run_workers (patience E) thargs (completion_order n (schedule E))
                        results with
      | None => hang
      | Some (results, _) =>
          emit (Stdout (sum_results results));;
          (if isverbose a then emit (Stderr MsgTook) else mret tt);;
          finish true PE_OK
      end
  end.

(** [main]; [argv0] is [argv[0]] and [argv] the elements after it, so
    [argc] is one more than their number. *)
Definition main (E : env) (argv0 : string) (argv : list string) : M unit :=
  match bindir_of E argv0 with
  | None => finish false PE_MALLOC
  | Some bindir =>
      (if 1 =? 1 + Z.of_nat (length argv) then err_handler PE_NOARGS else mret tt);;
      a ← parse_args E argv;
      dispatch E bindir a
  end.

(** ** Elapsed time *)

(** [struct timespec] on x86-64 GNU/Linux: [time_t tv_sec] and
    [long tv_nsec] are 64-bit signed integers. *)
Record timespec : Type := {
  tv_sec : Z;
  tv_nsec : Z
}.

(** The value of a signed 64-bit operation whose mathematical result is
    [z]. The C standard leaves the overflow of signed arithmetic
    undefined; here it wraps round, as it does on the platform, and the
    properties below are stated where nothing overflows. *)
Definition wrap64 (z : Z) : Z := (z - LLONG_MIN) mod 2 ^ 64 + LLONG_MIN.

(** [diff_us]:
    [(long long)(t2.tv_sec - t1.tv_sec) * 1000000LL
     + (t2.tv_nsec - t1.tv_nsec) / 1000];
    the division of C cuts toward zero. *)
Definition diff_us (t1 t2 : timespec) : long_long :=
  wrap64 (wrap64 (wrap64 (tv_sec t2 - tv_sec t1) * 1000000)
          + Z.quot (wrap64 (tv_nsec t2 - tv_nsec t1)) 1000).

(** ** A reference environment

    Numbers as [sscanf] with ["%Lg%c"] reads them in the GNU C library
    and the C locale: white space, an optional sign, and then [nan],
    [inf] or [infinity] in any case, or a hexadecimal number after [0x]
    (digits with an optional fraction and an optional binary exponent
    after [p]), or a decimal number (digits with an optional fraction
    and an optional decimal exponent after [e]); the value is rounded to
    the nearest [long double]. Then the casts of x86-64, and a machine
    on which everything succeeds. The theorems below hold for every
    environment; this one runs them on concrete command lines. *)
Module Ref.

Definition EOF : Z := -1.

Definition digit (c : ascii) : option Z :=
  let n := Z.of_nat (nat_of_ascii c) in
  if (48 <=? n) && (n <=? 57) then Some (n - 48) else None.

(** A hexadecimal digit, of either case. *)
Definition hexdigit (c : ascii) : option Z :=
  let n := Z.of_nat (nat_of_ascii c) in
  if (48 <=? n) && (n <=? 57) then Some (n - 48)
  else if (97 <=? n) && (n <=? 102) then Some (n - 87)
  else if (65 <=? n) && (n <=? 70) then Some (n - 55)
  else None.

(** [tolower] in the C locale. *)
Definition lower (c : ascii) : ascii :=
  let n := Z.of_nat (nat_of_ascii c) in
  if (65 <=? n) && (n <=? 90) then ascii_of_nat (Z.to_nat (n + 32)) else c.

Definition is_space (c : ascii) : bool :=
  let n := Z.of_nat (nat_of_ascii c) in
  (n =? 32) || ((9 <=? n) && (n <=? 13)).

Fixpoint skip_space (s : string) : string :=
  match s with
  | String c rest => if is_space c then skip_space rest else s
  | EmptyString => s
  end.

(** The digits in base [base] at the head of [s], appended to [acc]:
    the number, how many digits were read, and the rest of the string. *)
Fixpoint digits_of (value : ascii -> option Z) (base : Z) (s : string) (acc : Z) (n : Z)
  : Z * Z * string :=
  match s with
  | String c rest =>
      match value c with
      | Some d => digits_of value base rest (base * acc + d) (n + 1)
      | None => (acc, n, s)
      end
  | EmptyString => (acc, n, s)
  end.

Definition digits : string -> Z -> Z -> Z * Z * string := digits_of digit 10.
Definition hexdigits : string -> Z -> Z -> Z * Z * string := digits_of hexdigit 16.

Definition sign (s : string) : bool * string :=
  match s with
  | String "-" rest => (true, rest)
  | String "+" rest => (false, rest)
  | _ => (false, s)
  end.

(** [s] without [word] at its head, when it begins with it; letters are
    compared without their case, and [word] is in lower case. *)
Fixpoint keyword (word s : string) : option string :=
  match word with
  | EmptyString => Some s
  | String w word' =>
      match s with
      | String c rest => if Ascii.eqb (lower c) w then keyword word' rest else None
      | EmptyString => None
      end
  end.

(** [(-1)^neg * m * 10^e], rounded to nearest in [long double]. *)
Definition decimal (neg : bool) (m e : Z) : long_double :=
  match m with
  | Zpos p =>
      match e with
      | Zneg q => SFdiv Fmt.lprec Fmt.lemax (S754_finite neg p 0)
                        (S754_finite false (10 ^ q)%positive 0)
      | _ => binary_normalize Fmt.lprec Fmt.lemax (cond_Zopp neg (m * 10 ^ e)) 0 neg
      end
  | _ => S754_zero neg
  end.

(** [(-1)^neg * m * 2^e], rounded to nearest in [long double]. *)
Definition binary (neg : bool) (m e : Z) : long_double :=
  match m with
  | Zpos p => binary_normalize Fmt.lprec Fmt.lemax (cond_Zopp neg m) e neg
  | _ => S754_zero neg
  end.

(** An exponent part at the head of [s]: the marker ([e] or [p], of
    either case), an optional sign and digits. The library takes the
    marker and the sign also when no digit follows, and reads the
    exponent as 0 then: ["1e"] is 1. The exponent and the rest. *)
Definition exponent (marker : ascii) (s : string) : Z * string :=
  match s with
  | String c r =>
      if Ascii.eqb (lower c) marker then
        let '(eneg, r1) := sign r in
        let '(ev, _, r2) := digits r1 0 0 in
        (cond_Zopp eneg ev, r2)
      else (0, s)
  | EmptyString => (0, s)
  end.

(** The number is stored, and [%c] takes the next character when there
    is one. *)
Definition stored (v : long_double) (rest : string) : scan_result :=
  {| assigned := match rest with EmptyString => 1 | _ => 2 end; scanned := v |}.

(** A matching failure: nothing is stored. *)
Definition no_match : scan_result := {| assigned := 0; scanned := S754_nan |}.

Definition scan_decimal (neg : bool) (s : string) : scan_result :=
  let '(m1, n1, s2) := digits s 0 0 in
  let '(m2, n2, s3) :=
    match s2 with
    | String "." r => digits r m1 0
    | _ => (m1, 0, s2)
    end in
  if n1 + n2 =? 0 then no_match
  else
    let '(e, s4) := exponent "e" s3 in
    stored (decimal neg m2 (e - n2)) s4.

(** After ["0x"]. With no digit at all the library fails after a bare
    ["0x"] and reads 0 after ["0x."]. *)
Definition scan_hexadecimal (neg : bool) (s : string) : scan_result :=
  let '(m1, n1, s2) := hexdigits s 0 0 in
  match s2 with
  | String "." r =>
      let '(m2, n2, s3) := hexdigits r m1 0 in
      if n1 + n2 =? 0 then stored (S754_zero neg) s3
      else
        let '(e, s4) := exponent "p" s3 in
        stored (binary neg m2 (e - 4 * n2)) s4
  | _ =>
      if n1 =? 0 then no_match
      else
        let '(e, s4) := exponent "p" s2 in
        stored (binary neg m1 e) s4
  end.

Definition scan (str : string) : scan_result :=
  match skip_space str with
  | EmptyString => {| assigned := EOF; scanned := S754_nan |}
  | s =>
      let '(neg, s1) := sign s in
      match keyword "nan" s1 with
      | Some r => stored S754_nan r
      | None =>
          match keyword "inf" s1 with
          | Some r =>
              match keyword "i" r with
              | Some _ =>
                  match keyword "inity" r with
                  | Some r' => stored (S754_infinity neg) r'
                  | None => no_match
                  end
              | None => stored (S754_infinity neg) r
              end
          | None =>
              match keyword "0x" s1 with
              | Some r => scan_hexadecimal neg r
              | None => scan_decimal neg s1
              end
          end
      end
  end.

Definition scanned_value (str : string) : long_double := scanned (scan str).

(** The modules next to the program: function names and functions. *)
Definition modules : Type := list (string * (farg_t -> farg_t)).

Definition lookup_symbol (ms : modules) (symbol : string) : option (farg_t -> farg_t) :=
  match List.find (fun m => String.eqb symbol (FUNC_PREFIX ++ fst m)) ms with
  | Some m => Some (snd m)
  | None => None
  end.

Definition has_module (ms : modules) (ldname : string) : bool :=
  existsb (fun m => String.eqb ldname ("./" ++ FUNC_PREFIX ++ fst m ++ ".so")) ms.

Definition machine (ms : modules) (create_ok : nat -> bool) (sched : list nat)
           (fuel : nat) : env :=
  {| sscanf_Lg_c := scan;
     llong_of_unrepresentable := fun _ => LLONG_MIN;
     get_nprocs := 4;
     bindir_of := fun _ => Some "."%string;
     asprintf_ok := true;
     dlopen_ok := has_module ms;
     dlsym := lookup_symbol ms;
     pthread_create_ok := create_ok;
     schedule := sched;
     patience := fuel |}.

End Ref.

(** ** Vocabulary of the properties *)

(** [getopt] reported the option [c]. *)
Definition reported (c : ascii) (rs : list getopt_ret) : bool :=
  existsb (fun r => match r with Opt sym _ => Ascii.eqb sym c end) rs.

(** The option [c] stands on the command line. *)
Definition given (c : ascii) (argv : list string) : bool :=
  reported c (fst (getopt argv)).

(** The value of [-t] is taken: [sscanf] assigned exactly one item (it
    read a number, and nothing follows it), the number is finite, and
    its conversion to [long long] is not negative. *)
Definition accepts_t (E : env) (optarg : string) : bool :=
  let r := sscanf_Lg_c E optarg in
  (assigned r =? 1) && Fmt.isfinite (scanned r) && (0 <=? llong_of_ld E (scanned r)).

(** The same for [-n], with a positive conversion. *)
Definition accepts_n (E : env) (optarg : string) : bool :=
  let r := sscanf_Lg_c E optarg in
  (assigned r =? 1) && Fmt.isfinite (scanned r) && (0 <? llong_of_ld E (scanned r)).

(** The casts of x86-64: the conversion of a [long double] whose integer
    part no [long long] holds gives [LLONG_MIN], whatever the number
    (the conversion instructions store the "integer indefinite"). *)
Definition x86_64_casts (E : env) : Prop :=
  forall x : long_double, llong_of_unrepresentable E x = LLONG_MIN.

(** The process has done nothing but write messages to the standard
    error: no module was loaded, no thread started, no result printed. *)
Definition is_stderr (e : event) : bool :=
  match e with
  | Stderr _ => true
  | _ => false
  end.

Definition only_messages (t : list event) : bool := forallb is_stderr t.

(** The results the process printed, and the threads it cancelled. *)
Definition printed (t : list event) : list farg_t :=
  flat_map (fun e => match e with Stdout v => [v] | _ => [] end) t.

Definition cancelled (t : list event) : list nat :=
  flat_map (fun e => match e with PthreadCancel i => [i] | _ => [] end) t.

(** * Properties *)

(** ** Sequencing *)

Lemma bind_ret {A B : Type} (a : A) (k : A -> M B) : (mret a ≫= k) = k a.
Proof. unfold mret, mbind, M_ret, M_bind. destruct (k a). reflexivity. Qed.

Lemma bind_silent {A B : Type} (a : A) (k : A -> M B) : (([], Ret a) ≫= k) = k a.
Proof. exact (bind_ret a k). Qed.

Lemma bind_emit {B : Type} (e : event) (k : unit -> M B) :
  (emit e ≫= k) = (e :: fst (k tt), snd (k tt)).
Proof. unfold emit, mbind, M_bind. destruct (k tt). reflexivity. Qed.

Lemma bind_exit {A B : Type} (code : Z) (k : A -> M B) : (exit code ≫= k) = exit code.
Proof. reflexivity. Qed.

Lemma bind_hang {A B : Type} (k : A -> M B) : (hang ≫= k) = hang.
Proof. reflexivity. Qed.

Lemma bind_trace {A B : Type} (t : list event) (a : A) (k : A -> M B) :
  ((t, Ret a) ≫= k) = (t ++ fst (k a), snd (k a)).
Proof. unfold mbind, M_bind. destruct (k a). reflexivity. Qed.


Lemma bind_stops {A B : Type} (t : list event) (code : Z) (k : A -> M B) :
  ((t, Exit code) ≫= k) = (t, Exit code).
Proof. reflexivity. Qed.

(** An error other than [PE_OK] ends the process with its exit code. *)
Lemma err_handler_exits (err : error) :
  err <> PE_OK ->
  snd (err_handler err) = Exit (error_retcodes err) /\
  only_messages (fst (err_handler err)) = true.
Proof. destruct err; intros Hne; try congruence; split; reflexivity. Qed.

Lemma err_handler_plain (err : error) :
  err <> PE_OK -> err <> PE_NOARGS ->
  err_handler err = ([Stderr (MsgError err)], Exit (error_retcodes err)).
Proof. destruct err; intros; try congruence; reflexivity. Qed.

(** ** Options *)

Definition wrong_argument {A : Type} : M A :=
  ([Stderr (MsgError PE_WRONGARG)], Exit EX_USAGE).

Lemma check_then {A : Type} (reject : bool) (err : error) (k : M A) :
  err <> PE_OK -> err <> PE_NOARGS ->
  ((if reject then err_handler err else mret tt);; k) =
  if reject then ([Stderr (MsgError err)], Exit (error_retcodes err)) else k.
Proof.
  intros H1 H2. destruct reject.
  - rewrite (err_handler_plain err H1 H2). reflexivity.
  - apply bind_ret.
Qed.

(** One turn of the loop over the options, case by case. *)
Lemma getopt_loop_cons (E : env) (sym : ascii) (optarg : string)
      (rest : list getopt_ret) (a : args) :
  getopt_loop E (Opt sym optarg :: rest) a =
  if Ascii.eqb sym "h" then ([Stderr MsgUsage; Stderr MsgHelp], Exit 0)
  else if Ascii.eqb sym "v" then getopt_loop E rest (set_isverbose a)
  else if Ascii.eqb sym "t" then
    if accepts_t E optarg
    then getopt_loop E rest
           (set_nthreads a (llong_of_ld E (scanned (sscanf_Lg_c E optarg))))
    else wrong_argument
  else if Ascii.eqb sym "n" then
    if accepts_n E optarg
    then getopt_loop E rest
           (set_nsteps a (llong_of_ld E (scanned (sscanf_Lg_c E optarg))))
    else wrong_argument
  else if Ascii.eqb sym "F" then getopt_loop E rest (set_funcname a optarg)
  else wrong_argument.
Proof.
  cbn [getopt_loop].
  destruct (Ascii.eqb sym "h"); [reflexivity |].
  destruct (Ascii.eqb sym "v"); [reflexivity |].
  destruct (Ascii.eqb sym "t").
  { unfold ld_conv, accepts_t. rewrite check_then by discriminate.
    destruct (assigned (sscanf_Lg_c E optarg) =? 1); [| reflexivity].
    destruct (Fmt.isfinite (scanned (sscanf_Lg_c E optarg))); [| reflexivity].
    cbn [andb negb orb]. rewrite Z.leb_antisym.
    destruct (llong_of_ld E (scanned (sscanf_Lg_c E optarg)) <? 0); reflexivity. }
  destruct (Ascii.eqb sym "n").
  { unfold ld_conv, accepts_n. rewrite check_then by discriminate.
    destruct (assigned (sscanf_Lg_c E optarg) =? 1); [| reflexivity].
    destruct (Fmt.isfinite (scanned (sscanf_Lg_c E optarg))); [| reflexivity].
    cbn [andb negb orb]. rewrite Z.ltb_antisym.
    destruct (llong_of_ld E (scanned (sscanf_Lg_c E optarg)) <=? 0); reflexivity. }
  destruct (Ascii.eqb sym "F"); [reflexivity |].
  reflexivity.
Qed.

(** The loop over the options writes nothing unless it ends the process,
    it never waits, and what it writes are messages. *)
Lemma getopt_loop_outcome (E : env) (rs : list getopt_ret) :
  forall a : args,
    (exists a', getopt_loop E rs a = ([], Ret a')) \/
    (exists t code, getopt_loop E rs a = (t, Exit code) /\ only_messages t = true).
Proof.
  induction rs as [| [sym optarg] rest IH]; intros a.
  - left. exists a. reflexivity.
  - rewrite getopt_loop_cons.
    repeat match goal with
           | |- context [if ?b then _ else _] => destruct b
           end;
      try apply IH; right; eexists; eexists; split; reflexivity.
Qed.

(** An option that [getopt] did not report leaves its field as it was. *)
Lemma getopt_loop_keeps (E : env) (rs : list getopt_ret) :
  forall (a a' : args) (t : list event),
    getopt_loop E rs a = (t, Ret a') ->
    (reported "t" rs = false -> nthreads (base a') = nthreads (base a)) /\
    (reported "n" rs = false -> nsteps (base a') = nsteps (base a)) /\
    (reported "F" rs = false -> funcname a' = funcname a).
Proof.
  induction rs as [| [sym optarg] rest IH]; intros a a' t Hrun.
  - inversion Hrun; subst. auto.
  - rewrite getopt_loop_cons in Hrun. cbn [reported existsb].
    fold (reported "t" rest) (reported "n" rest) (reported "F" rest).
    destruct (Ascii.eqb sym "h") eqn:Hh; [discriminate |].
    destruct (Ascii.eqb sym "v") eqn:Hv.
    { apply Ascii.eqb_eq in Hv; subst sym. cbn [Ascii.eqb Bool.eqb orb].
      apply IH in Hrun. exact Hrun. }
    destruct (Ascii.eqb sym "t") eqn:Ht.
    { apply Ascii.eqb_eq in Ht; subst sym.
      destruct (accepts_t E optarg); [| discriminate].
      apply IH in Hrun. destruct Hrun as (H1 & H2 & H3).
      repeat split; [discriminate | exact H2 | exact H3]. }
    destruct (Ascii.eqb sym "n") eqn:Hn.
    { apply Ascii.eqb_eq in Hn; subst sym.
      destruct (accepts_n E optarg); [| discriminate].
      apply IH in Hrun. destruct Hrun as (H1 & H2 & H3).
      repeat split; [exact H1 | discriminate | exact H3]. }
    destruct (Ascii.eqb sym "F") eqn:HF; [| discriminate].
    apply Ascii.eqb_eq in HF; subst sym.
    apply IH in Hrun. destruct Hrun as (H1 & H2 & H3).
    repeat split; [exact H1 | exact H2 | discriminate].
Qed.

(** [parse_args] once the options are read, case by case. *)
Lemma parse_args_positional (E : env) (argv : list string) (a : args) :
  getopt_loop E (fst (getopt argv)) init_args = ([], Ret a) ->
  parse_args E argv =
  let positional := snd (getopt argv) in
  let r0 := ld_conv E (nth 0 positional ""%string) in
  let r1 := ld_conv E (nth 1 positional ""%string) in
  if is_null (funcname a) || (Z.of_nat (length positional) <? 2)
  then ([Stderr (MsgError PE_NENARGS)], Exit EX_USAGE)
  else if 2 <? Z.of_nat (length positional)
  then ([Stderr (MsgError PE_TMARGS)], Exit EX_USAGE)
  else if negb (fst r0 && fst r1)
  then ([Stderr (MsgError PE_WRONGARG)], Exit EX_USAGE)
  else if ld_le (ld_sub (snd r1) (snd r0)) (ld_of_farg EPSILON)
  then ([Stderr (MsgCanNot (snd r0) (snd r1)); Stderr (MsgError PE_CVGERR)],
        Exit EX_DATAERR)
  else ([], Ret (set_nthreads
                   (set_interval a (farg_of_ld (snd r0)) (farg_of_ld (snd r1)))
                   (if nthreads (base a) =? 0 then get_nprocs E
                    else nthreads (base a)))).
Proof.
  intros Hloop. unfold parse_args.
  destruct (getopt argv) as [rs positional]. cbn [fst snd] in *.
  rewrite Hloop, bind_silent.
  rewrite check_then by discriminate.
  destruct (is_null (funcname a) || (Z.of_nat (length positional) <? 2));
    [reflexivity |].
  rewrite check_then by discriminate.
  destruct (2 <? Z.of_nat (length positional)); [reflexivity |].
  cbv zeta.
  destruct (ld_conv E (nth 0 positional ""%string)) as [ok0 lo].
  destruct (ld_conv E (nth 1 positional ""%string)) as [ok1 hi].
  cbn [fst snd].
  destruct ok0; cbn [negb orb andb].
  - rewrite check_then by discriminate.
    destruct ok1; cbn [negb]; [| reflexivity].
    destruct (ld_le (ld_sub hi lo) (ld_of_farg EPSILON)).
    + reflexivity.
    + rewrite bind_ret. reflexivity.
  - reflexivity.
Qed.

(** [parse_args] writes messages only, goes on silently, and never
    waits. *)
Lemma parse_args_outcome (E : env) (argv : list string) :
  (exists a, parse_args E argv = ([], Ret a)) \/
  (exists t code, parse_args E argv = (t, Exit code) /\ only_messages t = true).
Proof.
  destruct (getopt_loop_outcome E (fst (getopt argv)) init_args)
    as [[a Ha] | (t & code & Ht & Hm)].
  - rewrite (parse_args_positional E argv a Ha). cbv zeta.
    repeat match goal with
           | |- context [if ?b then _ else _] => destruct b
           end;
      try (left; eexists; reflexivity);
      right; eexists; eexists; split; reflexivity.
  - right. exists t, code. split; [| exact Hm].
    unfold parse_args. destruct (getopt argv) as [rs positional].
    cbn [fst] in Ht. rewrite Ht. reflexivity.
Qed.

(** The integer part as arithmetic: the magnitude is [m * 2^e] cut down
    to an integer, and the sign is put back, so the value moves toward
    zero. *)
Lemma trunc_toward_zero (s : bool) (m : positive) (e : Z) :
  Fmt.trunc (S754_finite s m e) =
  cond_Zopp s (if 0 <=? e then Zpos m * 2 ^ e else Zpos m / 2 ^ (- e)).
Proof.
  unfold Fmt.trunc. f_equal. destruct e as [| p | p]; cbn [Z.leb Z.compare].
  - cbn. lia.
  - rewrite Z.shiftl_mul_pow2 by lia. reflexivity.
  - rewrite Z.shiftr_div_pow2 by lia. reflexivity.
Qed.

(** C8, as the code has it. A value of [-t] or [-n] is turned down
    exactly when [sscanf] did not assign exactly one item (nothing was
    read, or characters follow the number), or the number is not finite,
    or its conversion to [long long] is negative (for [-t]) or not
    positive (for [-n]); otherwise the field takes the converted value.
    The conversion is the integer part, toward zero, when a [long long]
    holds it: [-t 2.9] gives 2 threads and [-n 2.9] gives 2 steps. When
    no [long long] holds the integer part, C leaves the conversion open,
    and x86-64 gives [LLONG_MIN]: there a value is taken exactly when
    one item was assigned, the number is finite and its integer part is
    from 0 (for [-n], from 1) to [LLONG_MAX], so that a value above
    [LLONG_MAX] is turned down as a negative one is. *)
Theorem fractional_option_values_truncated :
  (forall (E : env) (optarg : string) (rest : list getopt_ret) (a : args),
      getopt_loop E (Opt "t" optarg :: rest) a =
      (if (assigned (sscanf_Lg_c E optarg) =? 1)
          && Fmt.isfinite (scanned (sscanf_Lg_c E optarg))
          && (0 <=? llong_of_ld E (scanned (sscanf_Lg_c E optarg)))
       then getopt_loop E rest
              (set_nthreads a (llong_of_ld E (scanned (sscanf_Lg_c E optarg))))
       else ([Stderr (MsgError PE_WRONGARG)], Exit EX_USAGE)) /\
      getopt_loop E (Opt "n" optarg :: rest) a =
      (if (assigned (sscanf_Lg_c E optarg) =? 1)
          && Fmt.isfinite (scanned (sscanf_Lg_c E optarg))
          && (0 <? llong_of_ld E (scanned (sscanf_Lg_c E optarg)))
       then getopt_loop E rest
              (set_nsteps a (llong_of_ld E (scanned (sscanf_Lg_c E optarg))))
       else ([Stderr (MsgError PE_WRONGARG)], Exit EX_USAGE))) /\
  (forall (E : env) (s : bool) (m : positive) (e : Z),
      llong_of_ld E (S754_finite s m e) =
      (let t := cond_Zopp s (if 0 <=? e then Zpos m * 2 ^ e else Zpos m / 2 ^ (- e)) in
       if (LLONG_MIN <=? t) && (t <=? LLONG_MAX) then t
       else llong_of_unrepresentable E (S754_finite s m e))) /\
  (forall (E : env) (optarg : string) (rest : list getopt_ret) (a : args),
      x86_64_casts E ->
      getopt_loop E (Opt "t" optarg :: rest) a =
      (if (assigned (sscanf_Lg_c E optarg) =? 1)
          && Fmt.isfinite (scanned (sscanf_Lg_c E optarg))
          && (0 <=? Fmt.trunc (scanned (sscanf_Lg_c E optarg)))
          && (Fmt.trunc (scanned (sscanf_Lg_c E optarg)) <=? LLONG_MAX)
       then getopt_loop E rest
              (set_nthreads a (Fmt.trunc (scanned (sscanf_Lg_c E optarg))))
       else ([Stderr (MsgError PE_WRONGARG)], Exit EX_USAGE)) /\
      getopt_loop E (Opt "n" optarg :: rest) a =
      (if (assigned (sscanf_Lg_c E optarg) =? 1)
          && Fmt.isfinite (scanned (sscanf_Lg_c E optarg))
          && (0 <? Fmt.trunc (scanned (sscanf_Lg_c E optarg)))
          && (Fmt.trunc (scanned (sscanf_Lg_c E optarg)) <=? LLONG_MAX)
       then getopt_loop E rest
              (set_nsteps a (Fmt.trunc (scanned (sscanf_Lg_c E optarg))))
       else ([Stderr (MsgError PE_WRONGARG)], Exit EX_USAGE))) /\
  (forall (ms : Ref.modules) (ok : nat -> bool) (sched : list nat) (fuel : nat),
      exists a : args,
        parse_args (Ref.machine ms ok sched fuel)
                   ["-t"; "2.9"; "-n"; "2.9"; "-F"; "f"; "0"; "1"]%string = ([], Ret a) /\
        nthreads (base a) = 2 /\ nsteps (base a) = 2).
Proof.
  split; [| split; [| split]].
  - intros E optarg rest a. split.
    + rewrite getopt_loop_cons. reflexivity.
    + rewrite getopt_loop_cons. reflexivity.
  - intros E s m e. unfold llong_of_ld. rewrite trunc_toward_zero. reflexivity.
  - intros E optarg rest a Hcast.
    assert (Hconv : llong_of_ld E (scanned (sscanf_Lg_c E optarg)) =
                    if Fmt.isfinite (scanned (sscanf_Lg_c E optarg))
                       && (LLONG_MIN <=? Fmt.trunc (scanned (sscanf_Lg_c E optarg)))
                       && (Fmt.trunc (scanned (sscanf_Lg_c E optarg)) <=? LLONG_MAX)
                    then Fmt.trunc (scanned (sscanf_Lg_c E optarg)) else LLONG_MIN).
    { unfold llong_of_ld. cbv zeta. rewrite Hcast. reflexivity. }
    rewrite !getopt_loop_cons. unfold accepts_t, accepts_n. cbv zeta. rewrite Hconv.
    change (Ascii.eqb "t" "h") with false. change (Ascii.eqb "t" "v") with false.
    change (Ascii.eqb "t" "t") with true. change (Ascii.eqb "n" "h") with false.
    change (Ascii.eqb "n" "v") with false. change (Ascii.eqb "n" "t") with false.
    change (Ascii.eqb "n" "n") with true. cbv iota.
    destruct (assigned (sscanf_Lg_c E optarg) =? 1); cbn [andb]; [| split; reflexivity].
    destruct (Fmt.isfinite (scanned (sscanf_Lg_c E optarg))); cbn [andb];
      [| split; reflexivity].
    generalize (Fmt.trunc (scanned (sscanf_Lg_c E optarg))). intros t.
    unfold LLONG_MIN, LLONG_MAX.
    destruct (Z.leb_spec (- 2 ^ 63) t) as [Hlo | Hlo];
      destruct (Z.leb_spec t (2 ^ 63 - 1)) as [Hhi | Hhi]; cbn [andb];
      destruct (Z.leb_spec 0 t) as [H0 | H0]; destruct (Z.ltb_spec 0 t) as [H1 | H1];
      cbn [andb]; try lia; split; reflexivity.
  - intros ms ok sched fuel. eexists. split; [vm_compute; reflexivity |].
    split; reflexivity.
Qed.

Lemma fractional_option_values_truncated_witness :
  getopt_loop (Ref.machine [] (fun _ => true) [] 0) [Opt "t" "2.9"] init_args =
  ([], Ret (set_nthreads init_args 2)) /\
  getopt_loop (Ref.machine [] (fun _ => true) [] 0) [Opt "n" "1e30"] init_args =
  ([Stderr (MsgError PE_WRONGARG)], Exit EX_USAGE).
Proof.
  assert (Hcast : x86_64_casts (Ref.machine [] (fun _ => true) [] 0))
    by (intros x; reflexivity).
  split.
  - rewrite (proj1 (proj1 (proj2 (proj2 fractional_option_values_truncated))
                      (Ref.machine [] (fun _ => true) [] 0) "2.9"%string [] init_args Hcast)).
    vm_compute. reflexivity.
  - rewrite (proj2 (proj1 (proj2 (proj2 fractional_option_values_truncated))
                      (Ref.machine [] (fun _ => true) [] 0) "1e30"%string [] init_args Hcast)).
    vm_compute. reflexivity.
Defined.

(** C8 as stated fails: [1e30] is read in full, is finite and has a
    positive integer part, 10^30 to the nearest [long double], and
    [-n 1e30] and [-t 1e30] are turned down as wrong arguments, because
    no [long long] holds this integer part and its conversion is
    [LLONG_MIN]. *)
Lemma huge_option_value_rejected :
  assigned (Ref.scan "1e30") = 1 /\
  Fmt.isfinite (scanned (Ref.scan "1e30")) = true /\
  Fmt.trunc (scanned (Ref.scan "1e30")) = 1000000000000000000024696061952 /\
  llong_of_ld (Ref.machine [] (fun _ => true) [] 0) (scanned (Ref.scan "1e30")) = LLONG_MIN /\
  main (Ref.machine [("id", fun x => x)]%string (fun _ => true) [] 100) "./int"
       ["-n"; "1e30"; "-F"; "id"; "0"; "1"]%string =
  ([Stderr (MsgError PE_WRONGARG)], Exit EX_USAGE) /\
  main (Ref.machine [("id", fun x => x)]%string (fun _ => true) [] 100) "./int"
       ["-t"; "1e30"; "-F"; "id"; "0"; "1"]%string =
  ([Stderr (MsgError PE_WRONGARG)], Exit EX_USAGE).
Proof. repeat split; vm_compute; reflexivity. Qed.

(** C10. Without [-n] the request has 10,000,000 steps, and without
    [-t] it has 1 thread. *)
Theorem defaults_when_omitted (E : env) (argv : list string) (t : list event) (a : args) :
  parse_args E argv = (t, Ret a) ->
  (given "n" argv = false -> nsteps (base a) = 10000000) /\
  (given "t" argv = false -> nthreads (base a) = 1).
Proof.
  intros Hparse. unfold given.
  destruct (getopt_loop_outcome E (fst (getopt argv)) init_args)
    as [[a0 Ha0] | (t0 & code & Ht0 & _)].
  - destruct (getopt_loop_keeps E _ _ _ _ Ha0) as (Ht & Hn & _).
    rewrite (parse_args_positional E argv a0 Ha0) in Hparse. cbv zeta in Hparse.
    repeat match type of Hparse with
           | (if ?b then _ else _) = _ => destruct b; [discriminate |]
           end.
    inversion Hparse; subst a t. cbn [set_nthreads set_interval base nsteps nthreads].
    split; intros Hno.
    + rewrite (Hn Hno). reflexivity.
    + rewrite (Ht Hno). reflexivity.
  - unfold parse_args in Hparse. destruct (getopt argv) as [rs positional].
    cbn [fst] in Ht0. rewrite Ht0 in Hparse. discriminate.
Qed.

Lemma defaults_when_omitted_witness :
  exists a : args,
    parse_args (Ref.machine [] (fun _ => true) [] 0) ["-F"; "f"; "0"; "1"]%string = ([], Ret a) /\
    nsteps (base a) = 10000000 /\ nthreads (base a) = 1.
Proof.
  eexists. split; [vm_compute; reflexivity |].
  split;
    eapply (defaults_when_omitted (Ref.machine [] (fun _ => true) [] 0)
                                  ["-F"; "f"; "0"; "1"]%string);
    vm_compute; reflexivity.
Defined.

(** [main] up to the end of [parse_args]. *)
Lemma main_parses (E : env) (argv0 : string) (argv : list string) (bindir : string) :
  bindir_of E argv0 = Some bindir -> argv <> [] ->
  main E argv0 argv = (parse_args E argv ≫= dispatch E bindir).
Proof.
  intros Hdir Hargv. unfold main. rewrite Hdir.
  destruct argv as [| x argv]; [congruence |].
  replace (1 =? 1 + Z.of_nat (length (x :: argv))) with false.
  - rewrite bind_ret. reflexivity.
  - symmetry. apply Z.eqb_neq. cbn [length]. lia.
Qed.

Lemma main_rejects (E : env) (argv0 : string) (argv : list string)
      (t : list event) (code : Z) :
  bindir_of E argv0 <> None -> argv <> [] ->
  parse_args E argv = (t, Exit code) ->
  main E argv0 argv = (t, Exit code).
Proof.
  intros Hdir Hargv Hparse.
  destruct (bindir_of E argv0) as [bindir |] eqn:Hb; [| congruence].
  rewrite (main_parses E argv0 argv bindir Hb Hargv), Hparse. reflexivity.
Qed.

(** Without [-F], [parse_args] does not return. *)
Lemma parse_args_needs_funcname (E : env) (argv : list string) :
  given "F" argv = false ->
  exists t code, parse_args E argv = (t, Exit code) /\ only_messages t = true.
Proof.
  intros HF.
  destruct (getopt_loop_outcome E (fst (getopt argv)) init_args)
    as [[a0 Ha0] | (t0 & code & Ht0 & Hm)].
  - destruct (getopt_loop_keeps E _ _ _ _ Ha0) as (_ & _ & Hname).
    rewrite (parse_args_positional E argv a0 Ha0). cbv zeta.
    rewrite (Hname HF). cbn [init_args funcname is_null orb].
    eexists; eexists; split; reflexivity.
  - exists t0, code. split; [| exact Hm].
    unfold parse_args. destruct (getopt argv) as [rs positional].
    cbn [fst] in Ht0. rewrite Ht0. reflexivity.
Qed.

(** C9, as the code has it. Without [-F] the process ends before any
    module is loaded or any thread started, whatever else stands on the
    command line; and when the options themselves are read to the end
    (no [-h], no option turned down), the error is "Not enough
    arguments" with [EX_USAGE], also when both positional arguments are
    there. *)
Theorem function_name_required (E : env) (argv0 : string) (argv : list string) :
  given "F" argv = false ->
  (exists t code, main E argv0 argv = (t, Exit code) /\ only_messages t = true) /\
  (forall a : args,
      getopt_loop E (fst (getopt argv)) init_args = ([], Ret a) ->
      parse_args E argv = ([Stderr (MsgError PE_NENARGS)], Exit EX_USAGE) /\
      (argv <> [] -> bindir_of E argv0 <> None ->
       main E argv0 argv = ([Stderr (MsgError PE_NENARGS)], Exit EX_USAGE))).
Proof.
  intros HF. split.
  - destruct (bindir_of E argv0) as [bindir |] eqn:Hb.
    + destruct argv as [| x argv].
      * unfold main. rewrite Hb. eexists; eexists; split; reflexivity.
      * destruct (parse_args_needs_funcname E (x :: argv) HF) as (t & code & Hp & Hm).
        exists t, code. split; [| exact Hm].
        apply main_rejects; [congruence | discriminate | exact Hp].
    + unfold main. rewrite Hb. eexists; eexists; split; reflexivity.
  - intros a Ha.
    assert (Hp : parse_args E argv = ([Stderr (MsgError PE_NENARGS)], Exit EX_USAGE)).
    { destruct (getopt_loop_keeps E _ _ _ _ Ha) as (_ & _ & Hname).
      rewrite (parse_args_positional E argv a Ha). cbv zeta.
      rewrite (Hname HF). reflexivity. }
    split; [exact Hp |].
    intros Hargv Hdir. apply main_rejects; assumption.
Qed.

Lemma function_name_required_witness :
  main (Ref.machine [] (fun _ => true) [] 0) "./int" ["-v"; "1"; "2"]%string =
  ([Stderr (MsgError PE_NENARGS)], Exit EX_USAGE).
Proof.
  destruct (function_name_required (Ref.machine [] (fun _ => true) [] 0) "./int"
                                   ["-v"; "1"; "2"]%string eq_refl) as [_ H].
  destruct (H _ eq_refl) as [_ Hmain].
  apply Hmain; discriminate.
Defined.

(** C9 as stated fails: without [-F], [-h] ends the process with the
    help text and exit code 0, and a malformed [-t] is reported as a
    wrong argument. *)
Lemma function_name_missing_other_endings :
  given "F" ["-h"]%string = false /\
  main (Ref.machine [] (fun _ => true) [] 0) "./int" ["-h"]%string =
  ([Stderr MsgUsage; Stderr MsgHelp], Exit 0) /\
  given "F" ["-t"; "x"; "1"; "2"]%string = false /\
  main (Ref.machine [] (fun _ => true) [] 0) "./int" ["-t"; "x"; "1"; "2"]%string =
  ([Stderr (MsgError PE_WRONGARG)], Exit EX_USAGE).
Proof. repeat split; vm_compute; reflexivity. Qed.

(** ** Validation of the interval *)

(** A finite [long double] minus itself is +0. *)
Lemma ld_sub_diag (x : long_double) :
  Fmt.isfinite x = true -> ld_sub x x = S754_zero false.
Proof.
  destruct x as [s | s | | s m e]; try discriminate; intros _.
  - destruct s; reflexivity.
  - unfold ld_sub, SFsub. rewrite Z.sub_diag. reflexivity.
Qed.

(** C3, as the code has it. With the options read, a function name and
    two positional arguments that [ld_conv] reads, the request is turned
    down as a data error, with [EX_DATAERR] and before any module is
    loaded or any thread started, exactly when [end - start], computed in
    [long double], is at or below [FLT_EPSILON] (2^-23, the epsilon of
    [float], which [EPSILON] holds although [farg_t] is [double]);
    otherwise [main] goes on with the interval converted to [farg_t].
    Equal [start] and [end] are turned down. *)
Theorem interval_validation (E : env) (argv0 bindir : string) (argv : list string)
        (a : args) (lo hi : string) :
  getopt_loop E (fst (getopt argv)) init_args = ([], Ret a) ->
  funcname a <> None ->
  snd (getopt argv) = [lo; hi] ->
  fst (ld_conv E lo) = true ->
  fst (ld_conv E hi) = true ->
  bindir_of E argv0 = Some bindir ->
  (if ld_le (ld_sub (snd (ld_conv E hi)) (snd (ld_conv E lo))) (ld_of_farg FLT_EPSILON)
   then main E argv0 argv =
        ([Stderr (MsgCanNot (snd (ld_conv E lo)) (snd (ld_conv E hi)));
          Stderr (MsgError PE_CVGERR)], Exit EX_DATAERR)
   else exists a' : args,
       parse_args E argv = ([], Ret a') /\
       start a' = farg_of_ld (snd (ld_conv E lo)) /\
       end_ a' = farg_of_ld (snd (ld_conv E hi)) /\
       main E argv0 argv = dispatch E bindir a') /\
  (snd (ld_conv E lo) = snd (ld_conv E hi) ->
   ld_le (ld_sub (snd (ld_conv E hi)) (snd (ld_conv E lo))) (ld_of_farg FLT_EPSILON) = true).
Proof.
  intros Hloop Hname Hpos Hlo Hhi Hdir.
  assert (Hargv : argv <> []).
  { intros ->. cbn in Hpos. discriminate. }
  pose proof (parse_args_positional E argv a Hloop) as Hp. cbv zeta in Hp.
  rewrite Hpos in Hp. cbn [length nth] in Hp.
  destruct (funcname a) as [name |] eqn:Hn; [| congruence].
  cbn [is_null orb] in Hp.
  change (Z.of_nat 2 <? 2) with false in Hp. change (2 <? Z.of_nat 2) with false in Hp.
  rewrite Hlo, Hhi in Hp. cbn [andb negb] in Hp.
  fold FLT_EPSILON in Hp. change EPSILON with FLT_EPSILON in Hp.
  split.
  - destruct (ld_le (ld_sub (snd (ld_conv E hi)) (snd (ld_conv E lo)))
                    (ld_of_farg FLT_EPSILON)).
    + apply main_rejects; [congruence | exact Hargv | exact Hp].
    + eexists. split; [exact Hp |]. split; [reflexivity |]. split; [reflexivity |].
      rewrite (main_parses E argv0 argv bindir Hdir Hargv), Hp.
      apply bind_silent.
  - intros Heq. rewrite <- Heq. rewrite ld_sub_diag; [reflexivity |].
    unfold ld_conv in Hlo. cbn [fst snd] in *.
    apply andb_true_iff in Hlo. apply Hlo.
Qed.

Lemma interval_validation_witness :
  main (Ref.machine [] (fun _ => true) [] 0) "./int" ["-F"; "f"; "1"; "1"]%string =
  ([Stderr (MsgCanNot (snd (ld_conv (Ref.machine [] (fun _ => true) [] 0) "1"))
                      (snd (ld_conv (Ref.machine [] (fun _ => true) [] 0) "1")));
    Stderr (MsgError PE_CVGERR)], Exit EX_DATAERR).
Proof.
  exact (proj1 (interval_validation (Ref.machine [] (fun _ => true) [] 0) "./int" "."
                  ["-F"; "f"; "1"; "1"]%string _ "1" "1"
                  eq_refl ltac:(discriminate) eq_refl eq_refl eq_refl eq_refl)).
Defined.

(** C3 as stated fails: from 0 to 0.00000001 the difference is well
    above the epsilon of [double] (2^-52), in [long double] and in
    [double] alike, and the request is turned down all the same. *)
Lemma interval_above_double_epsilon_rejected :
  ld_le (ld_sub (Ref.scanned_value "0.00000001") (Ref.scanned_value "0"))
        (ld_of_farg DBL_EPSILON) = false /\
  flt DBL_EPSILON (fsub (farg_of_ld (Ref.scanned_value "0.00000001"))
                       (farg_of_ld (Ref.scanned_value "0"))) = true /\
  main (Ref.machine [] (fun _ => true) [] 0) "./int" ["-F"; "f"; "0"; "0.00000001"]%string =
  ([Stderr (MsgCanNot (Ref.scanned_value "0") (Ref.scanned_value "0.00000001"));
    Stderr (MsgError PE_CVGERR)], Exit EX_DATAERR).
Proof. repeat split; vm_compute; reflexivity. Qed.

(** ** Partitions *)

Section Partitions.

Context {F : Type} `{Arith F}.

(** What [main] hands to thread [i]: the part from [part * i] to
    [part * (i + 1)], where [part] is the width of the interval divided
    by the number of threads; the same step for all. *)
Lemma make_thargs_lookup (start end_ : F) (nsteps nthreads : long_long)
      (dlfunc : F -> F) (i : nat) :
  make_thargs start end_ nsteps nthreads dlfunc !! i =
  if (i <? Z.to_nat nthreads)%nat
  then Some {| th_start := fmul (fdiv (fsub end_ start) (of_ll nthreads)) (of_ll (Z.of_nat i));
               th_end := fmul (fdiv (fsub end_ start) (of_ll nthreads)) (of_ll (Z.of_nat i + 1));
               th_step := fdiv (fsub end_ start) (of_ll nsteps);
               th_funcptr := dlfunc;
               th_resptr := i |}
  else None.
Proof.
  unfold make_thargs. rewrite list_lookup_fmap.
  destruct (Nat.ltb_spec i (Z.to_nat nthreads)) as [Hlt | Hge].
  - rewrite lookup_seq_lt by exact Hlt. reflexivity.
  - rewrite lookup_seq_ge by exact Hge. reflexivity.
Qed.

Lemma make_thargs_length (start end_ : F) (nsteps nthreads : long_long) (dlfunc : F -> F) :
  length (make_thargs start end_ nsteps nthreads dlfunc) = Z.to_nat nthreads.
Proof. unfold make_thargs. rewrite length_map, length_seq. reflexivity. Qed.

Lemma make_thargs_resptr (start end_ : F) (nsteps nthreads : long_long)
      (dlfunc : F -> F) (i : nat) (ta : thread_args F) :
  make_thargs start end_ nsteps nthreads dlfunc !! i = Some ta -> th_resptr ta = i.
Proof.
  rewrite make_thargs_lookup. destruct (i <? Z.to_nat nthreads)%nat; [| discriminate].
  intros Heq. inversion Heq. reflexivity.
Qed.

End Partitions.

(** C1 on the code. There are [nthreads] parts, part [i] runs from
    [part * i] to [part * (i + 1)] and so ends where part [i + 1] begins,
    but [start] is not added: the parts cover the interval from 0 to
    [end - start]. For the interval from 1 to 2 and one thread the part
    is from 0 to 1, and integrating the identity from 1 to 2 prints what
    integrating it from 0 to 1 prints. *)
Theorem partitions_start_at_zero :
  (forall (start end_ : farg_t) (nsteps nthreads : long_long) (dlfunc : farg_t -> farg_t),
      length (make_thargs start end_ nsteps nthreads dlfunc) = Z.to_nat nthreads /\
      forall i : nat,
        make_thargs start end_ nsteps nthreads dlfunc !! i =
        if (i <? Z.to_nat nthreads)%nat
        then Some {| th_start := fmul (fdiv (fsub end_ start) (of_ll nthreads)) (of_ll (Z.of_nat i));
                     th_end := fmul (fdiv (fsub end_ start) (of_ll nthreads)) (of_ll (Z.of_nat i + 1));
                     th_step := fdiv (fsub end_ start) (of_ll nsteps);
                     th_funcptr := dlfunc;
                     th_resptr := i |}
        else None) /\
  map (fun p => (th_start p, th_end p))
      (make_thargs (of_ll 1 : farg_t) (of_ll 2) 100 1 (fun x => x)) =
  [(S754_zero false, of_ll 1)] /\
  main (Ref.machine [("id", fun x => x)]%string (fun _ => true) [] 200) "./int"
       ["-n"; "100"; "-F"; "id"; "1"; "2"]%string =
  main (Ref.machine [("id", fun x => x)]%string (fun _ => true) [] 200) "./int"
       ["-n"; "100"; "-F"; "id"; "0"; "1"]%string /\
  printed (fst (main (Ref.machine [("id", fun x => x)]%string (fun _ => true) [] 200) "./int"
                     ["-n"; "100"; "-F"; "id"; "1"; "2"]%string)) =
  [S754_finite false 8917127262193589 (-54)].
Proof.
  split; [| split; [| split]].
  - intros start end_ nsteps nthreads dlfunc. split.
    + apply make_thargs_length.
    + intros i. apply make_thargs_lookup.
  - vm_compute. reflexivity.
  - vm_compute. reflexivity.
  - vm_compute. reflexivity.
Qed.

(** ** Starting the threads *)

(** When the creation of thread [i] fails, [pthread_cancel] is called
    [i + 1] times, each time on [threads[i]]. *)
Lemma cancel_threads_cancelled (i : nat) :
  cancelled (fst (cancel_threads i)) = replicate (S i) i.
Proof.
  assert (Hall : forall l : list nat,
             cancelled (map (fun _ : nat => PthreadCancel i) l) = replicate (length l) i).
  { induction l as [| k l IH]; [reflexivity |].
    cbn [map cancelled flat_map length replicate app]. f_equal. exact IH. }
  unfold cancel_threads. cbn [fst].
  rewrite Hall, length_rev, length_seq. reflexivity.
Qed.

(** C2 on the code. With two threads, when the creation of thread 1
    fails, thread 0 runs on: both calls of [pthread_cancel] are for
    [threads[1]]. The rest is as claimed: a threading error, [EX_OSERR],
    nothing printed. *)
Theorem started_threads_not_cancelled :
  (forall i : nat, cancelled (fst (cancel_threads i)) = replicate (S i) i) /\
  main (Ref.machine [("one", fun _ => of_ll 1)]%string (fun i => (i <? 1)%nat) [] 100) "./int"
       ["-t"; "2"; "-n"; "10"; "-F"; "one"; "0"; "1"]%string =
  ([Dlopen "./dlfunc_one.so"; Dlsym "dlfunc_one";
    PthreadCreate 0 true; PthreadCreate 1 false;
    PthreadCancel 1; PthreadCancel 1;
    Dlclose; Stderr (MsgError PE_THREAD)], Exit EX_OSERR).
Proof.
  split.
  - exact cancel_threads_cancelled.
  - vm_compute. reflexivity.
Qed.

(** ** The worker *)

Section Worker.

Context {F : Type} `{Arith F}.

Lemma sample_shift (start step : F) (k : nat) :
  sample (fadd start step) step k = sample start step (S k).
Proof.
  induction k as [| k IH]; [reflexivity |].
  cbn [sample] in *. rewrite IH. reflexivity.
Qed.

(** The points of a loop that leaves after [n] turns. *)
Definition samples (start step : F) (n : nat) : list F :=
  map (sample start step) (seq 0 n).

Lemma samples_cons (start step : F) (n : nat) :
  samples start step (S n) = start :: samples (fadd start step) step n.
Proof.
  unfold samples. cbn [seq map sample]. f_equal.
  rewrite <- seq_shift, map_map.
  apply map_ext. intros k. symmetry. apply sample_shift.
Qed.

(** The sequence of points is below [end] for its first [n] members and
    not for the next. *)
Definition leaves_after (start end_ step : F) (n : nat) : Prop :=
  (forall k : nat, (k < n)%nat -> flt (sample start step k) end_ = true) /\
  flt (sample start step n) end_ = false.

Lemma leaves_after_step (start end_ step : F) (n : nat) :
  leaves_after start end_ step (S n) <->
  flt start end_ = true /\ leaves_after (fadd start step) end_ step n.
Proof.
  unfold leaves_after. split.
  - intros [Hin Hout]. split; [apply (Hin 0%nat); lia |]. split.
    + intros k Hk. rewrite sample_shift. apply Hin. lia.
    + rewrite sample_shift. exact Hout.
  - intros [H0 [Hin Hout]]. split.
    + intros [| k] Hk; [exact H0 |]. rewrite <- sample_shift. apply Hin. lia.
    + rewrite <- sample_shift. exact Hout.
Qed.

(** The loop returns exactly when the sequence leaves, and then with the
    points it passed and the sum over them, added to [res] in order. *)
Lemma worker_loop_returns (func : F -> F) (end_ step : F) (n : nat) :
  forall (fuel : nat) (start res : F),
    leaves_after start end_ step n -> (n <= fuel)%nat ->
    worker_loop fuel func start end_ step res =
    Some (samples start step n,
          fold_left (fun r x => fadd r (fmul (func x) step)) (samples start step n) res).
Proof.
  induction n as [| n IH]; intros fuel start res Hleave Hfuel.
  - destruct Hleave as [_ Hout]. cbn [sample] in Hout.
    destruct fuel; cbn [worker_loop]; rewrite Hout; reflexivity.
  - apply leaves_after_step in Hleave. destruct Hleave as [H0 Hrest].
    destruct fuel as [| fuel]; [lia |].
    cbn [worker_loop]. rewrite H0.
    rewrite (IH fuel (fadd start step) _ Hrest) by lia.
    rewrite samples_cons. reflexivity.
Qed.

Lemma worker_loop_leaves (func : F -> F) (end_ step : F) :
  forall (fuel : nat) (start res : F) (xs : list F) (r : F),
    worker_loop fuel func start end_ step res = Some (xs, r) ->
    leaves_after start end_ step (length xs) /\ (length xs <= fuel)%nat.
Proof.
  induction fuel as [| fuel IH]; intros start res xs r Hrun; cbn [worker_loop] in Hrun.
  - destruct (flt start end_) eqn:H0; [discriminate |].
    inversion Hrun; subst. split; [| cbn; lia].
    split; [intros k Hk; cbn in Hk; lia | exact H0].
  - destruct (flt start end_) eqn:H0.
    + destruct (worker_loop fuel func (fadd start step) end_ step
                            (fadd res (fmul (func start) step))) as [[ys r'] |] eqn:Hrest;
        [| discriminate].
      inversion Hrun; subst. apply IH in Hrest. destruct Hrest as [Hleave Hlen].
      split; [| cbn [length]; lia].
      cbn [length]. apply leaves_after_step. split; assumption.
    + inversion Hrun; subst. split; [| cbn; lia].
      split; [intros k Hk; cbn in Hk; lia | exact H0].
Qed.


End Worker.

(** C4, as the code has it. When the points [start], [start + step],
    [start + step + step], ... (each the previous one plus [step]) are
    below [end] for the first [n] of them and not for the next, a worker
    that is given [n] turns or more calls the function at these [n]
    points in order and then stores, once and into its own slot, the sum
    of [func(x) * step] over them; and a worker returns in no other
    case. *)
Theorem worker_returns_left_sum {F : Type} `{Arith F} (args : thread_args F) (fuel : nat) :
  (forall n : nat,
      leaves_after (th_start args) (th_end args) (th_step args) n -> (n <= fuel)%nat ->
      integrate_worker fuel args =
      Some (map Call (samples (th_start args) (th_step args) n) ++
            [Store (th_resptr args)
                   (left_sum (th_funcptr args) (th_step args)
                             (samples (th_start args) (th_step args) n))])) /\
  (forall evs : list (wevent F),
      integrate_worker fuel args = Some evs ->
      exists n : nat,
        leaves_after (th_start args) (th_end args) (th_step args) n /\ (n <= fuel)%nat).
Proof.
  split.
  - intros n Hleave Hfuel. unfold integrate_worker, left_sum.
    rewrite (worker_loop_returns _ _ _ n fuel _ _ Hleave Hfuel). reflexivity.
  - intros evs Hrun. unfold integrate_worker in Hrun.
    destruct (worker_loop fuel (th_funcptr args) (th_start args) (th_end args)
                          (th_step args) fzero) as [[xs r] |] eqn:Hloop; [| discriminate].
    exists (length xs). eapply worker_loop_leaves. exact Hloop.
Qed.

(** The part from 0 to 1 with a step of 0.25, for the identity. *)
Definition quarters : thread_args farg_t :=
  {| th_start := of_ll 0;
     th_end := of_ll 1;
     th_step := fdiv (of_ll 1) (of_ll 4);
     th_funcptr := fun x => x;
     th_resptr := 0 |}.

Lemma quarters_leave :
  leaves_after (th_start quarters) (th_end quarters) (th_step quarters) 4.
Proof.
  split.
  - intros k Hk.
    destruct k as [| [| [| [| k]]]]; try lia; vm_compute; reflexivity.
  - vm_compute. reflexivity.
Qed.

Lemma worker_returns_left_sum_witness :
  integrate_worker 4 quarters =
  Some [Call (S754_zero false);
        Call (S754_finite false 4503599627370496 (-54));
        Call (S754_finite false 4503599627370496 (-53));
        Call (S754_finite false 6755399441055744 (-53));
        Store 0%nat (S754_finite false 6755399441055744 (-54))].
Proof.
  rewrite (proj1 (worker_returns_left_sum quarters 4) 4%nat quarters_leave (Nat.le_refl 4)).
  vm_compute. reflexivity.
Defined.

(** The second of two parts of the interval from 0 to 1 with 10^18
    steps, as [main] makes it: from 0.5 to 1 with a step of 10^-18. *)
Definition stalled_part : thread_args farg_t :=
  {| th_start := S754_finite false 4503599627370496 (-53);
     th_end := S754_finite false 4503599627370496 (-52);
     th_step := S754_finite false 5192296858534828 (-112);
     th_funcptr := fun x => x;
     th_resptr := 1 |}.

Lemma stalled_part_loops (fuel : nat) :
  forall res : farg_t,
    worker_loop fuel (th_funcptr stalled_part) (th_start stalled_part)
                (th_end stalled_part) (th_step stalled_part) res = None.
Proof.
  induction fuel as [| fuel IH]; intros res.
  - reflexivity.
  - cbn [worker_loop].
    change (flt (th_start stalled_part) (th_end stalled_part)) with true. cbv iota.
    change (fadd (th_start stalled_part) (th_step stalled_part))
      with (th_start stalled_part).
    rewrite IH. reflexivity.
Qed.

(** C4 as stated fails: this part has a positive step, and its worker
    never returns and never stores, because 0.5 + 10^-18 rounds to 0.5:
    the loop stays at its first point. [main] makes this part for
    [-n 1000000000000000000 -t 2 ... 0 1]. *)
Lemma worker_with_tiny_step_never_returns :
  make_thargs (of_ll 0 : farg_t) (of_ll 1) (10 ^ 18) 2 (fun x => x) !! 1%nat =
  Some stalled_part /\
  flt fzero (th_step stalled_part) = true /\
  fadd (th_start stalled_part) (th_step stalled_part) = th_start stalled_part /\
  ~ (exists (fuel : nat) (evs : list (wevent farg_t)),
        integrate_worker fuel stalled_part = Some evs).
Proof.
  split; [vm_compute; reflexivity |].
  split; [vm_compute; reflexivity |].
  split; [vm_compute; reflexivity |].
  intros (fuel & evs & Hrun). unfold integrate_worker in Hrun.
  rewrite stalled_part_loops in Hrun. discriminate.
Qed.

(** ** The order of completion *)

Section Completion.

Context {F : Type} `{Arith F}.

(** What a worker that finishes leaves: the value it stores and the
    number of calls of the function. *)
Definition worker_effect (fuel : nat) (ta : thread_args F) : option (F * nat) :=
  match worker_loop fuel (th_funcptr ta) (th_start ta) (th_end ta) (th_step ta) fzero with
  | Some (xs, r) => Some (r, length xs)
  | None => None
  end.

Lemma calls_of_worker (xs : list F) (slot : nat) (r : F) :
  calls (map Call xs ++ [Store slot r]) = length xs.
Proof.
  unfold calls. rewrite List.filter_app, length_app. cbn [List.filter is_call length].
  rewrite Nat.add_0_r. induction xs as [| x xs IH]; [reflexivity |].
  cbn [map List.filter is_call length]. rewrite IH. reflexivity.
Qed.

Lemma stores_of_worker (xs : list F) (slot : nat) (r : F) (results : list F) :
  fold_left apply_wevent (map Call xs ++ [Store slot r]) results = <[slot := r]> results.
Proof.
  rewrite fold_left_app. cbn [fold_left apply_wevent]. f_equal.
  induction xs as [| x xs IH]; [reflexivity |]. exact IH.
Qed.

Lemma run_workers_cons (fuel : nat) (thargs : list (thread_args F)) (i : nat)
      (rest : list nat) (results : list F) :
  run_workers fuel thargs (i :: rest) results =
  match thargs !! i with
  | None => run_workers fuel thargs rest results
  | Some ta =>
      match worker_effect fuel ta with
      | None => None
      | Some (r, c) =>
          match run_workers fuel thargs rest (<[th_resptr ta := r]> results) with
          | Some (results', n) => Some (results', (c + n)%nat)
          | None => None
          end
      end
  end.
Proof.
  cbn [run_workers]. destruct (thargs !! i) as [ta |]; [| reflexivity].
  unfold integrate_worker, worker_effect.
  destruct (worker_loop fuel (th_funcptr ta) (th_start ta) (th_end ta) (th_step ta) fzero)
    as [[xs r] |]; [| reflexivity].
  rewrite stores_of_worker, calls_of_worker. reflexivity.
Qed.

Variable thargs : list (thread_args F).
Hypothesis own_slot : forall (i : nat) (ta : thread_args F),
    thargs !! i = Some ta -> th_resptr ta = i.


(** After the workers named in [sched] have finished, each of their
    slots holds what its worker stored, and the other slots are as they
    were. *)
Lemma run_workers_slots (fuel : nat) (sched : list nat) :
  forall (results results' : list F) (n : nat),
    run_workers fuel thargs sched results = Some (results', n) ->
    length results' = length results /\
    forall j : nat,
      (In j sched -> (j < length results)%nat ->
       forall ta, thargs !! j = Some ta ->
                  exists r c, worker_effect fuel ta = Some (r, c) /\ results' !! j = Some r) /\
      (~ In j sched -> results' !! j = results !! j).
Proof.
  induction sched as [| i rest IH]; intros results results' n Hrun.
  - inversion Hrun; subst. split; [reflexivity |].
    intros j. split; [intros [] | reflexivity].
  - rewrite run_workers_cons in Hrun.
    destruct (thargs !! i) as [ta |] eqn:Hi.
    + destruct (worker_effect fuel ta) as [[r c] |] eqn:Hw; [| discriminate].
      rewrite (own_slot i ta Hi) in Hrun.
      destruct (run_workers fuel thargs rest (<[i:=r]> results))
        as [[results1 n1] |] eqn:Hrest; [| discriminate].
      inversion Hrun; subst results1 n. clear Hrun.
      destruct (IH _ _ _ Hrest) as [Hlen Hslots].
      rewrite length_insert in Hlen. split; [exact Hlen |].
      intros j. destruct (Hslots j) as [Hin Hout]. split.
      * intros Hj Hlt tb Htb.
        destruct (in_dec Nat.eq_dec j rest) as [Hjr | Hjr].
        -- apply Hin; [exact Hjr | rewrite length_insert; exact Hlt | exact Htb].
        -- destruct Hj as [-> | Hj]; [| contradiction].
           assert (ta = tb) by congruence. subst tb.
           exists r, c. split; [exact Hw |].
           rewrite (Hout Hjr). apply list_lookup_insert_eq. exact Hlt.
      * intros Hj. rewrite Hout by (intros Hjr; apply Hj; right; exact Hjr).
        apply list_lookup_insert_ne. intros ->. apply Hj. left. reflexivity.
    + destruct (IH _ _ _ Hrun) as [Hlen Hslots]. split; [exact Hlen |].
      intros j. destruct (Hslots j) as [Hin Hout]. split.
      * intros [-> | Hj] Hlt tb Htb; [congruence |]. apply Hin; assumption.
      * intros Hj. apply Hout. intros Hjr. apply Hj. right. exact Hjr.
Qed.


End Completion.

(** The order of completion names each worker once. *)
Lemma completion_order_permutation (n : nat) (pref : list nat) :
  Permutation (completion_order n pref) (seq 0 n).
Proof.
  unfold completion_order.
  set (named := List.nodup Nat.eq_dec (List.filter (fun i => (i <? n)%nat) pref)).
  apply Permutation.NoDup_Permutation.
  - apply List.NoDup_app.
    + apply List.NoDup_nodup.
    + apply List.NoDup_filter, List.seq_NoDup.
    + intros i Hi Hi'. apply List.filter_In in Hi'. destruct Hi' as [_ Hnot].
      apply negb_true_iff in Hnot.
      assert (Hex : existsb (Nat.eqb i) named = true).
      { apply List.existsb_exists. exists i. split; [exact Hi | apply Nat.eqb_refl]. }
      congruence.
  - apply List.seq_NoDup.
  - intros i. rewrite List.in_app_iff, List.filter_In, List.in_seq. split.
    + intros [Hi | [Hi _]]; [| exact Hi].
      apply List.nodup_In, List.filter_In in Hi. destruct Hi as [_ Hlt].
      apply Nat.ltb_lt in Hlt. lia.
    + intros Hi. destruct (existsb (Nat.eqb i) named) eqn:Hex.
      * left. apply List.existsb_exists in Hex. destruct Hex as (j & Hj & Hij).
        apply Nat.eqb_eq in Hij. subst j. exact Hj.
      * right. split; [exact Hi | reflexivity].
Qed.

(** ** Runs of the same request *)












(** When all workers have finished, slot [i] of the array holds what the
    worker of part [i] stored, whatever the order of completion. *)
Lemma results_by_index {F : Type} `{Arith F} (fuel : nat) (thargs : list (thread_args F))
      (pref : list nat) (results : list F) (n : nat) :
  (forall (i : nat) (ta : thread_args F), thargs !! i = Some ta -> th_resptr ta = i) ->
  run_workers fuel thargs (completion_order (length thargs) pref)
              (replicate (length thargs) fzero) = Some (results, n) ->
  Forall2 (fun ta r => exists c : nat, worker_effect fuel ta = Some (r, c)) thargs results.
Proof.
  intros Hslot Hrun.
  destruct (run_workers_slots thargs Hslot fuel _ _ _ _ Hrun) as [Hlen Hslots].
  rewrite length_replicate in Hlen.
  apply Forall2_same_length_lookup_2; [congruence |].
  intros i ta r Hta Hr.
  destruct (Hslots i) as [Hin _].
  assert (Hi : (i < length thargs)%nat) by (eapply lookup_lt_Some; exact Hta).
  destruct (Hin) with (ta := ta) as (r' & c & Hw & Hr').
  - eapply Permutation_in; [symmetry; apply completion_order_permutation |].
    apply List.in_seq. lia.
  - rewrite length_replicate. exact Hi.
  - exact Hta.
  - exists c. congruence.
Qed.

(** What a computation printed. *)
Lemma printed_app (t1 t2 : list event) : printed (t1 ++ t2) = printed t1 ++ printed t2.
Proof. unfold printed. apply flat_map_app. Qed.

Lemma printed_bind {A B : Type} (x : M A) (k : A -> M B) :
  printed (fst (x ≫= k)) =
  printed (fst x) ++ match snd x with
                     | Ret a => printed (fst (k a))
                     | _ => []
                     end.
Proof.
  destruct x as [t [a | code |]]; cbn [fst snd mbind M_bind].
  - unfold mbind, M_bind. destruct (k a) as [t' s']. cbn [fst]. apply printed_app.
  - rewrite app_nil_r. reflexivity.
  - rewrite app_nil_r. reflexivity.
Qed.

Lemma printed_only_messages (t : list event) : only_messages t = true -> printed t = [].
Proof.
  induction t as [| e t IH]; [reflexivity |].
  cbn [only_messages forallb]. intros Hm. apply andb_true_iff in Hm. destruct Hm as [He Ht].
  destruct e; try discriminate. cbn [printed flat_map app]. apply IH. exact Ht.
Qed.

Lemma printed_finish (opened : bool) (err : error) : printed (fst (finish opened err)) = [].
Proof. destruct opened, err; reflexivity. Qed.

Lemma printed_start_threads (E : env) (idx : list nat) :
  printed (fst (start_threads E idx)) = [].
Proof.
  induction idx as [| i rest IH]; [reflexivity |].
  cbn [start_threads]. rewrite printed_bind. cbn [emit fst snd printed flat_map app].
  destruct (pthread_create_ok E i); [exact IH |].
  rewrite printed_bind. unfold cancel_threads. cbn [fst snd].
  rewrite app_nil_r. induction (rev (seq 0 (S i))) as [| k l IHl]; [reflexivity |].
  exact IHl.
Qed.

Lemma printed_join_threads (fuel : nat) (thargs : list (thread_args farg_t)) :
  forall i : nat, printed (fst (join_threads fuel thargs i)) = [].
Proof.
  induction thargs as [| ta rest IH]; intros i; [reflexivity |].
  cbn [join_threads]. destruct (integrate_worker fuel ta); [| reflexivity].
  rewrite printed_bind. cbn [emit fst snd printed flat_map app]. apply IH.
Qed.

(** [main] prints nothing, or it prints once and exits with 0; what it
    prints is the sum, from slot 0 upward, of what the workers stored. *)
Lemma dispatch_printed (E : env) (bindir : string) (a : args) :
  printed (fst (dispatch E bindir a)) = [] \/
  exists (dlfunc : farg_t -> farg_t) (results : list farg_t),
    dlsym E (FUNC_PREFIX ++ default ""%string (funcname a)) = Some dlfunc /\
    Forall2 (fun ta r => exists c : nat, worker_effect (patience E) ta = Some (r, c))
            (make_thargs (start a) (end_ a) (nsteps (base a)) (nthreads (base a)) dlfunc)
            results /\
    printed (fst (dispatch E bindir a)) = [sum_results results] /\
    snd (dispatch E bindir a) = Exit 0.
Proof.
  unfold dispatch.
  destruct (negb (asprintf_ok E)); [left; apply printed_finish |].
  rewrite bind_emit. cbn [fst snd printed flat_map app].
  destruct (negb (dlopen_ok E _)); [left; apply printed_finish |].
  rewrite bind_emit. cbn [fst snd printed flat_map app].
  destruct (dlsym E _) as [dlfunc |] eqn:Hsym; [| left; apply printed_finish].
  cbv zeta.
  set (thargs := make_thargs (start a) (end_ a) (nsteps (base a)) (nthreads (base a)) dlfunc).
  assert (Hlen : Z.to_nat (nthreads (base a)) = length thargs)
    by (symmetry; apply make_thargs_length).
  rewrite Hlen.
  destruct (start_threads E (seq 0 (length thargs))) as [ts [started | code |]] eqn:Hstart;
    pose proof (printed_start_threads E (seq 0 (length thargs))) as Hps;
    rewrite Hstart in Hps; cbn [fst] in Hps.
  2, 3: left; cbn [mbind M_bind fst]; exact Hps.
  rewrite bind_trace. cbn [fst snd]. rewrite printed_app, Hps. cbn [app].
  destruct (negb started); [left; apply printed_finish |].
  destruct (join_threads (patience E) thargs 0) as [tj [[] | code |]] eqn:Hjoin;
    pose proof (printed_join_threads (patience E) thargs 0) as Hpj;
    rewrite Hjoin in Hpj; cbn [fst] in Hpj.
  2, 3: left; cbn [mbind M_bind fst]; exact Hpj.
  rewrite bind_trace. cbn [fst snd]. rewrite printed_app, Hpj. cbn [app].
  destruct (run_workers (patience E) thargs _ _) as [[results n] |] eqn:Hrun;
    [| left; reflexivity].
  right. exists dlfunc, results. split; [reflexivity |]. split.
  - eapply results_by_index; [| exact Hrun].
    intros i ta. apply make_thargs_resptr.
  - rewrite bind_emit. cbn [fst snd printed flat_map app].
    destruct (isverbose a); split; reflexivity.
Qed.

Lemma main_printed (E : env) (argv0 : string) (argv : list string) :
  printed (fst (main E argv0 argv)) = [] \/
  exists (a : args) (dlfunc : farg_t -> farg_t) (results : list farg_t),
    parse_args E argv = ([], Ret a) /\
    dlsym E (FUNC_PREFIX ++ default ""%string (funcname a)) = Some dlfunc /\
    Forall2 (fun ta r => exists c : nat, worker_effect (patience E) ta = Some (r, c))
            (make_thargs (start a) (end_ a) (nsteps (base a)) (nthreads (base a)) dlfunc)
            results /\
    printed (fst (main E argv0 argv)) = [sum_results results] /\
    snd (main E argv0 argv) = Exit 0.
Proof.
  unfold main. destruct (bindir_of E argv0) as [bindir |]; [| left; reflexivity].
  destruct (1 =? 1 + Z.of_nat (length argv)); [left; reflexivity |].
  rewrite bind_ret.
  destruct (parse_args_outcome E argv) as [[a Ha] | (t & code & Ht & Hm)].
  - rewrite Ha, bind_silent.
    destruct (dispatch_printed E bindir a) as [Hnone | (dlfunc & results & H1 & H2 & H3 & H4)].
    + left. exact Hnone.
    + right. exists a, dlfunc, results. repeat split; assumption.
  - left. rewrite Ht. cbn [mbind M_bind fst]. apply printed_only_messages. exact Hm.
Qed.



(** ** Exit codes *)


(** * Rounding to binary64, in integers *)

Module B64.

Lemma fexp_eq (e : Z) : fexp Fmt.dprec Fmt.demax e = Z.max (e - 53) (-1074).
Proof. reflexivity. Qed.

(** ** Digits *)

Lemma digits2_pos_bounds (m : positive) :
  2 ^ (Zpos (digits2_pos m) - 1) <= Zpos m < 2 ^ Zpos (digits2_pos m).
Proof.
  induction m as [m IH | m IH |]; cbn [digits2_pos].
  - rewrite Pos2Z.inj_succ. replace (Z.succ (Zpos (digits2_pos m)) - 1) with (Zpos (digits2_pos m)) by lia.
    rewrite Z.pow_succ_r by lia.
    assert (H0 : Zpos (digits2_pos m) = Zpos (digits2_pos m) - 1 + 1) by lia.
    rewrite H0 at 1. rewrite Z.pow_add_r by lia. lia.
  - rewrite Pos2Z.inj_succ. replace (Z.succ (Zpos (digits2_pos m)) - 1) with (Zpos (digits2_pos m)) by lia.
    rewrite Z.pow_succ_r by lia.
    assert (H0 : Zpos (digits2_pos m) = Zpos (digits2_pos m) - 1 + 1) by lia.
    rewrite H0 at 1. rewrite Z.pow_add_r by lia. lia.
  - cbn. lia.
Qed.

(** The number of binary digits of a positive integer is determined by
    the powers of two around it. *)
Lemma digits_unique (m : positive) (d : Z) :
  2 ^ (d - 1) <= Zpos m < 2 ^ d -> Zpos (digits2_pos m) = d.
Proof.
  intros [Hlo Hhi]. pose proof (digits2_pos_bounds m) as [Hlo' Hhi'].
  assert (0 < d).
  { destruct (Z_lt_le_dec 0 d) as [Hd | Hd]; [exact Hd |].
    assert (2 ^ d <= 1).
    { destruct (Z.eq_dec d 0) as [-> | Hne]; [cbn; lia |].
      rewrite Z.pow_neg_r by lia. lia. }
    lia. }
  destruct (Z.lt_trichotomy (Zpos (digits2_pos m)) d) as [Hlt | [Heq | Hgt]]; [| exact Heq |].
  - assert (2 ^ Zpos (digits2_pos m) <= 2 ^ (d - 1)) by (apply Z.pow_le_mono_r; lia). lia.
  - assert (2 ^ d <= 2 ^ (Zpos (digits2_pos m) - 1)) by (apply Z.pow_le_mono_r; lia). lia.
Qed.

(** ** Iteration *)

Lemma iter_pos_nat {A : Type} (f : A -> A) (p : positive) (x : A) :
  SpecFloat.iter_pos f p x = Nat.iter (Pos.to_nat p) f x.
Proof.
  revert x. induction p as [p IH | p IH |]; intros x; cbn [SpecFloat.iter_pos].
  - rewrite !IH. rewrite Pos2Nat.inj_xI.
    replace (S (2 * Pos.to_nat p)) with (Pos.to_nat p + Pos.to_nat p + 1)%nat by lia.
    rewrite !Nat.iter_add. reflexivity.
  - rewrite !IH. rewrite Pos2Nat.inj_xO.
    replace (2 * Pos.to_nat p)%nat with (Pos.to_nat p + Pos.to_nat p)%nat by lia.
    rewrite Nat.iter_add. reflexivity.
  - reflexivity.
Qed.

(** ** A record that stands for a quotient

    [stands mrs n d] says that the record [mrs] is the number [n / d]
    cut to an integer, with its position in the unit interval: the
    mantissa is the quotient, and the location compares twice the
    remainder with [d]. *)
Definition location_of (r d : Z) : location :=
  if r =? 0 then loc_Exact else loc_Inexact (2 * r ?= d).

Definition stands (mrs : shr_record) (n d : Z) : Prop :=
  shr_m mrs = n / d /\ loc_of_shr_record mrs = location_of (n mod d) d.

Lemma stands_of_loc (m : Z) (l : location) (n d : Z) :
  m = n / d -> l = location_of (n mod d) d -> stands (shr_record_of_loc m l) n d.
Proof.
  intros Hm Hl. split.
  - destruct l as [| []]; exact Hm.
  - rewrite <- Hl. destruct l as [| []]; reflexivity.
Qed.

Lemma shr_1_stands (mrs : shr_record) (n d : Z) :
  0 <= n -> 0 < d -> stands mrs n d -> stands (shr_1 mrs) n (2 * d).
Proof.
  intros Hn Hd [Hm Hl].
  assert (Hq : n / (2 * d) = (n / d) / 2).
  { rewrite (Z.mul_comm 2 d). rewrite Z.div_div by lia. reflexivity. }
  assert (Hr : n mod (2 * d) = (n / d) mod 2 * d + n mod d).
  { rewrite (Z.mul_comm 2 d). rewrite Z.rem_mul_r by lia. lia. }
  pose proof (Z.mod_pos_bound n d Hd) as Hrd.
  pose proof (Z.mod_pos_bound (n / d) 2 ltac:(lia)) as Hr2.
  assert (H0 : 0 <= n / d) by (apply Z.div_pos; lia).
  destruct mrs as [m r s]. cbn [shr_m] in Hm. subst m.
  unfold location_of in Hl.
  assert (Hrs : orb r s = negb (n mod d =? 0)).
  { destruct (n mod d =? 0); destruct r, s; cbn in Hl; try discriminate; reflexivity. }
  unfold stands, location_of. rewrite Hq, Hr.
  remember (n / d) as q eqn:Eq. clear Eq Hq Hr Hl.
  destruct q as [| p | p]; [| | lia].
  - cbn [shr_1 shr_m loc_of_shr_record]. rewrite Hrs. cbn [Z.div Z.modulo].
    change (0 / 2) with 0. change (0 mod 2) with 0. rewrite Z.mul_0_l, Z.add_0_l.
    split; [reflexivity |].
    destruct (n mod d =? 0) eqn:E0; cbn [negb loc_of_shr_record]; [reflexivity |].
    apply Z.eqb_neq in E0. f_equal. symmetry. apply Z.compare_lt_iff. lia.
  - destruct p as [p | p |]; cbn [shr_1 shr_m loc_of_shr_record]; rewrite Hrs.
    + replace (Zpos p~1 / 2) with (Zpos p) by (rewrite Pos2Z.inj_xI; apply Z.div_unique with 1; lia).
      replace (Zpos p~1 mod 2) with 1 by (rewrite Pos2Z.inj_xI; apply Z.mod_unique with (Zpos p); lia).
      split; [reflexivity |].
      replace (1 * d + n mod d =? 0) with false by (symmetry; apply Z.eqb_neq; lia).
      destruct (n mod d =? 0) eqn:E0; cbn [negb loc_of_shr_record]; f_equal; symmetry.
      * apply Z.eqb_eq in E0. apply Z.compare_eq_iff. lia.
      * apply Z.eqb_neq in E0. apply Z.compare_gt_iff. lia.
    + replace (Zpos p~0 / 2) with (Zpos p) by (rewrite Pos2Z.inj_xO; apply Z.div_unique with 0; lia).
      replace (Zpos p~0 mod 2) with 0 by (rewrite Pos2Z.inj_xO; apply Z.mod_unique with (Zpos p); lia).
      rewrite Z.mul_0_l, Z.add_0_l. split; [reflexivity |].
      destruct (n mod d =? 0) eqn:E0; cbn [negb loc_of_shr_record]; [reflexivity |].
      apply Z.eqb_neq in E0. f_equal. symmetry. apply Z.compare_lt_iff. lia.
    + change (1 / 2) with 0. change (1 mod 2) with 1. split; [reflexivity |].
      replace (1 * d + n mod d =? 0) with false by (symmetry; apply Z.eqb_neq; lia).
      destruct (n mod d =? 0) eqn:E0; cbn [negb loc_of_shr_record]; f_equal; symmetry.
      * apply Z.eqb_eq in E0. apply Z.compare_eq_iff. lia.
      * apply Z.eqb_neq in E0. apply Z.compare_gt_iff. lia.
Qed.

Lemma shr_iter_stands (k : nat) :
  forall (mrs : shr_record) (n d : Z),
    0 <= n -> 0 < d -> stands mrs n d ->
    stands (Nat.iter k shr_1 mrs) n (d * 2 ^ Z.of_nat k).
Proof.
  induction k as [| k IH]; intros mrs n d Hn Hd Hst.
  - cbn [Nat.iter]. change (2 ^ Z.of_nat 0) with 1. rewrite Z.mul_1_r. exact Hst.
  - cbn [Nat.iter]. rewrite Nat2Z.inj_succ, Z.pow_succ_r by lia.
    replace (d * (2 * 2 ^ Z.of_nat k)) with (2 * (d * 2 ^ Z.of_nat k)) by lia.
    apply shr_1_stands; [exact Hn | | apply IH; assumption].
    apply Z.mul_pos_pos; [exact Hd | apply Z.pow_pos_nonneg; lia].
Qed.

(** [shr], on a record that stands for a quotient. *)
Lemma shr_stands (mrs : shr_record) (e k n d : Z) :
  0 <= n -> 0 < d -> 0 <= k -> stands mrs n d ->
  stands (fst (shr mrs e k)) n (d * 2 ^ k) /\ snd (shr mrs e k) = e + k.
Proof.
  intros Hn Hd Hk Hst. destruct k as [| p | p]; [| | lia].
  - cbn [shr fst snd]. rewrite Z.mul_1_r. split; [exact Hst | lia].
  - cbn [shr fst snd]. split; [| reflexivity].
    rewrite iter_pos_nat.
    replace (Zpos p) with (Z.of_nat (Pos.to_nat p)) by apply positive_nat_Z.
    apply shr_iter_stands; assumption.
Qed.


(** ** Rounding to nearest, ties to even *)

(** The integer nearest to [n / d]. *)
Definition rne (n d : Z) : Z :=
  match 2 * (n mod d) ?= d with
  | Lt => n / d
  | Eq => if Z.even (n / d) then n / d else n / d + 1
  | Gt => n / d + 1
  end.

Lemma rne_stands (mrs : shr_record) (n d : Z) :
  0 < d -> stands mrs n d ->
  round_nearest_even (shr_m mrs) (loc_of_shr_record mrs) = rne n d.
Proof.
  intros Hd [Hm Hl]. rewrite Hm, Hl. unfold location_of, rne.
  destruct (n mod d =? 0) eqn:E0.
  - apply Z.eqb_eq in E0. rewrite E0. cbn [round_nearest_even].
    replace (2 * 0 ?= d) with Lt by (symmetry; apply Z.compare_lt_iff; lia). reflexivity.
  - cbn [round_nearest_even]. destruct (2 * (n mod d) ?= d); reflexivity.
Qed.

Lemma rne_bounds (n d : Z) : 0 < d -> n / d <= rne n d <= n / d + 1.
Proof.
  intros Hd. unfold rne.
  destruct (2 * (n mod d) ?= d); [destruct (Z.even (n / d)) | |]; lia.
Qed.

(** The result of rounding: mantissa [m] (at most 2^53) at exponent [e]. *)
Definition pack (sx : bool) (m e : Z) : spec_float :=
  match m with
  | Z0 => S754_zero sx
  | Zpos p =>
      if m =? 2 ^ 53
      then (if e + 1 <=? 971 then S754_finite sx (2 ^ 52)%positive (e + 1) else S754_infinity sx)
      else (if e <=? 971 then S754_finite sx p e else S754_infinity sx)
  | Zneg _ => S754_nan
  end.

Lemma Zdigits2_bounds (m : Z) : 0 <= m -> m < 2 ^ Zdigits2 m.
Proof.
  intros Hm. destruct m as [| p | p]; [cbn; lia | | lia].
  cbn [Zdigits2]. apply digits2_pos_bounds.
Qed.

Lemma Zdigits2_nonneg (m : Z) : 0 <= Zdigits2 m.
Proof. destruct m; cbn; lia. Qed.

Lemma Zdigits2_le (m : Z) (d : Z) : 0 <= m -> 0 <= d -> m < 2 ^ d -> Zdigits2 m <= d.
Proof.
  intros Hm Hd Hlt. destruct m as [| p | p]; [cbn; lia | | lia].
  cbn [Zdigits2]. pose proof (digits2_pos_bounds p) as [Hlo _].
  destruct (Z_le_gt_dec (Zpos (digits2_pos p)) d) as [Hle | Hgt]; [exact Hle |].
  assert (2 ^ d <= 2 ^ (Zpos (digits2_pos p) - 1)) by (apply Z.pow_le_mono_r; lia). lia.
Qed.

Lemma binary_round_aux_spec (sx : bool) (mx ex : Z) (lx : location) (n d : Z) :
  0 <= n -> 0 < d -> mx = n / d -> lx = location_of (n mod d) d ->
  ex <= fexp Fmt.dprec Fmt.demax (Zdigits2 mx + ex) ->
  binary_round_aux Fmt.dprec Fmt.demax sx mx ex lx =
  pack sx (rne n (d * 2 ^ (fexp Fmt.dprec Fmt.demax (Zdigits2 mx + ex) - ex)))
       (fexp Fmt.dprec Fmt.demax (Zdigits2 mx + ex)).
Proof.
  intros Hn Hd Hmx Hlx Hk.
  set (e1 := fexp Fmt.dprec Fmt.demax (Zdigits2 mx + ex)) in *.
  set (k := e1 - ex).
  assert (Hmx0 : 0 <= mx) by (subst mx; apply Z.div_pos; lia).
  assert (He1 : -1074 <= e1 /\ Zdigits2 mx + ex - 53 <= e1).
  { unfold e1. rewrite fexp_eq. lia. }
  assert (Hpk : 0 < 2 ^ k) by (apply Z.pow_pos_nonneg; lia).
  assert (Hdk : 0 < d * 2 ^ k) by (apply Z.mul_pos_pos; assumption).
  unfold binary_round_aux, shr_fexp. fold e1. fold k.
  destruct (shr_stands (shr_record_of_loc mx lx) ex k n d Hn Hd ltac:(lia)
                       (stands_of_loc mx lx n d Hmx Hlx)) as [Hst He].
  destruct (shr (shr_record_of_loc mx lx) ex k) as [mrs1 e1'] eqn:Hshr.
  cbn [fst snd] in Hst, He. subst e1'. replace (ex + k) with e1 by (unfold k; lia).
  rewrite (rne_stands mrs1 n (d * 2 ^ k) Hdk Hst).
  set (m1 := rne n (d * 2 ^ k)).
  assert (Hq : n / (d * 2 ^ k) = mx / 2 ^ k).
  { rewrite <- Z.div_div by lia. rewrite <- Hmx. reflexivity. }
  assert (Hm1 : 0 <= m1 <= 2 ^ 53).
  { pose proof (rne_bounds n (d * 2 ^ k) Hdk) as Hb. fold m1 in Hb. rewrite Hq in Hb.
    assert (0 <= mx / 2 ^ k) by (apply Z.div_pos; lia).
    assert (mx / 2 ^ k < 2 ^ 53).
    { apply Z.div_lt_upper_bound; [exact Hpk |].
      rewrite <- Z.pow_add_r by lia.
      pose proof (Zdigits2_bounds mx Hmx0).
      assert (2 ^ Zdigits2 mx <= 2 ^ (k + 53)).
      { apply Z.pow_le_mono_r; [lia | unfold k; lia]. }
      lia. }
    lia. }
  destruct (Z.eq_dec m1 (2 ^ 53)) as [Hbig | Hsmall].
  - (* the mantissa overflows into the next binade *)
    rewrite Hbig. change (Zdigits2 (2 ^ 53)) with 54.
    replace (fexp Fmt.dprec Fmt.demax (54 + e1) - e1) with 1 by (rewrite fexp_eq; lia).
    cbn [shr shr_record_of_loc SpecFloat.iter_pos]. 
    change (shr_1 {| shr_m := 2 ^ 53; shr_r := false; shr_s := false |})
      with {| shr_m := 2 ^ 52; shr_r := false; shr_s := false |}.
    cbn [shr_m]. unfold pack. change (2 ^ 53 =? 2 ^ 53) with true.
    change (2 ^ 52) with (Zpos (2 ^ 52)%positive). cbv iota beta.
    change (Fmt.demax - Fmt.dprec) with 971. reflexivity.
  - assert (Hd1 : Zdigits2 m1 <= 53) by (apply Zdigits2_le; lia).
    pose proof (Zdigits2_nonneg m1).
    assert (Hk2 : fexp Fmt.dprec Fmt.demax (Zdigits2 m1 + e1) - e1 <= 0) by (rewrite fexp_eq; lia).
    assert (Hshr2 : shr (shr_record_of_loc m1 loc_Exact) e1 (fexp Fmt.dprec Fmt.demax (Zdigits2 m1 + e1) - e1)
                    = (shr_record_of_loc m1 loc_Exact, e1)).
    { destruct (fexp Fmt.dprec Fmt.demax (Zdigits2 m1 + e1) - e1); [reflexivity | lia | reflexivity]. }
    rewrite Hshr2. cbn [shr_record_of_loc shr_m]. unfold pack.
    destruct m1 as [| p | p]; [reflexivity | | lia].
    replace (Zpos p =? 2 ^ 53) with false by (symmetry; apply Z.eqb_neq; exact Hsmall).
    change (Fmt.demax - Fmt.dprec) with 971. reflexivity.
Qed.


(** ** Ranks

    The values that occur in a run are zero, the positive finite numbers
    of the format and plus infinity. [rk] numbers them in their order. *)

Definition INF : Z := 2047 * 2 ^ 52.

Definition fin (x : spec_float) : Prop :=
  match x with
  | S754_zero _ => True
  | S754_finite false m e => bounded Fmt.dprec Fmt.demax m e = true
  | _ => False
  end.

Definition good (x : spec_float) : Prop := fin x \/ x = S754_infinity false.

Definition rk (x : spec_float) : Z :=
  match x with
  | S754_finite false m e => (e + 1074) * 2 ^ 52 + Zpos m
  | S754_infinity false => INF
  | _ => 0
  end.

Lemma bounded_spec (m : positive) (e : Z) :
  bounded Fmt.dprec Fmt.demax m e = true <->
  -1074 <= e <= 971 /\ Zpos m < 2 ^ 53 /\ (e = -1074 \/ 2 ^ 52 <= Zpos m).
Proof.
  unfold bounded, canonical_mantissa. rewrite andb_true_iff, Z.eqb_eq, Z.leb_le, fexp_eq.
  change (Fmt.demax - Fmt.dprec) with 971.
  pose proof (digits2_pos_bounds m) as [Hlo Hhi].
  set (d := Zpos (digits2_pos m)) in *.
  assert (Hd : 0 < d) by (unfold d; lia).
  split.
  - intros [Hc He].
    assert (Hd53 : d <= 53) by lia.
    assert (2 ^ d <= 2 ^ 53) by (apply Z.pow_le_mono_r; lia).
    split; [lia |]. split; [lia |].
    destruct (Z.eq_dec e (-1074)) as [He1 | He1]; [left; exact He1 | right].
    assert (d = 53) by lia. subst d. replace 52 with (Zpos (digits2_pos m) - 1) by lia. exact Hlo.
  - intros (He & Hm & Hc). split; [| lia].
    assert (Hd53 : d <= 53).
    { destruct (Z_le_gt_dec d 53) as [Hle | Hgt]; [exact Hle |].
      assert (2 ^ 53 <= 2 ^ (d - 1)) by (apply Z.pow_le_mono_r; lia). lia. }
    destruct Hc as [-> | Hc]; [lia |].
    assert (53 <= d).
    { destruct (Z_le_gt_dec 53 d) as [Hle | Hgt]; [exact Hle |].
      assert (2 ^ d <= 2 ^ 52) by (apply Z.pow_le_mono_r; lia). lia. }
    lia.
Qed.

Lemma rk_fin_bounds (x : spec_float) : fin x -> 0 <= rk x < INF.
Proof.
  destruct x as [s | s | | [] m e]; cbn [fin rk]; intros Hb; try contradiction;
    unfold INF; try lia.
  apply bounded_spec in Hb. lia.
Qed.

Lemma rk_good_bounds (x : spec_float) : good x -> 0 <= rk x <= INF.
Proof.
  intros [Hf | ->]; [pose proof (rk_fin_bounds x Hf); lia | cbn; unfold INF; lia].
Qed.

(** [<] on good values is the order of the ranks. *)
Lemma SFltb_rk (x y : spec_float) : good x -> good y -> SFltb x y = (rk x <? rk y).
Proof.
  intros Hx Hy.
  pose proof (rk_good_bounds x Hx) as Bx. pose proof (rk_good_bounds y Hy) as By.
  destruct Hx as [Hx | ->]; destruct Hy as [Hy | ->].
  - pose proof (rk_fin_bounds x Hx) as Bx'. pose proof (rk_fin_bounds y Hy) as By'.
    destruct x as [sx | sx | | [] mx ex]; try (exfalso; exact Hx);
      destruct y as [sy | sy | | [] my ey]; try (exfalso; exact Hy);
      cbn [fin] in Hx, Hy; unfold SFltb; cbn [SFcompare rk].
    + reflexivity.
    + symmetry. apply Z.ltb_lt. apply bounded_spec in Hy. lia.
    + symmetry. apply Z.ltb_ge. apply bounded_spec in Hx. lia.
    + apply bounded_spec in Hx, Hy.
      destruct (Z.compare_spec ex ey) as [Heq | Hlt | Hgt].
      * subst ey. rewrite Pos.compare_cont_spec. cbn [Pos.switch_Eq].
        destruct (Pos.compare_spec mx my) as [Hm | Hm | Hm]; symmetry.
        -- apply Z.ltb_ge. subst. lia.
        -- apply Z.ltb_lt. lia.
        -- apply Z.ltb_ge. lia.
      * symmetry. apply Z.ltb_lt. nia.
      * symmetry. apply Z.ltb_ge. nia.
  - pose proof (rk_fin_bounds x Hx) as Bx'.
    destruct x as [sx | sx | | [] mx ex]; try (exfalso; exact Hx);
      unfold SFltb; cbn [SFcompare]; symmetry; apply Z.ltb_lt; exact (proj2 Bx').
  - pose proof (rk_fin_bounds y Hy) as By'.
    destruct y as [sy | sy | | [] my ey]; try (exfalso; exact Hy);
      unfold SFltb; cbn [SFcompare]; symmetry; apply Z.ltb_ge;
      change (rk (S754_infinity false)) with INF; lia.
  - reflexivity.
Qed.

(** What [pack] makes is good, and its rank is read off the mantissa and
    the exponent. *)
Lemma pack_good (m e : Z) :
  0 <= m <= 2 ^ 53 -> -1074 <= e -> (e = -1074 \/ 2 ^ 52 <= m) ->
  good (pack false m e) /\ rk (pack false m e) = Z.min ((e + 1074) * 2 ^ 52 + m) INF.
Proof.
  intros Hm He Hc. unfold pack, INF.
  destruct m as [| p | p]; [| | lia].
  - split; [left; exact I |]. cbn [rk]. destruct Hc as [-> | Hc]; lia.
  - destruct (Z.eqb_spec (Zpos p) (2 ^ 53)) as [Hbig | Hsmall].
    + destruct (Z.leb_spec (e + 1) 971) as [Hle | Hgt].
      * split.
        -- left. cbn [fin]. apply bounded_spec. change (Zpos (2 ^ 52)%positive) with (2 ^ 52). lia.
        -- cbn [rk]. change (Zpos (2 ^ 52)%positive) with (2 ^ 52). rewrite Hbig. lia.
      * split; [right; reflexivity |]. cbn [rk]. rewrite Hbig. unfold INF. lia.
    + destruct (Z.leb_spec e 971) as [Hle | Hgt].
      * split.
        -- left. cbn [fin]. apply bounded_spec. lia.
        -- cbn [rk]. lia.
      * split; [right; reflexivity |]. cbn [rk]. unfold INF. lia.
Qed.


(** ** The rank of a rounded value

    Values are counted in units of 2^-1127, fine enough for the products
    of a number of the format and an integer below 2^53. [rho v] is the
    rank of the number of the format nearest to [v] units. *)

Definition U : Z := 1127.

Definition rho (v : Z) : Z :=
  (Z.max (Zdigits2 v - 53) 53 - 53) * 2 ^ 52 + rne v (2 ^ Z.max (Zdigits2 v - 53) 53).

Definition V (x : spec_float) : Z :=
  match x with
  | S754_finite false m e => Zpos m * 2 ^ (e + U)
  | _ => 0
  end.

Lemma rne_scale (n d c : Z) : 0 < d -> 0 < c -> rne (n * c) (d * c) = rne n d.
Proof.
  intros Hd Hc. unfold rne.
  rewrite Z.div_mul_cancel_r by lia.
  rewrite Z.mul_mod_distr_r by lia.
  destruct (Z.compare_spec (2 * (n mod d)) d);
    destruct (Z.compare_spec (2 * (n mod d * c)) (d * c)); try reflexivity; nia.
Qed.

Lemma rne_exact (m d : Z) : 0 < d -> rne (m * d) d = m.
Proof.
  intros Hd. unfold rne. rewrite Z.mod_mul, Z.div_mul by lia.
  replace (2 * 0 ?= d) with Lt by (symmetry; apply Z.compare_lt_iff; lia). reflexivity.
Qed.

Lemma rne_mono (n n' d : Z) : 0 < d -> n <= n' -> rne n d <= rne n' d.
Proof.
  intros Hd Hnn.
  assert (Hq : n / d <= n' / d) by (apply Z.div_le_mono; lia).
  pose proof (rne_bounds n d Hd) as Hb. pose proof (rne_bounds n' d Hd) as Hb'.
  destruct (Z.eq_dec (n / d) (n' / d)) as [Heq | Hne]; [| lia].
  assert (Hr : n mod d <= n' mod d).
  { rewrite (Z.mod_eq n d), (Z.mod_eq n' d) by lia. rewrite Heq. lia. }
  unfold rne. rewrite Heq.
  destruct (Z.compare_spec (2 * (n mod d)) d); destruct (Z.compare_spec (2 * (n' mod d)) d);
    try destruct (Z.even (n' / d)); lia.
Qed.

(** Half a unit in the last place: the nearest integer is within half
    of the quotient. *)
Lemma rne_half (n d : Z) : 0 < d -> Z.abs (2 * (rne n d * d) - 2 * n) <= d.
Proof.
  intros Hd. unfold rne.
  pose proof (Z.div_mod n d ltac:(lia)) as Hn.
  pose proof (Z.mod_pos_bound n d Hd) as Hr.
  destruct (Z.compare_spec (2 * (n mod d)) d); [destruct (Z.even (n / d)) | |]; nia.
Qed.

Lemma Zdigits2_mono (v w : Z) : 0 <= v -> v <= w -> Zdigits2 v <= Zdigits2 w.
Proof.
  intros Hv Hvw. apply Zdigits2_le; [exact Hv | apply Zdigits2_nonneg |].
  pose proof (Zdigits2_bounds w ltac:(lia)). lia.
Qed.

Lemma Zdigits2_lower (v : Z) : 0 < v -> 2 ^ (Zdigits2 v - 1) <= v.
Proof.
  intros Hv. destruct v as [| p | p]; try lia. cbn [Zdigits2]. apply digits2_pos_bounds.
Qed.

Lemma Zdigits2_unique (v d : Z) : 2 ^ (d - 1) <= v < 2 ^ d -> 0 < v -> Zdigits2 v = d.
Proof.
  intros Hb Hv. destruct v as [| p | p]; try lia. cbn [Zdigits2]. apply digits_unique. exact Hb.
Qed.

Lemma Zdigits2_shift (m j : Z) : 0 < m -> 0 <= j -> Zdigits2 (m * 2 ^ j) = Zdigits2 m + j.
Proof.
  intros Hm Hj.
  pose proof (Zdigits2_lower m Hm) as Hlo. pose proof (Zdigits2_bounds m ltac:(lia)) as Hhi.
  assert (Hd : 0 < Zdigits2 m).
  { destruct m as [| p | p]; try lia. cbn. lia. }
  assert (Hp : 0 < 2 ^ j) by (apply Z.pow_pos_nonneg; lia).
  apply Zdigits2_unique; [| nia].
  replace (Zdigits2 m + j - 1) with (Zdigits2 m - 1 + j) by lia.
  rewrite !Z.pow_add_r by lia. nia.
Qed.

Lemma rho_mono (v w : Z) : 0 <= v -> v <= w -> rho v <= rho w.
Proof.
  intros Hv Hvw. unfold rho.
  pose proof (Zdigits2_mono v w Hv Hvw) as Hd.
  set (tv := Z.max (Zdigits2 v - 53) 53). set (tw := Z.max (Zdigits2 w - 53) 53).
  assert (Htv : 53 <= tv) by (unfold tv; lia).
  assert (Hpv : 0 < 2 ^ tv) by (apply Z.pow_pos_nonneg; lia).
  assert (Hpw : 0 < 2 ^ tw) by (apply Z.pow_pos_nonneg; unfold tw; lia).
  destruct (Z.eq_dec tv tw) as [Heq | Hne].
  - rewrite <- Heq. pose proof (rne_mono v w (2 ^ tv) Hpv Hvw). lia.
  - assert (Hlt : tv < tw) by (unfold tv, tw in *; lia).
    assert (Htw : tw = Zdigits2 w - 53) by (unfold tv, tw in *; lia).
    assert (Hw0 : 0 < w).
    { destruct (Z.eq_dec w 0) as [-> | H0]; [| lia]. cbn in Htw. unfold tw in Htw. lia. }
    (* the upper value has a full mantissa *)
    assert (Hmw : 2 ^ 52 <= rne w (2 ^ tw)).
    { pose proof (rne_bounds w (2 ^ tw) Hpw) as [Hb _].
      assert (2 ^ 52 <= w / 2 ^ tw); [| lia].
      apply Z.div_le_lower_bound; [exact Hpw |].
      rewrite <- Z.pow_add_r by lia.
      pose proof (Zdigits2_lower w Hw0).
      replace (tw + 52) with (Zdigits2 w - 1) by lia. lia. }
    (* the lower one stays within its binade *)
    assert (Hmv : rne v (2 ^ tv) <= 2 ^ 53).
    { pose proof (rne_bounds v (2 ^ tv) Hpv) as [_ Hb].
      assert (v / 2 ^ tv < 2 ^ 53); [| lia].
      apply Z.div_lt_upper_bound; [exact Hpv |].
      rewrite <- Z.pow_add_r by lia.
      pose proof (Zdigits2_bounds v Hv).
      assert (2 ^ Zdigits2 v <= 2 ^ (tv + 53)).
      { apply Z.pow_le_mono_r; [lia | unfold tv; lia]. }
      lia. }
    nia.
Qed.

Lemma rho_repr (m e : Z) :
  0 <= m <= 2 ^ 53 -> -1074 <= e -> (e = -1074 \/ 2 ^ 52 <= m) ->
  rho (m * 2 ^ (e + U)) = (e + 1074) * 2 ^ 52 + m.
Proof.
  intros Hm He Hc. unfold rho, U.
  assert (Hp : 0 < 2 ^ (e + 1127)) by (apply Z.pow_pos_nonneg; lia).
  destruct (Z.eq_dec m 0) as [-> | Hm0].
  - replace (0 * 2 ^ (e + 1127)) with 0 by lia.
    match goal with |- ?l = _ => replace l with 0 by (vm_compute; reflexivity) end.
    destruct Hc as [-> | Hc]; lia.
  - rewrite Zdigits2_shift by lia.
    destruct (Z.eq_dec m (2 ^ 53)) as [-> | Hm1].
    + change (Zdigits2 (2 ^ 53)) with 54.
      replace (Z.max (54 + (e + 1127) - 53) 53) with (e + 1127 + 1) by lia.
      rewrite (Z.pow_add_r 2 (e + 1127) 1) by lia.
      replace (2 ^ 53 * 2 ^ (e + 1127)) with (2 ^ 52 * (2 ^ (e + 1127) * 2 ^ 1))
        by (change (2 ^ 53) with (2 ^ 52 * 2); change (2 ^ 1) with 2; lia).
      rewrite rne_exact by (change (2 ^ 1) with 2; lia). change (2 ^ 53) with (2 ^ 52 * 2). lia.
    + assert (Hd : Zdigits2 m <= 53) by (apply Zdigits2_le; lia).
      assert (Ht : Z.max (Zdigits2 m + (e + 1127) - 53) 53 = e + 1127).
      { destruct Hc as [-> | Hc]; [lia |].
        assert (53 <= Zdigits2 m); [| lia].
        destruct (Z_le_gt_dec 53 (Zdigits2 m)) as [Hle | Hgt]; [exact Hle |].
        pose proof (Zdigits2_bounds m ltac:(lia)).
        assert (2 ^ Zdigits2 m <= 2 ^ 52) by (apply Z.pow_le_mono_r; lia). lia. }
      rewrite Ht, rne_exact by exact Hp. lia.
Qed.

Lemma rho_V (x : spec_float) : fin x -> rho (V x) = rk x.
Proof.
  destruct x as [s | s | | [] m e]; cbn [fin V rk]; intros Hb; try contradiction;
    try reflexivity.
  apply bounded_spec in Hb. apply rho_repr; lia.
Qed.

Lemma V_nonneg (x : spec_float) : 0 <= V x.
Proof.
  destruct x as [s | s | | [] m e]; cbn [V]; lia.
Qed.

(** The values of the format are ordered as their ranks. *)
Lemma V_le (x y : spec_float) : fin x -> fin y -> rk x <= rk y -> V x <= V y.
Proof.
  intros Hx Hy Hxy.
  destruct (Z_le_gt_dec (V x) (V y)) as [Hle | Hgt]; [exact Hle | exfalso].
  pose proof (rho_mono (V y) (V x) (V_nonneg y) ltac:(lia)) as Hrho.
  rewrite !rho_V in Hrho by assumption.
  assert (Heq : rk x = rk y) by lia. clear Hxy Hrho.
  destruct x as [sx | sx | | [] mx ex]; try contradiction;
    destruct y as [sy | sy | | [] my ey]; try contradiction; cbn [fin V rk] in *.
  - lia.
  - lia.
  - apply bounded_spec in Hx. lia.
  - apply bounded_spec in Hx, Hy.
    assert (ex = ey) by nia. subst ey. assert (Zpos mx = Zpos my) by lia. lia.
Qed.


(** ** Rounding, in ranks *)

Lemma round_mantissa_bounds (mx ex n d : Z) :
  0 <= n -> 0 < d -> mx = n / d ->
  ex <= fexp Fmt.dprec Fmt.demax (Zdigits2 mx + ex) ->
  0 <= rne n (d * 2 ^ (fexp Fmt.dprec Fmt.demax (Zdigits2 mx + ex) - ex)) <= 2 ^ 53 /\
  (fexp Fmt.dprec Fmt.demax (Zdigits2 mx + ex) = -1074 \/
   2 ^ 52 <= rne n (d * 2 ^ (fexp Fmt.dprec Fmt.demax (Zdigits2 mx + ex) - ex))).
Proof.
  intros Hn Hd Hmx Hk.
  set (e1 := fexp Fmt.dprec Fmt.demax (Zdigits2 mx + ex)) in *.
  set (k := e1 - ex).
  assert (Hmx0 : 0 <= mx) by (subst mx; apply Z.div_pos; lia).
  assert (He1 : e1 = Z.max (Zdigits2 mx + ex - 53) (-1074)) by (unfold e1; apply fexp_eq).
  assert (Hpk : 0 < 2 ^ k) by (apply Z.pow_pos_nonneg; unfold k; lia).
  assert (Hdk : 0 < d * 2 ^ k) by (apply Z.mul_pos_pos; assumption).
  assert (Hq : n / (d * 2 ^ k) = mx / 2 ^ k).
  { rewrite <- Z.div_div by lia. rewrite <- Hmx. reflexivity. }
  pose proof (rne_bounds n (d * 2 ^ k) Hdk) as Hb. rewrite Hq in Hb.
  assert (H0 : 0 <= mx / 2 ^ k) by (apply Z.div_pos; lia).
  assert (Hlt : mx / 2 ^ k < 2 ^ 53).
  { apply Z.div_lt_upper_bound; [exact Hpk |].
    rewrite <- Z.pow_add_r by (unfold k; lia).
    pose proof (Zdigits2_bounds mx Hmx0).
    assert (2 ^ Zdigits2 mx <= 2 ^ (k + 53)).
    { apply Z.pow_le_mono_r; [lia | unfold k; lia]. }
    lia. }
  split; [lia |].
  destruct (Z.eq_dec e1 (-1074)) as [He | He]; [left; exact He | right].
  assert (Hk53 : k = Zdigits2 mx - 53) by (unfold k; lia).
  assert (Hmx1 : 0 < mx).
  { destruct (Z.eq_dec mx 0) as [E | E]; [| lia]. rewrite E in Hk53. cbn in Hk53. unfold k in Hk53. lia. }
  assert (2 ^ 52 <= mx / 2 ^ k); [| lia].
  apply Z.div_le_lower_bound; [exact Hpk |].
  rewrite <- Z.pow_add_r by (unfold k; lia).
  pose proof (Zdigits2_lower mx Hmx1).
  replace (k + 52) with (Zdigits2 mx - 1) by lia. lia.
Qed.

Lemma round_good (mx ex : Z) (lx : location) (n d : Z) :
  0 <= n -> 0 < d -> mx = n / d -> lx = location_of (n mod d) d ->
  ex <= fexp Fmt.dprec Fmt.demax (Zdigits2 mx + ex) ->
  good (binary_round_aux Fmt.dprec Fmt.demax false mx ex lx) /\
  rk (binary_round_aux Fmt.dprec Fmt.demax false mx ex lx) =
  Z.min ((fexp Fmt.dprec Fmt.demax (Zdigits2 mx + ex) + 1074) * 2 ^ 52
         + rne n (d * 2 ^ (fexp Fmt.dprec Fmt.demax (Zdigits2 mx + ex) - ex))) INF.
Proof.
  intros Hn Hd Hmx Hlx Hk.
  rewrite (binary_round_aux_spec false mx ex lx n d Hn Hd Hmx Hlx Hk).
  destruct (round_mantissa_bounds mx ex n d Hn Hd Hmx Hk) as [Hb Hc].
  apply pack_good; [exact Hb | rewrite fexp_eq; lia | exact Hc].
Qed.

(** Rounding an integer multiple of a power of two. *)
Lemma round_exact (mx ex : Z) :
  0 < mx -> - U <= ex -> ex <= fexp Fmt.dprec Fmt.demax (Zdigits2 mx + ex) ->
  good (binary_round_aux Fmt.dprec Fmt.demax false mx ex loc_Exact) /\
  rk (binary_round_aux Fmt.dprec Fmt.demax false mx ex loc_Exact) = Z.min (rho (mx * 2 ^ (ex + U))) INF.
Proof.
  intros Hmx Hex Hk.
  assert (Hspec := round_good mx ex loc_Exact mx 1 ltac:(lia) ltac:(lia)).
  rewrite Z.div_1_r, Z.mod_1_r in Hspec.
  specialize (Hspec eq_refl eq_refl Hk). destruct Hspec as [Hg Hr].
  split; [exact Hg |]. rewrite Hr. f_equal.
  unfold rho. rewrite Zdigits2_shift by (unfold U in *; lia).
  set (e1 := fexp Fmt.dprec Fmt.demax (Zdigits2 mx + ex)) in *.
  assert (He1 : e1 = Z.max (Zdigits2 mx + ex - 53) (-1074)) by (unfold e1; apply fexp_eq).
  replace (Z.max (Zdigits2 mx + (ex + U) - 53) 53) with (e1 + U) by (unfold U; lia).
  replace (e1 + U) with ((e1 - ex) + (ex + U)) at 2 by lia.
  rewrite (Z.pow_add_r 2 (e1 - ex) (ex + U)) by (unfold U in *; lia).
  rewrite Z.mul_1_l.
  rewrite rne_scale by (apply Z.pow_pos_nonneg; unfold U in *; lia).
  unfold U. lia.
Qed.

(** ** Addition *)

Lemma iter_xO (m : positive) (d : positive) :
  Zpos (Pos.iter xO m d) = Zpos m * 2 ^ Zpos d.
Proof.
  induction d as [| d IH] using Pos.peano_ind.
  - cbn. lia.
  - rewrite Pos.iter_succ, Pos2Z.inj_xO, IH, Pos2Z.inj_succ, Z.pow_succ_r by lia. lia.
Qed.

Lemma shl_align_value (m : positive) (e e' : Z) :
  e' <= e -> Zpos (fst (shl_align m e e')) = Zpos m * 2 ^ (e - e').
Proof.
  intros Hle. unfold shl_align.
  destruct (e' - e) as [| p | p] eqn:Hd; cbn [fst].
  - replace (e - e') with 0 by lia. cbn. lia.
  - lia.
  - rewrite iter_xO. replace (e - e') with (Zpos p) by lia. reflexivity.
Qed.

Lemma shl_align_keep (m : positive) (e e' : Z) : e <= e' -> shl_align m e e' = (m, e).
Proof.
  intros Hle. unfold shl_align. destruct (e' - e) as [| p | p] eqn:Hd; [reflexivity.. | lia].
Qed.

Lemma rho_0 : rho 0 = 0.
Proof. reflexivity. Qed.

(** The sum of two finite values that are not negative: the sum of the
    values, rounded. *)
Lemma SFadd_fin (x y : spec_float) :
  fin x -> fin y ->
  good (SFadd Fmt.dprec Fmt.demax x y) /\ rk (SFadd Fmt.dprec Fmt.demax x y) = Z.min (rho (V x + V y)) INF.
Proof.
  intros Hx Hy.
  assert (Hself : forall z, fin z -> good z /\ rk z = Z.min (rho (V z)) INF).
  { intros z Hz. split; [left; exact Hz |]. rewrite rho_V by exact Hz.
    pose proof (rk_fin_bounds z Hz). lia. }
  destruct x as [sx | sx | | [] mx ex]; try contradiction;
    destruct y as [sy | sy | | [] my ey]; try contradiction.
  - split; [left; destruct sx, sy; exact I |]. destruct sx, sy; reflexivity.
  - cbn [SFadd]. change (V (S754_zero sx)) with 0. rewrite Z.add_0_l. apply Hself. exact Hy.
  - cbn [SFadd]. change (V (S754_zero sy)) with 0. rewrite Z.add_0_r. apply Hself. exact Hx.
  - cbn [fin] in Hx, Hy. apply bounded_spec in Hx, Hy.
    unfold SFadd. cbn [cond_Zopp].
    set (ez := Z.min ex ey).
    rewrite !shl_align_value by (unfold ez; lia).
    assert (Hpx : 0 < 2 ^ (ex - ez)) by (apply Z.pow_pos_nonneg; unfold ez; lia).
    assert (Hpy : 0 < 2 ^ (ey - ez)) by (apply Z.pow_pos_nonneg; unfold ez; lia).
    set (M := Zpos mx * 2 ^ (ex - ez) + Zpos my * 2 ^ (ey - ez)).
    assert (HM : 0 < M) by (unfold M; nia).
    (* the sum has a full mantissa unless it is at the lowest exponent *)
    assert (Hk : ez <= fexp Fmt.dprec Fmt.demax (Zdigits2 M + ez)).
    { rewrite fexp_eq. destruct (Z.eq_dec ez (-1074)) as [E | E]; [lia |].
      assert (2 ^ 52 <= M).
      { unfold M. destruct (Z.min_spec ex ey) as [[_ Hm] | [_ Hm]]; fold ez in Hm; rewrite Hm in *.
        - rewrite Z.sub_diag. cbn [Z.pow]. nia.
        - rewrite Z.sub_diag. cbn [Z.pow]. nia. }
      assert (53 <= Zdigits2 M); [| lia].
      destruct (Z_le_gt_dec 53 (Zdigits2 M)) as [Hle | Hgt]; [exact Hle |].
      pose proof (Zdigits2_bounds M ltac:(lia)).
      assert (2 ^ Zdigits2 M <= 2 ^ 52) by (apply Z.pow_le_mono_r; [lia | lia]). lia. }
    destruct M as [| Mp | Mp] eqn:EM; [lia | | lia].
    cbn [binary_normalize]. unfold binary_round.
    change (Zpos (digits2_pos Mp)) with (Zdigits2 (Zpos Mp)).
    rewrite shl_align_keep by exact Hk.
    destruct (round_exact (Zpos Mp) ez ltac:(lia) ltac:(unfold U, ez; lia) Hk) as [Hg Hr].
    split; [exact Hg |]. rewrite Hr. f_equal. f_equal.
    rewrite <- EM. unfold M, V. rewrite Z.mul_add_distr_r.
    rewrite <- !Z.mul_assoc, <- !Z.pow_add_r by (unfold U, ez in *; lia).
    f_equal; f_equal; f_equal; lia.
Qed.

(** Adding a good step keeps a value good, does not lower it, and keeps
    the order. *)
Lemma SFadd_good (x s : spec_float) :
  good x -> good s ->
  good (SFadd Fmt.dprec Fmt.demax x s) /\ rk x <= rk (SFadd Fmt.dprec Fmt.demax x s).
Proof.
  intros Hx Hs.
  destruct Hs as [Hs | ->].
  - destruct Hx as [Hx | ->].
    + destruct (SFadd_fin x s Hx Hs) as [Hg Hr]. split; [exact Hg |]. rewrite Hr.
      pose proof (rho_mono (V x) (V x + V s) (V_nonneg x) ltac:(pose proof (V_nonneg s); lia)) as Hm.
      rewrite rho_V in Hm by exact Hx. pose proof (rk_fin_bounds x Hx). lia.
    + destruct s as [ss | ss | | [] ms es]; try contradiction;
        (split; [right; reflexivity | cbn [SFadd rk]; lia]).
  - destruct Hx as [Hx | ->].
    + pose proof (rk_fin_bounds x Hx).
      destruct x as [sx | sx | | [] mx ex]; try contradiction;
        (split; [right; reflexivity | change (rk (SFadd Fmt.dprec Fmt.demax _ (S754_infinity false))) with INF; lia]).
    + split; [right; reflexivity | cbn; lia].
Qed.

Lemma SFadd_mono (x y s : spec_float) :
  good x -> good y -> good s -> rk x <= rk y ->
  rk (SFadd Fmt.dprec Fmt.demax x s) <= rk (SFadd Fmt.dprec Fmt.demax y s).
Proof.
  intros Hx Hy Hs Hxy.
  destruct (SFadd_good x s Hx Hs) as [Hgx _]. destruct (SFadd_good y s Hy Hs) as [Hgy _].
  pose proof (rk_good_bounds _ Hgx) as Bx. pose proof (rk_good_bounds _ Hgy) as By.
  destruct Hs as [Hs | ->].
  - destruct Hy as [Hy | ->].
    + assert (Hx' : fin x).
      { destruct Hx as [Hx | ->]; [exact Hx |]. pose proof (rk_fin_bounds y Hy).
        change (rk (S754_infinity false)) with INF in Hxy. lia. }
      destruct (SFadd_fin x s Hx' Hs) as [_ Hrx]. destruct (SFadd_fin y s Hy Hs) as [_ Hry].
      rewrite Hrx, Hry.
      pose proof (V_le x y Hx' Hy Hxy).
      pose proof (rho_mono (V x + V s) (V y + V s)
                           ltac:(pose proof (V_nonneg x); pose proof (V_nonneg s); lia) ltac:(lia)).
      lia.
    + replace (SFadd Fmt.dprec Fmt.demax (S754_infinity false) s) with (S754_infinity false)
        by (destruct s as [ss | ss | | [] ms es]; try contradiction; reflexivity).
      change (rk (S754_infinity false)) with INF. lia.
  - replace (SFadd Fmt.dprec Fmt.demax y (S754_infinity false)) with (S754_infinity false).
    + change (rk (S754_infinity false)) with INF. lia.
    + destruct Hy as [Hy | ->]; [| reflexivity].
      destruct y as [sy | sy | | [] my ey]; try contradiction; reflexivity.
Qed.


(** ** Integers and products *)

Lemma shl_align_fexp (m : positive) (e : Z) :
  let t := fexp Fmt.dprec Fmt.demax (Zpos (digits2_pos m) + e) in
  let '(m', e') := shl_align m e t in
  Zpos m' * 2 ^ (e' + U) = Zpos m * 2 ^ (e + U) /\ e' = Z.min e t /\
  Zdigits2 (Zpos m') + e' = Zpos (digits2_pos m) + e.
Proof.
  cbv zeta. set (t := fexp Fmt.dprec Fmt.demax (Zpos (digits2_pos m) + e)).
  unfold shl_align. destruct (t - e) as [| p | p] eqn:Hd.
  - repeat split; lia.
  - repeat split; lia.
  - assert (He : e = t + Zpos p) by lia.
    split; [| split; [lia |]].
    + rewrite iter_xO. rewrite He.
      assert (Ht : -1074 <= t) by (unfold t; rewrite fexp_eq; lia).
      replace (t + Zpos p + U) with (Zpos p + (t + U)) by lia.
      rewrite (Z.pow_add_r 2 (Zpos p) (t + U)) by (unfold U; lia). lia.
    + change (Zpos (Pos.iter xO m p)) with (Zpos (Pos.iter xO m p)).
      rewrite iter_xO. rewrite Zdigits2_shift by lia. cbn [Zdigits2]. lia.
Qed.

(** [binary_round] of an integer multiple of a power of two. *)
Lemma binary_round_exact (m : positive) (e : Z) :
  - U <= e ->
  good (binary_round Fmt.dprec Fmt.demax false m e) /\
  rk (binary_round Fmt.dprec Fmt.demax false m e) = Z.min (rho (Zpos m * 2 ^ (e + U))) INF.
Proof.
  intros He. unfold binary_round.
  pose proof (shl_align_fexp m e) as Hal. cbv zeta in Hal.
  set (t := fexp Fmt.dprec Fmt.demax (Zpos (digits2_pos m) + e)) in *.
  destruct (shl_align m e t) as [m' e'] eqn:Hsh.
  destruct Hal as (Hval & He' & Hdig).
  assert (Ht : -1074 <= t) by (unfold t; rewrite fexp_eq; lia).
  assert (Hk : e' <= fexp Fmt.dprec Fmt.demax (Zdigits2 (Zpos m') + e')).
  { rewrite Hdig. fold t. lia. }
  destruct (round_exact (Zpos m') e' ltac:(lia) ltac:(unfold U in *; lia) Hk) as [Hg Hr].
  split; [exact Hg |]. rewrite Hr, Hval. reflexivity.
Qed.

(** A finite value is determined by its rank. *)
Lemma V_of_rk (y : spec_float) (m e : Z) :
  fin y -> 0 <= m < 2 ^ 53 -> -1074 <= e <= 971 -> (e = -1074 \/ 2 ^ 52 <= m) ->
  rk y = (e + 1074) * 2 ^ 52 + m -> V y = m * 2 ^ (e + U).
Proof.
  intros Hy Hm He Hc Hrk.
  destruct (Z.eq_dec m 0) as [-> | Hm0].
  - assert (e = -1074) by lia. subst e.
    destruct y as [sy | sy | | [] my ey]; try contradiction; cbn [rk V fin] in *; [lia |].
    apply bounded_spec in Hy. lia.
  - set (x := S754_finite false (Z.to_pos m) e).
    assert (Hx : fin x).
    { cbn [x fin]. apply bounded_spec. rewrite Z2Pos.id by lia. lia. }
    assert (Hrx : rk x = rk y) by (cbn [x rk]; rewrite Z2Pos.id by lia; lia).
    pose proof (V_le x y Hx Hy ltac:(lia)). pose proof (V_le y x Hy Hx ltac:(lia)).
    assert (Hv : V x = m * 2 ^ (e + U)) by (cbn [x V]; rewrite Z2Pos.id by lia; reflexivity).
    lia.
Qed.

(** The conversion of a [long long] between 0 and 2^53 is exact. *)
Definition of_Z (i : Z) : spec_float := binary_normalize Fmt.dprec Fmt.demax i 0 false.

Lemma of_Z_pos_good (i : Z) :
  0 < i -> good (of_Z i) /\ rk (of_Z i) = Z.min (rho (i * 2 ^ U)) INF.
Proof.
  intros Hi. destruct i as [| p | p]; try lia.
  cbn [of_Z binary_normalize]. apply (binary_round_exact p 0). unfold U. lia.
Qed.

Lemma of_Z_exact (i : Z) : 0 <= i <= 2 ^ 53 -> fin (of_Z i) /\ V (of_Z i) = i * 2 ^ U.
Proof.
  intros Hi. destruct (Z.eq_dec i 0) as [-> | Hi0]; [split; [exact I | reflexivity] |].
  destruct (of_Z_pos_good i ltac:(lia)) as [Hg Hr].
  (* the normal form of [i]: a mantissa of 53 bits *)
  set (d := Zdigits2 i).
  assert (Hd : 0 < d <= 54).
  { unfold d. split; [destruct i; cbn; lia |].
    apply Zdigits2_le; [lia | lia |]. change (2 ^ 54) with (2 ^ 53 * 2). lia. }
  pose proof (Zdigits2_lower i ltac:(lia)) as Hlo. pose proof (Zdigits2_bounds i ltac:(lia)) as Hhi.
  fold d in Hlo, Hhi.
  assert (Hrho : rho (i * 2 ^ U) = (d - 53 + 1074) * 2 ^ 52 + i * 2 ^ (53 - d) /\ d <= 53 \/
                 rho (i * 2 ^ U) = (1 + 1074) * 2 ^ 52 + 2 ^ 52 /\ i = 2 ^ 53).
  { destruct (Z.eq_dec i (2 ^ 53)) as [-> | Hne].
    - right. split; [| reflexivity].
      change (2 ^ 53 * 2 ^ U) with (2 ^ 52 * 2 ^ (1 + U)).
      apply rho_repr; lia.
    - left. assert (Hd53 : d <= 53) by (unfold d; apply Zdigits2_le; lia).
      split; [| exact Hd53].
      replace (i * 2 ^ U) with (i * 2 ^ (53 - d) * 2 ^ (d - 53 + U)).
      + apply rho_repr; [| lia |].
        * split; [apply Z.mul_nonneg_nonneg; [lia | apply Z.pow_nonneg; lia] |].
          assert (i * 2 ^ (53 - d) < 2 ^ d * 2 ^ (53 - d)).
          { apply Z.mul_lt_mono_pos_r; [apply Z.pow_pos_nonneg; lia | lia]. }
          rewrite <- Z.pow_add_r in H by lia. replace (d + (53 - d)) with 53 in H by lia. lia.
        * right. assert (2 ^ (d - 1) * 2 ^ (53 - d) <= i * 2 ^ (53 - d)).
          { apply Z.mul_le_mono_nonneg_r; [apply Z.pow_nonneg; lia | lia]. }
          rewrite <- Z.pow_add_r in H by lia. replace (d - 1 + (53 - d)) with 52 in H by lia. lia.
      + rewrite <- Z.mul_assoc, <- Z.pow_add_r by (unfold U; lia). f_equal. f_equal. lia. }
  assert (Hfin : fin (of_Z i)).
  { destruct Hg as [Hf | Hinf]; [exact Hf |]. rewrite Hinf in Hr.
    change (rk (S754_infinity false)) with INF in Hr.
    destruct Hrho as [[Hrho Hd53] | [Hrho _]]; rewrite Hrho in Hr; unfold INF in Hr.
    - assert (i * 2 ^ (53 - d) < 2 ^ 53).
      { assert (i * 2 ^ (53 - d) < 2 ^ d * 2 ^ (53 - d)).
        { apply Z.mul_lt_mono_pos_r; [apply Z.pow_pos_nonneg; lia | lia]. }
        rewrite <- Z.pow_add_r in H by lia. replace (d + (53 - d)) with 53 in H by lia. lia. }
      lia.
    - lia. }
  split; [exact Hfin |].
  pose proof (rk_fin_bounds _ Hfin) as Hb.
  destruct Hrho as [[Hrho Hd53] | [Hrho ->]]; rewrite Hrho in Hr.
  - assert (Hm : 2 ^ 52 <= i * 2 ^ (53 - d) < 2 ^ 53).
    { split.
      - assert (2 ^ (d - 1) * 2 ^ (53 - d) <= i * 2 ^ (53 - d)).
        { apply Z.mul_le_mono_nonneg_r; [apply Z.pow_nonneg; lia | lia]. }
        rewrite <- Z.pow_add_r in H by lia. replace (d - 1 + (53 - d)) with 52 in H by lia. lia.
      - assert (i * 2 ^ (53 - d) < 2 ^ d * 2 ^ (53 - d)).
        { apply Z.mul_lt_mono_pos_r; [apply Z.pow_pos_nonneg; lia | lia]. }
        rewrite <- Z.pow_add_r in H by lia. replace (d + (53 - d)) with 53 in H by lia. lia. }
    rewrite (V_of_rk (of_Z i) (i * 2 ^ (53 - d)) (d - 53) Hfin); [| lia | lia | lia | unfold INF in *; lia].
    rewrite <- Z.mul_assoc, <- Z.pow_add_r by (unfold U; lia). f_equal. f_equal. lia.
  - rewrite (V_of_rk (of_Z (2 ^ 53)) (2 ^ 52) 1 Hfin); [| lia | lia | lia | unfold INF in *; lia].
    reflexivity.
Qed.


Lemma V_of_pack (y : spec_float) (m e : Z) :
  fin y -> 0 <= m <= 2 ^ 53 -> -1074 <= e -> (e = -1074 \/ 2 ^ 52 <= m) ->
  rk y = (e + 1074) * 2 ^ 52 + m -> V y = m * 2 ^ (e + U).
Proof.
  intros Hy Hm He Hc Hrk. pose proof (rk_fin_bounds y Hy) as Hb. unfold INF in Hb.
  destruct (Z.eq_dec m (2 ^ 53)) as [-> | Hne].
  - rewrite (V_of_rk y (2 ^ 52) (e + 1) Hy); [| lia | lia | lia | lia].
    replace (e + 1 + U) with (Z.succ (e + U)) by lia.
    rewrite Z.pow_succ_r by (unfold U; lia). lia.
  - apply V_of_rk; [exact Hy | lia | | exact Hc | exact Hrk].
    destruct Hc as [-> | Hc]; lia.
Qed.

(** Numbers of the format that are at least 1: the divisors and the
    multipliers of [main], which are thread counts and step counts. *)
Definition ge1 (y : spec_float) : Prop := fin y /\ 1023 * 2 ^ 52 <= rk y.

Lemma ge1_shape (y : spec_float) :
  ge1 y -> exists (my : positive) (ey : Z),
    y = S754_finite false my ey /\ -52 <= ey <= 971 /\ 2 ^ 52 <= Zpos my < 2 ^ 53.
Proof.
  intros [Hy Hr]. destruct y as [sy | sy | | [] my ey]; try contradiction; cbn [rk fin] in *; try lia.
  apply bounded_spec in Hy. exists my, ey. split; [reflexivity |]. lia.
Qed.

Lemma of_Z_ge1 (i : Z) : 0 < i < 2 ^ 63 -> ge1 (of_Z i) /\ rk (of_Z i) <= 1086 * 2 ^ 52.
Proof.
  intros Hi. destruct (of_Z_pos_good i ltac:(lia)) as [Hg Hr].
  assert (Hlo : rho (1 * 2 ^ U) <= rho (i * 2 ^ U)).
  { apply rho_mono; [unfold U; lia |]. apply Z.mul_le_mono_nonneg_r; [unfold U; lia | lia]. }
  assert (Hhi : rho (i * 2 ^ U) <= rho (2 ^ 63 * 2 ^ U)).
  { apply rho_mono; [unfold U; apply Z.mul_nonneg_nonneg; lia |].
    apply Z.mul_le_mono_nonneg_r; [unfold U; lia | lia]. }
  assert (H1 : rho (1 * 2 ^ U) = 1023 * 2 ^ 52).
  { change (1 * 2 ^ U) with (2 ^ 52 * 2 ^ (-52 + U)). rewrite rho_repr; lia. }
  assert (H63 : rho (2 ^ 63 * 2 ^ U) = 1086 * 2 ^ 52).
  { change (2 ^ 63 * 2 ^ U) with (2 ^ 52 * 2 ^ (11 + U)). rewrite rho_repr; lia. }
  assert (Hlt : rho (i * 2 ^ U) < INF) by (unfold INF; lia).
  rewrite Z.min_l in Hr by lia.
  assert (Hf : fin (of_Z i)).
  { destruct Hg as [Hf | Hinf]; [exact Hf |]. rewrite Hinf in Hr.
    change (rk (S754_infinity false)) with INF in Hr. lia. }
  split; [split; [exact Hf | lia] | lia].
Qed.

Lemma of_Z_mono (i j : Z) : 0 < i -> i <= j -> rk (of_Z i) <= rk (of_Z j).
Proof.
  intros Hi Hij.
  destruct (of_Z_pos_good i Hi) as [_ ->]. destruct (of_Z_pos_good j ltac:(lia)) as [_ ->].
  apply Z.min_le_compat_r. apply rho_mono; [unfold U; apply Z.mul_nonneg_nonneg; lia |].
  apply Z.mul_le_mono_nonneg_r; [unfold U; lia | lia].
Qed.

(** ** Multiplication by a number that is at least 1 *)

Lemma SFmul_fin (x y : spec_float) :
  fin x -> ge1 y ->
  good (SFmul Fmt.dprec Fmt.demax x y) /\
  rk (SFmul Fmt.dprec Fmt.demax x y) = Z.min (rho (V x * V y / 2 ^ U)) INF.
Proof.
  intros Hx Hy. destruct (ge1_shape y Hy) as (my & ey & -> & Hey & Hmy).
  destruct x as [sx | sx | | [] mx ex]; try contradiction.
  - cbn [SFmul V rk]. split; [left; exact I |].
    rewrite Z.mul_0_l, Z.div_0_l by (unfold U; lia). rewrite rho_0. unfold INF. lia.
  - cbn [fin] in Hx. apply bounded_spec in Hx.
    cbn [SFmul xorb V]. change (Zpos (mx * my)) with (Zpos mx * Zpos my).
    assert (Hval : Zpos mx * 2 ^ (ex + U) * (Zpos my * 2 ^ (ey + U)) / 2 ^ U
                   = Zpos mx * Zpos my * 2 ^ (ex + ey + U)).
    { replace (Zpos mx * 2 ^ (ex + U) * (Zpos my * 2 ^ (ey + U)))
        with (Zpos mx * Zpos my * 2 ^ (ex + ey + U) * 2 ^ U).
      - apply Z.div_mul. unfold U. lia.
      - replace (ey + U) with ((ey + 52) + (U - 52)) by lia.
        replace (ex + ey + U) with ((ex + U) + (ey + 52) - 52) by lia.
        unfold U.
        replace (2 ^ 1127) with (2 ^ (1127 - 52) * 2 ^ 52) by reflexivity.
        rewrite (Z.pow_add_r 2 (ey + 52) (1127 - 52)) by lia.
        replace (ex + 1127 + (ey + 52) - 52) with ((ex + 1127 - 52) + (ey + 52)) by lia.
        rewrite (Z.pow_add_r 2 (ex + 1127 - 52) (ey + 52)) by lia.
        replace (ex + 1127) with ((ex + 1127 - 52) + 52) at 2 by lia.
        rewrite (Z.pow_add_r 2 (ex + 1127 - 52) 52) by lia. ring. }
    rewrite Hval. apply round_exact; [lia | unfold U; lia |].
    rewrite fexp_eq.
    assert (53 <= Zdigits2 (Zpos mx * Zpos my)).
    { change 53 with (Zdigits2 (2 ^ 52)). apply Zdigits2_mono; [lia | nia]. }
    lia.
Qed.

Lemma SFmul_mono (x y y' : spec_float) :
  fin x -> ge1 y -> ge1 y' -> rk y <= rk y' ->
  rk (SFmul Fmt.dprec Fmt.demax x y) <= rk (SFmul Fmt.dprec Fmt.demax x y').
Proof.
  intros Hx Hy Hy' Hle.
  destruct (SFmul_fin x y Hx Hy) as [_ ->]. destruct (SFmul_fin x y' Hx Hy') as [_ ->].
  apply Z.min_le_compat_r.
  pose proof (V_le y y' (proj1 Hy) (proj1 Hy') Hle) as HV.
  pose proof (V_nonneg x). pose proof (V_nonneg y).
  apply rho_mono.
  - apply Z.div_pos; [apply Z.mul_nonneg_nonneg; lia | unfold U; lia].
  - apply Z.div_le_mono; [unfold U; lia |]. apply Z.mul_le_mono_nonneg_l; lia.
Qed.

Lemma SFmul_zero (x : spec_float) :
  fin x -> fin (SFmul Fmt.dprec Fmt.demax x (S754_zero false)) /\ rk (SFmul Fmt.dprec Fmt.demax x (S754_zero false)) = 0.
Proof.
  intros Hx. destruct x as [sx | sx | | [] mx ex]; try contradiction; cbn; split; trivial.
Qed.

(** Between zero and the first multiple the ranks do not go down either. *)
Lemma SFmul_zero_le (x y : spec_float) :
  fin x -> ge1 y -> rk (SFmul Fmt.dprec Fmt.demax x (S754_zero false)) <= rk (SFmul Fmt.dprec Fmt.demax x y).
Proof.
  intros Hx Hy. rewrite (proj2 (SFmul_zero x Hx)).
  destruct (SFmul_fin x y Hx Hy) as [Hg _]. apply rk_good_bounds in Hg. lia.
Qed.

Lemma SFmul_one (x : spec_float) :
  fin x -> rk (SFmul Fmt.dprec Fmt.demax x (of_Z 1)) = rk x.
Proof.
  intros Hx. destruct (of_Z_ge1 1 ltac:(lia)) as [H1 _].
  destruct (SFmul_fin x (of_Z 1) Hx H1) as [_ ->].
  destruct (of_Z_exact 1 ltac:(lia)) as [_ ->].
  rewrite Z.mul_1_l, Z.div_mul by (unfold U; lia).
  rewrite rho_V by exact Hx. pose proof (rk_fin_bounds x Hx). lia.
Qed.


(** ** Division *)

Lemma new_location_spec (d r : Z) : 0 <= r < d -> new_location d r = location_of r d.
Proof.
  intros Hr. unfold new_location, new_location_even, new_location_odd, location_of.
  destruct (Z.even d) eqn:Ev; [reflexivity |].
  destruct (r =? 0); [reflexivity |]. f_equal.
  assert (Hodd : Z.odd d = true) by (rewrite <- Z.negb_even, Ev; reflexivity).
  apply Z.odd_spec in Hodd. destruct Hodd as [h Hh].
  destruct (Z.compare_spec (2 * r + 1) d), (Z.compare_spec (2 * r) d); try reflexivity; lia.
Qed.

Lemma bounded_canonical (m : positive) (e : Z) :
  bounded Fmt.dprec Fmt.demax m e = true -> fexp Fmt.dprec Fmt.demax (Zdigits2 (Zpos m) + e) = e.
Proof.
  unfold bounded, canonical_mantissa. rewrite andb_true_iff, Z.eqb_eq. intros [H _]. exact H.
Qed.

Section Division.

Variables (mx my : positive) (ex ey : Z).
Hypothesis x_bounded : bounded Fmt.dprec Fmt.demax mx ex = true.
Hypothesis y_bounded : bounded Fmt.dprec Fmt.demax my ey = true.

(** The exponent at which [SFdiv_core_binary] cuts the quotient, the
    numerator shifted for it, the exponent of the result and its
    mantissa. *)
Definition qexp : Z :=
  Z.min (fexp Fmt.dprec Fmt.demax (Zdigits2 (Zpos mx) + ex - (Zdigits2 (Zpos my) + ey))) (ex - ey).
Definition qnum : Z := Zpos mx * 2 ^ (ex - ey - qexp).
Definition qfexp : Z := fexp Fmt.dprec Fmt.demax (Zdigits2 (qnum / Zpos my) + qexp).
Definition qman : Z := rne qnum (Zpos my * 2 ^ (qfexp - qexp)).

Lemma qexp_le : qexp <= ex - ey.
Proof. unfold qexp. lia. Qed.

Lemma qnum_pos : 0 < qnum.
Proof. unfold qnum. pose proof qexp_le. apply Z.mul_pos_pos; [lia | apply Z.pow_pos_nonneg; lia]. Qed.

Lemma SFdiv_core_spec :
  SFdiv_core_binary Fmt.dprec Fmt.demax (Zpos mx) ex (Zpos my) ey =
  (qnum / Zpos my, qexp, location_of (qnum mod Zpos my) (Zpos my)).
Proof.
  unfold SFdiv_core_binary. fold qexp. pose proof qexp_le as Hle.
  assert (Hm : match ex - ey - qexp with
               | Z0 => Zpos mx
               | Zpos _ => Z.shiftl (Zpos mx) (ex - ey - qexp)
               | Zneg _ => 0
               end = qnum).
  { unfold qnum. destruct (ex - ey - qexp) as [| p | p] eqn:Hs.
    - cbn. lia.
    - rewrite Z.shiftl_mul_pow2 by lia. reflexivity.
    - lia. }
  rewrite Hm.
  pose proof (Z.mod_pos_bound qnum (Zpos my) ltac:(lia)) as Hr.
  unfold Z.modulo, Z.div in *. destruct (Z.div_eucl qnum (Zpos my)) as [q r].
  cbn [fst snd] in *. rewrite new_location_spec by exact Hr. reflexivity.
Qed.

Lemma quotient_digits : qexp <= qfexp.
Proof.
  unfold qfexp. rewrite fexp_eq.
  destruct (Z_le_gt_dec qexp (-1074)) as [Hlow | Hhigh]; [lia |].
  apply bounded_spec in x_bounded. apply bounded_spec in y_bounded.
  pose proof (Zdigits2_lower (Zpos mx) ltac:(lia)) as Hdx.
  pose proof (Zdigits2_bounds (Zpos my) ltac:(lia)) as Hdy.
  pose proof (Zdigits2_nonneg (Zpos my)) as Hdy0.
  assert (Hdx53 : 0 < Zdigits2 (Zpos mx) <= 53).
  { split; [cbn; lia |]. apply Zdigits2_le; lia. }
  set (dx := Zdigits2 (Zpos mx)) in *. set (dy := Zdigits2 (Zpos my)) in *.
  assert (He : qexp <= dx + ex - (dy + ey) - 53).
  { unfold qexp in *. fold dx dy in Hhigh |- *. rewrite fexp_eq in *. lia. }
  assert (Hs : 53 - dx + dy <= ex - ey - qexp) by lia.
  assert (Hq : 2 ^ 52 <= qnum / Zpos my).
  { apply Z.div_le_lower_bound; [lia |].
    unfold qnum.
    assert (H1 : 2 ^ (dx - 1) * 2 ^ (53 - dx + dy) <= Zpos mx * 2 ^ (ex - ey - qexp)).
    { apply Z.mul_le_mono_nonneg; try lia; try (apply Z.pow_nonneg; lia).
      apply Z.pow_le_mono_r; lia. }
    rewrite <- Z.pow_add_r in H1 by lia.
    replace (dx - 1 + (53 - dx + dy)) with (dy + 52) in H1 by lia.
    rewrite Z.pow_add_r in H1 by lia. nia. }
  assert (53 <= Zdigits2 (qnum / Zpos my)).
  { change 53 with (Zdigits2 (2 ^ 52)). apply Zdigits2_mono; lia. }
  lia.
Qed.

Lemma SFdiv_fin :
  good (SFdiv Fmt.dprec Fmt.demax (S754_finite false mx ex) (S754_finite false my ey)) /\
  rk (SFdiv Fmt.dprec Fmt.demax (S754_finite false mx ex) (S754_finite false my ey)) =
    Z.min ((qfexp + 1074) * 2 ^ 52 + qman) INF /\
  0 <= qman <= 2 ^ 53 /\ -1074 <= qfexp /\ (qfexp = -1074 \/ 2 ^ 52 <= qman).
Proof.
  cbn [SFdiv xorb]. rewrite SFdiv_core_spec.
  pose proof qnum_pos as Hn. pose proof quotient_digits as Hk.
  destruct (round_good (qnum / Zpos my) qexp (location_of (qnum mod Zpos my) (Zpos my))
              qnum (Zpos my) ltac:(lia) ltac:(lia) eq_refl eq_refl Hk) as [Hg Hr].
  destruct (round_mantissa_bounds (qnum / Zpos my) qexp qnum (Zpos my)
              ltac:(lia) ltac:(lia) eq_refl Hk) as [Hb Hc].
  fold qfexp in Hr, Hb, Hc. fold qman in Hr, Hb, Hc.
  repeat split; try assumption; try lia.
  unfold qfexp. rewrite fexp_eq. lia.
Qed.

(** When the divisor is at least 1. *)
Hypothesis y_ge1 : -52 <= ey.

Lemma quotient_digits_le :
  Zdigits2 (qnum / Zpos my) + qexp <= Z.max (Zdigits2 (Zpos mx) + ex - ey - 52) qexp.
Proof.
  apply bounded_spec in x_bounded. apply bounded_spec in y_bounded.
  pose proof qexp_le as Hle. pose proof qnum_pos as Hn.
  pose proof (Zdigits2_bounds (Zpos mx) ltac:(lia)) as Hdx.
  assert (Hdx0 : 0 < Zdigits2 (Zpos mx)) by (cbn; lia).
  set (dx := Zdigits2 (Zpos mx)) in *. set (s := ex - ey - qexp) in *.
  assert (Hnum : qnum < 2 ^ (dx + s)).
  { unfold qnum. fold s. rewrite Z.pow_add_r by lia.
    apply Z.mul_lt_mono_pos_r; [apply Z.pow_pos_nonneg; lia | lia]. }
  assert (Hq : qnum / Zpos my <= qnum / 2 ^ 52).
  { apply Z.div_le_compat_l; lia. }
  assert (Hq0 : 0 <= qnum / Zpos my) by (apply Z.div_pos; lia).
  destruct (Z_le_gt_dec 52 (dx + s)) as [Hbig | Hsmall].
  - assert (Hlt : qnum / 2 ^ 52 < 2 ^ (dx + s - 52)).
    { apply Z.div_lt_upper_bound; [lia |]. rewrite <- Z.pow_add_r by lia.
      replace (52 + (dx + s - 52)) with (dx + s) by lia. exact Hnum. }
    pose proof (Zdigits2_le (qnum / Zpos my) (dx + s - 52) Hq0 ltac:(lia) ltac:(lia)). lia.
  - assert (Hlt : qnum / 2 ^ 52 < 2 ^ 0).
    { apply Z.div_lt_upper_bound; [lia |].
      assert (2 ^ (dx + s) <= 2 ^ 52) by (apply Z.pow_le_mono_r; lia). lia. }
    pose proof (Zdigits2_le (qnum / Zpos my) 0 Hq0 ltac:(lia) ltac:(lia)).
    pose proof (Zdigits2_nonneg (qnum / Zpos my)). lia.
Qed.

Lemma qfexp_le : qfexp <= Z.max (ex - ey - 52) (-1074).
Proof.
  pose proof quotient_digits_le as Hd. pose proof qexp_le as Hle.
  apply bounded_spec in x_bounded.
  assert (Zdigits2 (Zpos mx) <= 53) by (apply Zdigits2_le; lia).
  unfold qfexp. rewrite fexp_eq. lia.
Qed.

(** A quotient by a number that is at least 1 is not above the dividend. *)
Lemma SFdiv_le :
  rk (SFdiv Fmt.dprec Fmt.demax (S754_finite false mx ex) (S754_finite false my ey))
  <= (ex + 1074) * 2 ^ 52 + Zpos mx.
Proof.
  destruct SFdiv_fin as (_ & -> & Hb & Hlo & Hc).
  pose proof qfexp_le as Hfe. pose proof quotient_digits as Hk. pose proof qexp_le as Hle.
  apply bounded_spec in x_bounded. pose proof y_bounded as Hy. apply bounded_spec in Hy.
  destruct (Z.eq_dec qfexp ex) as [Heq | Hne].
  - assert (Hm : qman <= Zpos mx).
    { unfold qman. rewrite <- (rne_exact (Zpos mx) (Zpos my * 2 ^ (qfexp - qexp))).
      - apply rne_mono.
        + apply Z.mul_pos_pos; [lia | apply Z.pow_pos_nonneg; lia].
        + unfold qnum. rewrite Heq. apply Z.mul_le_mono_nonneg_l; [lia |].
          destruct (Z_le_gt_dec 0 ey) as [Hpos | Hneg].
          * assert (2 ^ (ex - ey - qexp) <= 2 ^ (ex - qexp)) by (apply Z.pow_le_mono_r; lia).
            assert (0 < 2 ^ (ex - qexp)) by (apply Z.pow_pos_nonneg; lia). nia.
          * replace (ex - ey - qexp) with (- ey + (ex - qexp)) by lia.
            rewrite Z.pow_add_r by lia.
            apply Z.mul_le_mono_nonneg_r; [apply Z.pow_nonneg; lia |].
            assert (2 ^ (- ey) <= 2 ^ 52) by (apply Z.pow_le_mono_r; lia). lia.
      - apply Z.mul_pos_pos; [lia | apply Z.pow_pos_nonneg; lia]. }
    rewrite Heq. lia.
  - assert (qfexp <= ex - 1) by lia. nia.
Qed.

End Division.

Lemma ge1_bounded (my : positive) (ey : Z) :
  ge1 (S754_finite false my ey) -> bounded Fmt.dprec Fmt.demax my ey = true /\ -52 <= ey.
Proof.
  intros Hy. destruct (ge1_shape _ Hy) as (my' & ey' & Heq & Hey & _).
  injection Heq as -> ->. split; [exact (proj1 Hy) | lia].
Qed.

Lemma SFdiv_ge1 (x y : spec_float) :
  fin x -> ge1 y -> fin (SFdiv Fmt.dprec Fmt.demax x y) /\ rk (SFdiv Fmt.dprec Fmt.demax x y) <= rk x.
Proof.
  intros Hx Hy. destruct (ge1_shape y Hy) as (my & ey & -> & Hey & Hmy).
  destruct (ge1_bounded my ey Hy) as [Hyb Hey'].
  destruct x as [sx | sx | | [] mx ex]; try contradiction.
  - cbn. split; [exact I | lia].
  - cbn [fin] in Hx.
    pose proof (SFdiv_le mx my ex ey Hx Hyb Hey') as Hle.
    destruct (SFdiv_fin mx my ex ey Hx Hyb) as (Hg & _).
    split; [| exact Hle].
    destruct Hg as [Hf | Hinf]; [exact Hf |]. rewrite Hinf in Hle.
    change (rk (S754_infinity false)) with INF in Hle.
    apply bounded_spec in Hx. unfold INF in Hle. lia.
Qed.

(** Division by 1 changes nothing. *)
Lemma SFdiv_one (x : spec_float) : fin x -> rk (SFdiv Fmt.dprec Fmt.demax x (of_Z 1)) = rk x.
Proof.
  intros Hx. change (of_Z 1) with (S754_finite false (2 ^ 52)%positive (-52)).
  destruct x as [sx | sx | | [] mx ex]; try contradiction; [reflexivity |].
  cbn [fin] in Hx.
  assert (Hyb : bounded Fmt.dprec Fmt.demax (2 ^ 52)%positive (-52) = true) by reflexivity.
  destruct (SFdiv_fin mx (2 ^ 52)%positive ex (-52) Hx Hyb) as (_ & -> & _).
  pose proof (bounded_canonical mx ex Hx) as Hcan. rewrite fexp_eq in Hcan.
  pose proof Hx as Hxb. apply bounded_spec in Hxb.
  assert (Hdx : 0 < Zdigits2 (Zpos mx)) by (cbn; lia).
  set (dx := Zdigits2 (Zpos mx)) in *.
  assert (Hqe : qexp mx (2 ^ 52)%positive ex (-52) = Z.max (dx + ex - 54) (-1074)).
  { unfold qexp. fold dx. change (Zdigits2 (Zpos (2 ^ 52)%positive)) with 53.
    rewrite fexp_eq. lia. }
  set (s := ex + 52 - Z.max (dx + ex - 54) (-1074)).
  assert (Hqn : qnum mx (2 ^ 52)%positive ex (-52) = Zpos mx * 2 ^ (s - 52) * 2 ^ 52).
  { unfold qnum. rewrite Hqe. replace (ex - -52 - Z.max (dx + ex - 54) (-1074)) with ((s - 52) + 52) by (unfold s; lia).
    rewrite Z.pow_add_r by (unfold s; lia). ring. }
  assert (Hqf : qfexp mx (2 ^ 52)%positive ex (-52) = ex).
  { unfold qfexp. rewrite Hqn, Hqe. change (Zpos (2 ^ 52)%positive) with (2 ^ 52).
    rewrite Z.div_mul by lia. rewrite Zdigits2_shift by (unfold s; lia). fold dx.
    rewrite fexp_eq. unfold s. lia. }
  assert (Hqm : qman mx (2 ^ 52)%positive ex (-52) = Zpos mx).
  { unfold qman. rewrite Hqf, Hqn, Hqe. change (Zpos (2 ^ 52)%positive) with (2 ^ 52).
    replace (Zpos mx * 2 ^ (s - 52) * 2 ^ 52) with (Zpos mx * (2 ^ 52 * 2 ^ (s - 52))) by ring.
    replace (ex - Z.max (dx + ex - 54) (-1074)) with (s - 52) by (unfold s; lia).
    apply rne_exact. apply Z.mul_pos_pos; [lia | apply Z.pow_pos_nonneg; unfold s; lia]. }
  rewrite Hqf, Hqm. cbn [rk]. unfold INF. lia.
Qed.

(** Dividing by a number between 1 and 2^63 and multiplying by it again
    comes back within two places of a number that is at least 2^-959. *)
Lemma SFdiv_SFmul_near (x y : spec_float) :
  fin x -> ge1 y -> rk y <= 1086 * 2 ^ 52 -> 64 * 2 ^ 52 <= rk x ->
  good (SFmul Fmt.dprec Fmt.demax (SFdiv Fmt.dprec Fmt.demax x y) y) /\
  rk x - 2 <= rk (SFmul Fmt.dprec Fmt.demax (SFdiv Fmt.dprec Fmt.demax x y) y) <= rk x + 1.
Proof.
  intros Hx Hy Hyhi Hxlo.
  destruct (SFdiv_ge1 x y Hx Hy) as [Hpf Hple].
  destruct (SFmul_fin _ y Hpf Hy) as [Hg Hr]. split; [exact Hg |].
  rewrite Hr. clear Hr Hg.
  destruct (ge1_shape y Hy) as (my & ey & -> & Hey & Hmy).
  destruct (ge1_bounded my ey Hy) as [Hyb _].
  destruct x as [sx | sx | | [] mx ex]; try contradiction; cbn [rk] in Hxlo; try lia.
  cbn [fin] in Hx. pose proof Hx as Hxb. apply bounded_spec in Hxb.
  cbn [rk] in Hyhi.
  assert (Hex : -1011 <= ex) by lia.
  assert (Hey11 : ey <= 11) by lia.
  destruct (SFdiv_fin mx my ex ey Hx Hyb) as (_ & Hrp & Hb & Hlo & Hc).
  pose proof (qfexp_le mx my ex ey Hx Hyb (proj1 Hey)) as Hfe.
  pose proof (quotient_digits mx my ex ey Hx Hyb) as Hk.
  pose proof (qexp_le mx my ex ey) as Hqe.
  set (part := SFdiv Fmt.dprec Fmt.demax (S754_finite false mx ex) (S754_finite false my ey)) in *.
  pose proof (rk_fin_bounds part Hpf) as Hpb.
  rewrite Z.min_l in Hrp by lia.
  rewrite (V_of_pack part _ _ Hpf Hb Hlo Hc Hrp).
  cbn [V rk].
  set (M := qman mx my ex ey) in *. set (ef := qfexp mx my ex ey) in *.
  set (e' := qexp mx my ex ey) in *.
  assert (Hc0 : 0 <= e' + ey + U).
  { unfold e', qexp. rewrite fexp_eq. unfold U. lia. }
  set (A := 2 ^ (ef - e')). set (C := 2 ^ (e' + ey + U)). set (G := 2 ^ (ex - ey - e')).
  assert (HA : 0 < A) by (apply Z.pow_pos_nonneg; lia).
  assert (HC : 0 < C) by (apply Z.pow_pos_nonneg; lia).
  assert (HG : 0 < G) by (apply Z.pow_pos_nonneg; lia).
  assert (HAC : 2 ^ (ef + ey + U) = A * C).
  { unfold A, C. rewrite <- Z.pow_add_r by lia. f_equal. lia. }
  assert (HGC : 2 ^ (ex + U) = G * C).
  { unfold G, C. rewrite <- Z.pow_add_r by lia. f_equal. lia. }
  assert (HP : M * 2 ^ (ef + U) * (Zpos my * 2 ^ (ey + U)) / 2 ^ U = M * Zpos my * A * C).
  { replace (M * 2 ^ (ef + U) * (Zpos my * 2 ^ (ey + U)))
      with (M * Zpos my * (A * C) * 2 ^ U).
    - rewrite Z.div_mul by (unfold U; lia). ring.
    - rewrite <- HAC.
      transitivity (M * Zpos my * (2 ^ (ef + U) * 2 ^ (ey + U))); [| ring].
      rewrite <- Z.mul_assoc. f_equal.
      rewrite <- !Z.pow_add_r by (unfold U; lia). f_equal. lia. }
  rewrite HP.
  (* the quotient is rounded to the nearest *)
  assert (Hhalf := rne_half (qnum mx my ex ey) (Zpos my * A) ltac:(lia)).
  change (rne (qnum mx my ex ey) (Zpos my * A)) with M in Hhalf.
  change (qnum mx my ex ey) with (Zpos mx * G) in Hhalf.
  apply Z.abs_le in Hhalf.
  assert (HACle : A * C <= 2 ^ (ex + U - 52)).
  { rewrite <- HAC. apply Z.pow_le_mono_r; lia. }
  assert (Hpow : 2 ^ 53 * 2 ^ (ex + U - 52) = 2 * 2 ^ (ex + U)).
  { replace (ex + U) with (Z.succ (ex + U - 52) + 51) at 2 by lia.
    replace (ex + U - 52) with ((ex + U - 53) + 1) at 1 by lia.
    replace (Z.succ (ex + U - 52) + 51) with ((ex + U - 53) + 53) by lia.
    rewrite !Z.pow_add_r by (unfold U; lia).
    change (2 ^ 53) with (2 ^ 52 * 2 ^ 1). ring. }
  set (P := M * Zpos my * A * C) in *.
  set (Vx := Zpos mx * 2 ^ (ex + U)).
  assert (Hclose : Vx - 2 ^ (ex + U) < P < Vx + 2 ^ (ex + U)).
  { assert (H1 : (2 * (M * (Zpos my * A)) - 2 * (Zpos mx * G)) * C <= Zpos my * A * C).
    { apply Z.mul_le_mono_nonneg_r; lia. }
    assert (H2 : - (Zpos my * A) * C <= (2 * (M * (Zpos my * A)) - 2 * (Zpos mx * G)) * C).
    { apply Z.mul_le_mono_nonneg_r; lia. }
    assert (H3 : Zpos my * (A * C) < 2 ^ 53 * 2 ^ (ex + U - 52)).
    { assert (0 < A * C) by lia.
      assert (Zpos my * (A * C) < 2 ^ 53 * (A * C)) by (apply Z.mul_lt_mono_pos_r; lia).
      assert (2 ^ 53 * (A * C) <= 2 ^ 53 * 2 ^ (ex + U - 52)) by (apply Z.mul_le_mono_nonneg_l; lia).
      lia. }
    assert (E1 : (2 * (M * (Zpos my * A)) - 2 * (Zpos mx * G)) * C = 2 * P - 2 * Vx).
    { unfold P, Vx. rewrite HGC. ring. }
    assert (E2 : Zpos my * A * C = Zpos my * (A * C)) by ring.
    assert (E3 : - (Zpos my * A) * C = - (Zpos my * (A * C))) by ring.
    rewrite E1, E2 in H1. rewrite E1, E3 in H2. clearbody P Vx. lia. }
  assert (Hpos : 0 < 2 ^ (ex + U)) by (apply Z.pow_pos_nonneg; unfold U; lia).
  assert (Hup : rho P <= (ex + 1074) * 2 ^ 52 + Zpos mx + 1).
  { replace ((ex + 1074) * 2 ^ 52 + Zpos mx + 1) with ((ex + 1074) * 2 ^ 52 + (Zpos mx + 1)) by lia.
    rewrite <- (rho_repr (Zpos mx + 1) ex) by lia.
    apply rho_mono; [unfold P; repeat apply Z.mul_nonneg_nonneg; lia |]. unfold Vx in Hclose. lia. }
  assert (Hdown : (ex + 1074) * 2 ^ 52 + Zpos mx - 2 <= rho P).
  { destruct (Z_le_gt_dec (2 ^ 52 + 1) (Zpos mx)) as [Hbig | Hsmall].
    - assert ((ex + 1074) * 2 ^ 52 + (Zpos mx - 1) <= rho P); [| lia].
      rewrite <- (rho_repr (Zpos mx - 1) ex) by lia.
      apply rho_mono; [apply Z.mul_nonneg_nonneg; lia |]. unfold Vx in Hclose. lia.
    - assert (Hmx : Zpos mx = 2 ^ 52) by lia.
      assert ((ex - 1 + 1074) * 2 ^ 52 + (2 ^ 53 - 2) <= rho P); [| lia].
      rewrite <- (rho_repr (2 ^ 53 - 2) (ex - 1)) by lia.
      apply rho_mono; [apply Z.mul_nonneg_nonneg; [lia | apply Z.pow_nonneg; lia] |].
      replace (ex + U) with (Z.succ (ex - 1 + U)) in Hclose by lia.
      unfold Vx in Hclose. rewrite Hmx in Hclose.
      replace (ex + U) with (Z.succ (ex - 1 + U)) in Hclose by lia.
      rewrite Z.pow_succ_r in Hclose by (unfold U; lia). lia. }
  unfold INF. split; [| lia].
  apply Z.min_glb; [lia |]. lia.
Qed.

(** ** The width of the interval *)

Lemma pack_negative (z : spec_float) (m e : Z) :
  (exists (mz : positive) (ez : Z), z = S754_finite false mz ez) ->
  SFltb z (pack true m e) = false.
Proof.
  intros (mz & ez & ->). unfold pack. destruct m as [| p | p]; [reflexivity | | reflexivity].
  destruct (Zpos p =? 2 ^ 53); [destruct (e + 1 <=? 971) | destruct (e <=? 971)]; reflexivity.
Qed.

Lemma binary_round_negative (z : spec_float) (m : positive) (e : Z) :
  (exists (mz : positive) (ez : Z), z = S754_finite false mz ez) ->
  SFltb z (binary_round Fmt.dprec Fmt.demax true m e) = false.
Proof.
  intros Hz. unfold binary_round.
  pose proof (shl_align_fexp m e) as Hal. cbv zeta in Hal.
  set (t := fexp Fmt.dprec Fmt.demax (Zpos (digits2_pos m) + e)) in *.
  destruct (shl_align m e t) as [m' e'] eqn:Hsh.
  destruct Hal as (Hval & He' & Hdig).
  assert (Hk : e' <= fexp Fmt.dprec Fmt.demax (Zdigits2 (Zpos m') + e')).
  { rewrite Hdig. fold t. lia. }
  rewrite (binary_round_aux_spec true (Zpos m') e' loc_Exact (Zpos m') 1);
    [| lia | lia | rewrite Z.div_1_r; reflexivity | rewrite Z.mod_1_r; reflexivity | exact Hk].
  apply pack_negative. exact Hz.
Qed.

(** A difference of two numbers of the format that is above a positive
    number is a positive number of the format, or plus infinity. *)
Lemma SFsub_wide (z x y : spec_float) :
  (exists (mz : positive) (ez : Z), z = S754_finite false mz ez) ->
  valid_binary Fmt.dprec Fmt.demax x = true -> valid_binary Fmt.dprec Fmt.demax y = true ->
  SFltb z (SFsub Fmt.dprec Fmt.demax x y) = true -> good (SFsub Fmt.dprec Fmt.demax x y).
Proof.
  intros Hz Hx Hy Hlt. pose proof Hz as (mz & ez & ->).
  destruct x as [sx | sx | | sx mx ex], y as [sy | sy | | sy my ey];
    lazymatch goal with
    | |- good (SFsub _ _ (S754_finite _ _ _) (S754_finite _ _ _)) => idtac
    | _ =>
        try destruct sx; try destruct sy; cbn in Hlt; try discriminate;
        cbn [SFsub negb]; first [right; reflexivity | left; exact Hx | left; exact Hy]
    end.
  cbn [valid_binary] in Hx, Hy. apply bounded_spec in Hx. apply bounded_spec in Hy.
  cbn [SFsub] in *.
  set (m := cond_Zopp sx (Zpos (fst (shl_align mx ex (Z.min ex ey))))
            - cond_Zopp sy (Zpos (fst (shl_align my ey (Z.min ex ey))))) in *.
  destruct m as [| p | p]; cbn [binary_normalize] in *.
  - cbn in Hlt. discriminate.
  - apply binary_round_exact. unfold U. lia.
  - rewrite binary_round_negative in Hlt; [discriminate | exists mz, ez; reflexivity].
Qed.

End B64.

(** ** Counting the calls *)

Section Counting.

Context {F : Type} `{Arith F}.

(** An order on the values that occur: [rk] ranks the [good] values so
    that [<] is the order of the ranks, and adding the step [s] keeps a
    value good, does not lower it, and keeps the order. *)
Variable rk : F -> Z.
Variable good : F -> Prop.
Variable s : F.

Hypothesis flt_rk : forall x y : F, good x -> good y -> flt x y = (rk x <? rk y).
Hypothesis next_good : forall x : F, good x -> good (fadd x s).
Hypothesis next_incr : forall x : F, good x -> rk x <= rk (fadd x s).
Hypothesis next_mono : forall x y : F,
    good x -> good y -> rk x <= rk y -> rk (fadd x s) <= rk (fadd y s).

Lemma sample_good (a : F) (k : nat) : good a -> good (sample a s k).
Proof. intros Ha. induction k as [| k IH]; [exact Ha |]. cbn [sample]. apply next_good, IH. Qed.

Lemma sample_le (a b : F) (k : nat) :
  good a -> good b -> rk a <= rk b -> rk (sample a s k) <= rk (sample b s k).
Proof.
  intros Ha Hb Hab. induction k as [| k IH]; [exact Hab |].
  cbn [sample]. apply next_mono; [apply sample_good; exact Ha | apply sample_good; exact Hb | exact IH].
Qed.

Lemma sample_add (a : F) (j k : nat) : sample (sample a s j) s k = sample a s (j + k).
Proof.
  induction k as [| k IH].
  - rewrite Nat.add_0_r. reflexivity.
  - cbn [sample]. rewrite IH. replace (j + S k)%nat with (S (j + k)) by lia. reflexivity.
Qed.

Lemma sample_up (a : F) (j k : nat) :
  good a -> (j <= k)%nat -> rk (sample a s j) <= rk (sample a s k).
Proof.
  intros Ha Hjk. induction Hjk as [| k Hjk IH]; [lia |].
  cbn [sample]. pose proof (next_incr (sample a s k) (sample_good a k Ha)). lia.
Qed.

(** Once the sequence stays at a rank, it stays there. *)
Lemma sample_stalls (a : F) (j : nat) :
  good a -> rk (sample a s (S j)) = rk (sample a s j) ->
  forall k : nat, (j <= k)%nat -> rk (sample a s k) = rk (sample a s j).
Proof.
  intros Ha Hstall k Hjk. induction Hjk as [| k Hjk IH]; [reflexivity |].
  assert (Hle : rk (sample a s (S k)) <= rk (sample a s (S j))).
  { cbn [sample]. apply next_mono; try apply sample_good; try exact Ha. lia. }
  pose proof (sample_up a j (S k) Ha ltac:(lia)). lia.
Qed.

(** [reaches a e n]: the sequence from [a] is below [e] before index
    [n] and not at index [n]. For good values this is [leaves_after]. *)
Definition reaches (a e : F) (n : nat) : Prop :=
  (forall k : nat, (k < n)%nat -> rk (sample a s k) < rk e) /\ rk e <= rk (sample a s n).

Lemma leaves_reaches (a e : F) (n : nat) :
  good a -> good e -> leaves_after a e s n <-> reaches a e n.
Proof.
  intros Ha He. unfold leaves_after, reaches. split; intros [Hin Hout]; split.
  - intros k Hk. specialize (Hin k Hk).
    rewrite flt_rk in Hin by (try apply sample_good; assumption).
    apply Z.ltb_lt in Hin. exact Hin.
  - rewrite flt_rk in Hout by (try apply sample_good; assumption).
    apply Z.ltb_ge in Hout. exact Hout.
  - intros k Hk. rewrite flt_rk by (try apply sample_good; assumption).
    apply Z.ltb_lt. apply Hin. exact Hk.
  - rewrite flt_rk by (try apply sample_good; assumption).
    apply Z.ltb_ge. exact Hout.
Qed.

Lemma reaches_unique (a e : F) (n n' : nat) : reaches a e n -> reaches a e n' -> n = n'.
Proof.
  intros [Hin Hout] [Hin' Hout'].
  destruct (Nat.lt_trichotomy n n') as [Hlt | [Heq | Hgt]]; [| exact Heq |].
  - specialize (Hin' n Hlt). lia.
  - specialize (Hin n' Hgt). lia.
Qed.

(** Before it reaches [e], the sequence climbs at every step. *)
Lemma reaches_climbs (a e : F) (n k : nat) :
  good a -> reaches a e n -> (k < n)%nat -> rk (sample a s k) < rk (sample a s (S k)).
Proof.
  intros Ha [Hin Hout] Hk.
  pose proof (sample_up a k (S k) Ha ltac:(lia)) as Hle.
  destruct (Z.eq_dec (rk (sample a s (S k))) (rk (sample a s k))) as [Heq | Hne]; [| lia].
  pose proof (sample_stalls a k Ha Heq n ltac:(lia)) as Hn.
  specialize (Hin k Hk). lia.
Qed.

Lemma reaches_climbs_by (a e : F) (n j k : nat) :
  good a -> reaches a e n -> (j <= k)%nat -> (k <= n)%nat ->
  rk (sample a s j) + Z.of_nat (k - j) <= rk (sample a s k).
Proof.
  intros Ha Hreach Hjk Hkn. induction Hjk as [| k Hjk IH].
  - rewrite Nat.sub_diag. lia.
  - pose proof (reaches_climbs a e n k Ha Hreach ltac:(lia)).
    specialize (IH ltac:(lia)). replace (S k - j)%nat with (S (k - j)) by lia. lia.
Qed.

(** Two targets and the indices at which the same sequence reaches
    them. *)
Lemma reaches_between (a e e' : F) (n n' : nat) :
  good a -> reaches a e n -> reaches a e' n' -> rk e <= rk e' ->
  (n <= n')%nat /\ Z.of_nat (n' - n) <= rk e' - rk e.
Proof.
  intros Ha Hn Hn' Hee.
  assert (Hle : (n <= n')%nat).
  { destruct (Nat.le_gt_cases n n') as [Hle | Hgt]; [exact Hle |].
    destruct Hn as [Hin _]. destruct Hn' as [_ Hout']. specialize (Hin n' Hgt). lia. }
  split; [exact Hle |].
  destruct (Nat.eq_dec n n') as [-> | Hne]; [rewrite Nat.sub_diag; lia |].
  pose proof (reaches_climbs_by a e' n' n (n' - 1) Ha Hn' ltac:(lia) ltac:(lia)) as Hclimb.
  destruct Hn as [_ Hout]. destruct Hn' as [Hin' _].
  specialize (Hin' (n' - 1)%nat ltac:(lia)).
  replace (n' - 1 - n)%nat with (n' - n - 1)%nat in Hclimb by lia. lia.
Qed.

(** The master sequence starts at [a0]; [anchored j b] says that it
    reaches [b] at index [j], not above [b + s]. *)
Variable a0 : F.
Hypothesis a0_good : good a0.

Definition anchored (j : nat) (b : F) : Prop :=
  reaches a0 b j /\ rk (sample a0 s j) <= rk (fadd b s).

(** A part from [b] to [e] whose worker makes [n] calls moves the anchor
    by [n] or by [n - 1]. *)
Lemma anchored_next (j n : nat) (b e : F) :
  good b -> good e -> rk b <= rk e ->
  anchored j b -> reaches b e n ->
  exists j' : nat, anchored j' e /\ (j' <= j + n)%nat /\ (j + n <= j' + 1)%nat.
Proof.
  intros Hb He Hbe [[Hbelow Hat] Hnext] [Hin Hout].
  (* the two sequences are interleaved *)
  assert (Hlo : forall k, rk (sample b s k) <= rk (sample a0 s (j + k))).
  { intros k. rewrite <- sample_add. apply sample_le; [exact Hb | apply sample_good; exact a0_good | exact Hat]. }
  assert (Hhi : forall k, rk (sample a0 s (j + k)) <= rk (sample b s (S k))).
  { intros k. rewrite <- sample_add, <- sample_shift.
    apply sample_le; [apply sample_good; exact a0_good | apply next_good; exact Hb | exact Hnext]. }
  assert (Hup : forall k k', (k <= k')%nat -> rk (sample a0 s k) <= rk (sample a0 s k'))
    by (intros; apply sample_up; assumption).
  destruct n as [| n].
  - (* no call: [e] is at the rank of [b] *)
    cbn [sample] in Hout. assert (Heq : rk e = rk b) by lia.
    exists j. split; [| lia]. split; [split |].
    + intros k Hk. specialize (Hbelow k Hk). lia.
    + lia.
    + pose proof (next_mono b e Hb He ltac:(lia)). lia.
  - destruct (Z_lt_le_dec (rk (sample a0 s (j + n))) (rk e)) as [Hlt | Hge].
    + exists (j + S n)%nat. split; [| lia]. split; [split |].
      * intros k Hk. pose proof (Hup k (j + n)%nat ltac:(lia)). lia.
      * pose proof (Hlo (S n)). lia.
      * replace (j + S n)%nat with (S (j + n)) by lia. cbn [sample].
        apply next_mono; [apply sample_good; exact a0_good | exact He | lia].
    + exists (j + n)%nat. split; [| lia]. split; [split |].
      * intros k Hk. destruct (Nat.lt_ge_cases k j) as [Hkj | Hkj].
        -- specialize (Hbelow k Hkj). lia.
        -- destruct n as [| n]; [lia |].
           pose proof (Hup k (j + n)%nat ltac:(lia)).
           pose proof (Hhi n). specialize (Hin (S n) ltac:(lia)). lia.
      * exact Hge.
      * destruct n as [| n].
        -- rewrite Nat.add_0_r. pose proof (next_mono b e Hb He Hbe). lia.
        -- replace (j + S n)%nat with (S (j + n)) by lia. cbn [sample].
           apply next_mono; [apply sample_good; exact a0_good | exact He |].
           pose proof (Hhi n). specialize (Hin (S n) ltac:(lia)). lia.
Qed.


Lemma sample_rk_eq (a b : F) (k : nat) :
  good a -> good b -> rk a = rk b -> rk (sample a s k) = rk (sample b s k).
Proof.
  intros Ha Hb Hab.
  pose proof (sample_le a b k Ha Hb ltac:(lia)).
  pose proof (sample_le b a k Hb Ha ltac:(lia)). lia.
Qed.

(** The calls of the first [T] parts. *)
Fixpoint total_calls (n : nat -> nat) (T : nat) : nat :=
  match T with
  | O => O
  | S T' => (total_calls n T' + n T')%nat
  end.

(** The parts run from [b i] to [b (i + 1)], and the worker of part [i]
    makes [n i] calls. *)
Variable b : nat -> F.
Variable n : nat -> nat.
Variable T : nat.

Hypothesis b_good : forall i : nat, (i <= T)%nat -> good (b i).
Hypothesis b_up : forall i : nat, (i < T)%nat -> rk (b i) <= rk (b (S i)).
Hypothesis b_calls : forall i : nat, (i < T)%nat -> reaches (b i) (b (S i)) (n i).
Hypothesis b_first : rk (b O) = rk a0.

Lemma anchored_parts (i : nat) :
  (1 <= i)%nat -> (i <= T)%nat ->
  exists j : nat, anchored j (b i) /\ (j <= total_calls n i)%nat /\ (total_calls n i + 1 <= j + i)%nat.
Proof.
  intros H1 Hi. induction i as [| i IH]; [lia |].
  destruct (Nat.eq_dec i 0%nat) as [-> | Hpos].
  - (* the first part starts where the master sequence starts *)
    clear IH. cbn [total_calls]. exists (n O). split; [| lia].
    destruct (b_calls O ltac:(lia)) as [Hin Hout].
    assert (Heq : forall k, rk (sample a0 s k) = rk (sample (b O) s k)).
    { intros k. apply sample_rk_eq; [exact a0_good | apply b_good; lia | lia]. }
    split; [split |].
    + intros k Hk. rewrite Heq. apply Hin. exact Hk.
    + rewrite Heq. exact Hout.
    + destruct (n O) as [| m] eqn:Hn.
      * cbn [sample]. pose proof (b_up O ltac:(lia)).
        pose proof (next_incr (b 1%nat) (b_good 1%nat ltac:(lia))). lia.
      * cbn [sample]. apply next_mono; [apply sample_good; exact a0_good | apply b_good; lia |].
        rewrite Heq. specialize (Hin m ltac:(lia)). lia.
  - destruct (IH ltac:(lia) ltac:(lia)) as (j & Hanch & Hle & Hge).
    destruct (anchored_next j (n i) (b i) (b (S i)) (b_good i ltac:(lia)) (b_good (S i) Hi)
                            (b_up i ltac:(lia)) Hanch (b_calls i ltac:(lia)))
      as (j' & Hanch' & Hle' & Hge').
    exists j'. split; [exact Hanch' |]. cbn [total_calls]. lia.
Qed.

(** The master sequence is the run with one thread, from [a0] to [e1],
    with [n1] calls; the end of the last part is at most one rank above
    [e1] and at most [T] ranks below. *)
Variable e1 : F.
Variable n1 : nat.

Hypothesis e1_good : good e1.
Hypothesis e1_calls : reaches a0 e1 n1.
Hypothesis ends_close : rk e1 - Z.of_nat T <= rk (b T) <= rk e1 + 1.
Hypothesis T_pos : (1 <= T)%nat.

Theorem total_within_T : (total_calls n T <= n1 + T)%nat /\ (n1 <= total_calls n T + T)%nat.
Proof.
  destruct (anchored_parts T T_pos (Nat.le_refl T)) as (j & [Hreach _] & Hle & Hge).
  destruct (Z_le_gt_dec (rk (b T)) (rk e1)) as [Hbe | Hbe].
  - destruct (reaches_between a0 (b T) e1 j n1 a0_good Hreach e1_calls Hbe) as [Hjn Hgap].
    lia.
  - destruct (reaches_between a0 e1 (b T) n1 j a0_good e1_calls Hreach ltac:(lia)) as [Hjn Hgap].
    lia.
Qed.

End Counting.

(** ** The calls of a run *)

Section Calls.

Context {F : Type} `{Arith F}.

(** The number of calls of the worker of part [i], when it returns. *)
Definition calls_of (fuel : nat) (thargs : list (thread_args F)) (i : nat) : nat :=
  match thargs !! i with
  | Some ta => match worker_effect fuel ta with Some (_, c) => c | None => 0%nat end
  | None => 0%nat
  end.

Lemma run_workers_calls (fuel : nat) (thargs : list (thread_args F)) (sched : list nat) :
  forall (results results' : list F) (n : nat),
    run_workers fuel thargs sched results = Some (results', n) ->
    n = list_sum (map (calls_of fuel thargs) sched) /\
    forall (i : nat) (ta : thread_args F),
      In i sched -> thargs !! i = Some ta ->
      leaves_after (th_start ta) (th_end ta) (th_step ta) (calls_of fuel thargs i).
Proof.
  induction sched as [| i rest IH]; intros results results' n Hrun.
  - cbn in Hrun. injection Hrun as _ <-. split; [reflexivity | intros i ta []].
  - rewrite run_workers_cons in Hrun. cbn [map list_sum].
    destruct (thargs !! i) as [ta |] eqn:Hi.
    + destruct (worker_effect fuel ta) as [[r c] |] eqn:He; [| discriminate].
      destruct (run_workers fuel thargs rest (<[th_resptr ta := r]> results))
        as [[r' n'] |] eqn:Hrest; [| discriminate].
      injection Hrun as _ <-. destruct (IH _ _ _ Hrest) as [-> Hall].
      assert (Hc : calls_of fuel thargs i = c) by (unfold calls_of; rewrite Hi, He; reflexivity).
      split; [rewrite Hc; reflexivity |].
      intros j tb [<- | Hin] Hj; [| exact (Hall j tb Hin Hj)].
      rewrite Hc. rewrite Hi in Hj. injection Hj as <-.
      unfold worker_effect in He.
      destruct (worker_loop fuel (th_funcptr ta) (th_start ta) (th_end ta) (th_step ta) fzero)
        as [[xs r0] |] eqn:Hl; [| discriminate].
      injection He as _ <-. apply worker_loop_leaves in Hl. apply Hl.
    + destruct (IH _ _ _ Hrun) as [-> Hall].
      assert (Hc : calls_of fuel thargs i = 0%nat) by (unfold calls_of; rewrite Hi; reflexivity).
      split; [rewrite Hc; reflexivity |]. intros j tb [<- | Hin] Hj; [congruence | exact (Hall j tb Hin Hj)].
Qed.

Lemma list_sum_permutation (l l' : list nat) : Permutation l l' -> list_sum l = list_sum l'.
Proof. induction 1; unfold list_sum in *; simpl; lia. Qed.

Lemma list_sum_total (f : nat -> nat) (T : nat) : list_sum (map f (seq 0 T)) = total_calls f T.
Proof.
  induction T as [| T IH]; [reflexivity |].
  rewrite seq_S, map_app, list_sum_app, IH. unfold list_sum. simpl. lia.
Qed.

Lemma total_zero (f : nat -> nat) (T : nat) :
  (forall i : nat, (i < T)%nat -> f i = 0%nat) -> total_calls f T = 0%nat.
Proof.
  induction T as [| T IH]; intros Hz; [reflexivity |].
  cbn [total_calls]. rewrite IH by (intros i Hi; apply Hz; lia). rewrite Hz by lia. reflexivity.
Qed.

(** When every worker has finished, in whatever order, the calls of the
    run are the calls of the parts, and each worker has left its part. *)
Lemma run_workers_total (fuel : nat) (thargs : list (thread_args F)) (sched : list nat)
      (results results' : list F) (n : nat) :
  Permutation sched (seq 0 (length thargs)) ->
  run_workers fuel thargs sched results = Some (results', n) ->
  n = total_calls (calls_of fuel thargs) (length thargs) /\
  forall (i : nat) (ta : thread_args F),
    thargs !! i = Some ta ->
    leaves_after (th_start ta) (th_end ta) (th_step ta) (calls_of fuel thargs i).
Proof.
  intros Hperm Hrun. destruct (run_workers_calls fuel thargs sched _ _ _ Hrun) as [-> Hall].
  split.
  - rewrite <- list_sum_total. apply list_sum_permutation, Permutation_map, Hperm.
  - intros i ta Hi. apply Hall; [| exact Hi].
    apply (Permutation_in _ (Permutation_sym Hperm)), in_seq.
    apply lookup_lt_Some in Hi. lia.
Qed.

(** A worker whose part is empty from the start makes no call. *)
Lemma leaves_at_once (start end_ step : F) (n : nat) :
  flt start end_ = false -> leaves_after start end_ step n -> n = 0%nat.
Proof.
  intros Hout [Hin _]. destruct n as [| n]; [reflexivity |].
  specialize (Hin 0%nat ltac:(lia)). cbn [sample] in Hin. congruence.
Qed.

End Calls.

(** ** The parts of an interval, in binary64 *)

(** 2^-959, that is [DBL_MIN] times 2^63: the quotient of a wider
    interval by a [long long] is a normal number. *)
Definition narrowest : farg_t := S754_finite false 4503599627370496 (-1011).

(** The boundary between part [i - 1] and part [i], for [T] threads. *)
Definition bound (W : farg_t) (T : long_long) (i : nat) : farg_t :=
  fmul (fdiv W (of_ll T)) (of_ll (Z.of_nat i)).

Lemma LLONG_MAX_eq : LLONG_MAX = 2 ^ 63 - 1.
Proof. reflexivity. Qed.

Section Bounds.

Variables (W : farg_t) (T : long_long).
Hypothesis W_fin : B64.fin W.
Hypothesis T_range : 1 <= T <= LLONG_MAX.

Lemma part_fin : B64.fin (fdiv W (of_ll T)).
Proof.
  pose proof T_range as HT. rewrite LLONG_MAX_eq in HT.
  apply (B64.SFdiv_ge1 W (B64.of_Z T) W_fin). apply B64.of_Z_ge1. lia.
Qed.

Lemma bound_zero : B64.fin (bound W T 0) /\ B64.rk (bound W T 0) = 0.
Proof. apply (B64.SFmul_zero _ part_fin). Qed.

Lemma bound_good (i : nat) : Z.of_nat i <= T -> B64.good (bound W T i).
Proof.
  intros Hi. pose proof T_range as HT. rewrite LLONG_MAX_eq in HT. destruct i as [| i].
  - left. apply bound_zero.
  - apply (B64.SFmul_fin _ (B64.of_Z (Z.of_nat (S i))) part_fin).
    apply B64.of_Z_ge1. lia.
Qed.

Lemma bound_up (i : nat) : Z.of_nat i < T -> B64.rk (bound W T i) <= B64.rk (bound W T (S i)).
Proof.
  intros Hi. pose proof T_range as HT. rewrite LLONG_MAX_eq in HT.
  assert (Hnext : B64.ge1 (B64.of_Z (Z.of_nat (S i)))) by (apply B64.of_Z_ge1; lia).
  destruct i as [| i].
  - apply (B64.SFmul_zero_le _ _ part_fin Hnext).
  - apply (B64.SFmul_mono _ (B64.of_Z (Z.of_nat (S i))) _ part_fin); [| exact Hnext |].
    + apply B64.of_Z_ge1. lia.
    + apply B64.of_Z_mono; lia.
Qed.

(** The last boundary is within two places of the width. *)
Lemma bound_last :
  64 * 2 ^ 52 <= B64.rk W ->
  B64.rk W - 2 <= B64.rk (bound W T (Z.to_nat T)) <= B64.rk W + 1.
Proof.
  intros Hwide. pose proof T_range as HT. rewrite LLONG_MAX_eq in HT. unfold bound. rewrite Z2Nat.id by lia.
  destruct (B64.of_Z_ge1 T ltac:(lia)) as [Hge Hle].
  apply (B64.SFdiv_SFmul_near W (B64.of_Z T) W_fin Hge Hle Hwide).
Qed.

End Bounds.

(** With one thread the only part ends at the width. *)
Lemma bound_whole (W : farg_t) : B64.fin W -> B64.rk (bound W 1 1) = B64.rk W.
Proof.
  intros HW. unfold bound.
  assert (Hq : B64.fin (fdiv W (of_ll 1))).
  { apply part_fin; [exact HW | rewrite LLONG_MAX_eq; lia]. }
  change (Z.of_nat 1) with 1.
  etransitivity; [apply (B64.SFmul_one _ Hq) |]. apply (B64.SFdiv_one W HW).
Qed.

(** The step and the additions of the workers. *)
Lemma step_good (W : farg_t) (S : long_long) :
  B64.fin W -> 1 <= S <= LLONG_MAX -> B64.good (fdiv W (of_ll S)).
Proof. intros HW HS. left. apply part_fin; assumption. Qed.

(** From an infinite width: the parts are empty. *)
Lemma bound_infinite (T : long_long) (i : nat) :
  1 <= T <= LLONG_MAX -> Z.of_nat i < T ->
  flt (bound (S754_infinity false) T i) (bound (S754_infinity false) T (S i)) = false.
Proof.
  intros HT Hi. rewrite LLONG_MAX_eq in HT. unfold bound.
  destruct (B64.ge1_shape _ (proj1 (B64.of_Z_ge1 T ltac:(lia)))) as (mT & eT & HeqT & _).
  destruct (B64.ge1_shape _ (proj1 (B64.of_Z_ge1 (Z.of_nat (S i)) ltac:(lia))))
    as (mi & ei & Heqi & _).
  change (of_ll T) with (B64.of_Z T). change (of_ll (Z.of_nat (S i))) with (B64.of_Z (Z.of_nat (S i))).
  rewrite HeqT, Heqi. destruct i as [| i].
  - reflexivity.
  - destruct (B64.ge1_shape _ (proj1 (B64.of_Z_ge1 (Z.of_nat (S i)) ltac:(lia))))
      as (mj & ej & Heqj & _).
    change (of_ll (Z.of_nat (S i))) with (B64.of_Z (Z.of_nat (S i))). rewrite Heqj. reflexivity.
Qed.

Lemma narrowest_good : B64.good narrowest /\ B64.rk narrowest = 64 * 2 ^ 52.
Proof. split; [left; reflexivity | reflexivity]. Qed.

(** The calls of [nthreads] workers on the parts of a width [W], and the
    calls of one worker on the whole of it. *)
Lemma calls_close (W : farg_t) (nsteps nthreads : long_long) (cs : nat -> nat) (n1 : nat) :
  B64.good W -> flt narrowest W = true ->
  1 <= nsteps <= LLONG_MAX -> 1 <= nthreads <= LLONG_MAX ->
  (forall i : nat, (i < Z.to_nat nthreads)%nat ->
     leaves_after (bound W nthreads i) (bound W nthreads (S i)) (fdiv W (of_ll nsteps)) (cs i)) ->
  leaves_after (bound W 1 0) (bound W 1 1) (fdiv W (of_ll nsteps)) n1 ->
  (total_calls cs (Z.to_nat nthreads) <= n1 + Z.to_nat nthreads)%nat /\
  (n1 <= total_calls cs (Z.to_nat nthreads) + Z.to_nat nthreads)%nat.
Proof.
  intros HW Hwide HS HT Hparts Hwhole.
  assert (H1 : 1 <= 1 <= LLONG_MAX) by (rewrite LLONG_MAX_eq; lia).
  destruct HW as [Hfin | ->].
  - (* a finite width *)
    destruct narrowest_good as [Hng Hnr].
    assert (Hrk : 64 * 2 ^ 52 < B64.rk W).
    { change (flt narrowest W) with (SFltb narrowest W) in Hwide.
      rewrite (B64.SFltb_rk narrowest W Hng (or_introl Hfin)) in Hwide.
      apply Z.ltb_lt in Hwide. lia. }
    set (s := fdiv W (of_ll nsteps)) in *.
    assert (Hs : B64.good s) by (apply step_good; assumption).
    assert (next_good : forall x : farg_t, B64.good x -> B64.good (fadd x s)).
    { intros x Hx. exact (proj1 (B64.SFadd_good x s Hx Hs)). }
    assert (next_incr : forall x : farg_t, B64.good x -> B64.rk x <= B64.rk (fadd x s)).
    { intros x Hx. exact (proj2 (B64.SFadd_good x s Hx Hs)). }
    assert (next_mono : forall x y : farg_t, B64.good x -> B64.good y ->
                          B64.rk x <= B64.rk y -> B64.rk (fadd x s) <= B64.rk (fadd y s)).
    { intros x y Hx Hy. exact (B64.SFadd_mono x y s Hx Hy Hs). }
    assert (flt_rk : forall x y : farg_t, B64.good x -> B64.good y ->
                       flt x y = (B64.rk x <? B64.rk y)).
    { intros x y Hx Hy. exact (B64.SFltb_rk x y Hx Hy). }
    assert (Hbg : forall i : nat, (i <= Z.to_nat nthreads)%nat -> B64.good (bound W nthreads i)).
    { intros i Hi. apply bound_good; [exact Hfin | exact HT | lia]. }
    apply (total_within_T B64.rk B64.good s next_good next_incr next_mono
             (bound W 1 0) (bound_good W 1 Hfin H1 0 ltac:(lia))
             (bound W nthreads) cs (Z.to_nat nthreads) Hbg) with (e1 := bound W 1 1).
    + intros i Hi. apply bound_up; [exact Hfin | exact HT | lia].
    + intros i Hi.
      apply (leaves_reaches B64.rk B64.good s flt_rk next_good);
        [apply Hbg; lia | apply Hbg; lia | apply Hparts; exact Hi].
    + rewrite (proj2 (bound_zero W nthreads Hfin HT)), (proj2 (bound_zero W 1 Hfin H1)).
      reflexivity.
    + apply (leaves_reaches B64.rk B64.good s flt_rk next_good);
        [apply bound_good; [exact Hfin | exact H1 | lia]
        | apply bound_good; [exact Hfin | exact H1 | lia]
        | exact Hwhole].
    + rewrite (bound_whole W Hfin).
      destruct (Z.eq_dec nthreads 1) as [-> | Hmany].
      * change (Z.to_nat 1) with 1%nat. rewrite (bound_whole W Hfin). lia.
      * pose proof (bound_last W nthreads Hfin HT ltac:(lia)). lia.
    + lia.
  - (* an infinite width *)
    assert (Hn1 : n1 = 0%nat).
    { apply (leaves_at_once _ _ _ _ (bound_infinite 1 0 H1 ltac:(lia)) Hwhole). }
    rewrite total_zero; [lia |].
    intros i Hi. apply (leaves_at_once _ _ _ _ (bound_infinite nthreads i HT ltac:(lia)) (Hparts i Hi)).
Qed.

(** C6. For a fixed function, interval and step count, the number of
    calls of the function made by all the workers under [nthreads]
    threads and the number made under one thread differ by at most
    [nthreads]: for every pair of doubles [start], [end_] whose
    difference is above 2^-959 (the tolerance of [parse_args] is 2^-23),
    every step count and thread count a [long long] holds, whatever the
    order in which the workers finish, whenever both runs come to an
    end. *)
Theorem calls_differ_by_at_most_nthreads
        (dlfunc : farg_t -> farg_t) (start end_ : farg_t) (nsteps nthreads : long_long)
        (fuel fuel1 : nat) (sched sched1 : list nat)
        (results results' results1 results1' : list farg_t) (n n1 : nat) :
  valid_binary Fmt.dprec Fmt.demax start = true ->
  valid_binary Fmt.dprec Fmt.demax end_ = true ->
  flt narrowest (fsub end_ start) = true ->
  1 <= nsteps <= LLONG_MAX -> 1 <= nthreads <= LLONG_MAX ->
  Permutation sched (seq 0 (Z.to_nat nthreads)) ->
  Permutation sched1 (seq 0 1) ->
  run_workers fuel (make_thargs start end_ nsteps nthreads dlfunc) sched results
  = Some (results', n) ->
  run_workers fuel1 (make_thargs start end_ nsteps 1 dlfunc) sched1 results1
  = Some (results1', n1) ->
  (n <= n1 + Z.to_nat nthreads)%nat /\ (n1 <= n + Z.to_nat nthreads)%nat.
Proof.
  intros Hstart Hend Hwide HS HT Hperm Hperm1 Hrun Hrun1.
  set (W := fsub end_ start) in *.
  assert (HW : B64.good W).
  { apply (B64.SFsub_wide narrowest end_ start); [eexists _, _; reflexivity | exact Hend | exact Hstart | exact Hwide]. }
  rewrite <- (make_thargs_length start end_ nsteps nthreads dlfunc) in Hperm.
  destruct (run_workers_total _ _ _ _ _ _ Hperm Hrun) as [-> Hparts].
  change 1%nat with (Z.to_nat 1) in Hperm1.
  rewrite <- (make_thargs_length start end_ nsteps 1 dlfunc) in Hperm1.
  destruct (run_workers_total _ _ _ _ _ _ Hperm1 Hrun1) as [-> Hwhole].
  rewrite !make_thargs_length. change (Z.to_nat 1) with 1%nat. cbn [total_calls Nat.add].
  apply (calls_close W nsteps nthreads _ _ HW Hwide HS HT).
  - intros i Hi.
    assert (Hlook := make_thargs_lookup start end_ nsteps nthreads dlfunc i).
    destruct (Nat.ltb_spec i (Z.to_nat nthreads)) as [_ | Hge]; [| lia].
    specialize (Hparts i _ Hlook). cbn [th_start th_end th_step] in Hparts.
    unfold bound. rewrite Nat2Z.inj_succ, <- Z.add_1_r. exact Hparts.
  - assert (Hlook := make_thargs_lookup start end_ nsteps 1 dlfunc 0).
    change (0 <? Z.to_nat 1)%nat with true in Hlook.
    specialize (Hwhole 0%nat _ Hlook). cbn [th_start th_end th_step] in Hwhole.
    exact Hwhole.
Qed.

Lemma calls_differ_by_at_most_nthreads_witness :
  option_map snd (run_workers 12 (make_thargs (of_ll 0) (of_ll 1) 10 3 (fun x : farg_t => x))
                              [2; 0; 1]%nat [fzero; fzero; fzero]) = Some 12%nat /\
  option_map snd (run_workers 12 (make_thargs (of_ll 0) (of_ll 1) 10 1 (fun x : farg_t => x))
                              [0%nat] [fzero]) = Some 11%nat /\
  (12 <= 11 + Z.to_nat 3)%nat /\ (11 <= 12 + Z.to_nat 3)%nat.
Proof.
  split; [vm_compute; reflexivity |]. split; [vm_compute; reflexivity |].
  eapply (calls_differ_by_at_most_nthreads
            (fun x : farg_t => x) (of_ll 0) (of_ll 1) 10 3 12 12
            [2; 0; 1]%nat [0%nat] [fzero; fzero; fzero] _ [fzero] _ 12 11).
  - reflexivity.
  - reflexivity.
  - vm_compute. reflexivity.
  - rewrite LLONG_MAX_eq. lia.
  - rewrite LLONG_MAX_eq. lia.
  - eapply perm_trans; [apply perm_swap | apply perm_skip, perm_swap].
  - apply Permutation_refl.
  - vm_compute. reflexivity.
  - vm_compute. reflexivity.
Defined.

(** * More of the program *)

(** ** Elapsed time *)

(** A time as [clock_gettime] gives it: the nanoseconds are below one
    second. *)
Definition normal_time (t : timespec) : Prop := 0 <= tv_nsec t < 1000000000.

(** The time in nanoseconds. *)
Definition nanoseconds (t : timespec) : Z := tv_sec t * 1000000000 + tv_nsec t.

(** Seconds far enough from the ends of [long long] for a difference in
    microseconds: within 2^42 seconds, some 139,000 years, of the
    epoch. *)
Definition in_range (t : timespec) : Prop := Z.abs (tv_sec t) <= 2 ^ 42.

Lemma wrap64_small (z : Z) : LLONG_MIN <= z <= LLONG_MAX -> wrap64 z = z.
Proof.
  unfold wrap64, LLONG_MIN, LLONG_MAX. intros Hz.
  rewrite Z.mod_small by lia. lia.
Qed.

(** Division by 1000 toward zero: what is cut off has the sign of the
    dividend. *)
Lemma quot_1000 (a : Z) :
  a = 1000 * Z.quot a 1000 + Z.rem a 1000 /\
  (0 <= a -> 0 <= Z.rem a 1000 < 1000) /\
  (a <= 0 -> -1000 < Z.rem a 1000 <= 0).
Proof.
  split; [apply Z.quot_rem' |]. split; intros Ha.
  - apply Z.rem_bound_pos_pos; lia.
  - pose proof (Z.rem_bound_pos_neg a 1000 ltac:(lia) Ha). lia.
Qed.

Lemma diff_us_plain (t1 t2 : timespec) :
  normal_time t1 -> normal_time t2 -> in_range t1 -> in_range t2 ->
  diff_us t1 t2 = (tv_sec t2 - tv_sec t1) * 1000000 + Z.quot (tv_nsec t2 - tv_nsec t1) 1000.
Proof.
  unfold normal_time, in_range, diff_us. intros H1 H2 R1 R2.
  destruct (quot_1000 (tv_nsec t2 - tv_nsec t1)) as (Hq & Hpos & Hneg).
  assert (Hb : -1000000 < Z.quot (tv_nsec t2 - tv_nsec t1) 1000 < 1000000).
  { destruct (Z_le_gt_dec 0 (tv_nsec t2 - tv_nsec t1)) as [Hs | Hs];
      [specialize (Hpos Hs) | specialize (Hneg ltac:(lia))]; lia. }
  assert (H42 : 2 ^ 42 = 4398046511104) by reflexivity.
  rewrite (wrap64_small (tv_nsec t2 - tv_nsec t1)) by (unfold LLONG_MIN, LLONG_MAX; lia).
  rewrite (wrap64_small (tv_sec t2 - tv_sec t1)) by (unfold LLONG_MIN, LLONG_MAX; lia).
  rewrite (wrap64_small ((tv_sec t2 - tv_sec t1) * 1000000)) by (unfold LLONG_MIN, LLONG_MAX; lia).
  apply wrap64_small. unfold LLONG_MIN, LLONG_MAX. lia.
Qed.

(** X1. The time [diff_us] reports is within one microsecond of the
    time that has passed, on the side the nanosecond fields decide: it
    is cut down when [t2.tv_nsec] is not below [t1.tv_nsec] and rounded
    up otherwise, so one nanosecond across a full second counts as a
    microsecond. *)
Theorem diff_us_within_a_microsecond (t1 t2 : timespec) :
  normal_time t1 -> normal_time t2 -> in_range t1 -> in_range t2 ->
  (tv_nsec t1 <= tv_nsec t2 ->
   1000 * diff_us t1 t2 <= nanoseconds t2 - nanoseconds t1 < 1000 * diff_us t1 t2 + 1000) /\
  (tv_nsec t2 <= tv_nsec t1 ->
   1000 * diff_us t1 t2 - 1000 < nanoseconds t2 - nanoseconds t1 <= 1000 * diff_us t1 t2).
Proof.
  intros H1 H2 R1 R2. rewrite (diff_us_plain t1 t2 H1 H2 R1 R2). unfold nanoseconds.
  destruct (quot_1000 (tv_nsec t2 - tv_nsec t1)) as (Hq & Hpos & Hneg).
  split; intros Hn; [specialize (Hpos ltac:(lia)) | specialize (Hneg ltac:(lia))]; lia.
Qed.

Lemma diff_us_within_a_microsecond_witness :
  diff_us {| tv_sec := 0; tv_nsec := 999999999 |} {| tv_sec := 1; tv_nsec := 0 |} = 1 /\
  nanoseconds {| tv_sec := 1; tv_nsec := 0 |}
  - nanoseconds {| tv_sec := 0; tv_nsec := 999999999 |} = 1 /\
  1000 * diff_us {| tv_sec := 0; tv_nsec := 999999999 |} {| tv_sec := 1; tv_nsec := 0 |} - 1000
  < nanoseconds {| tv_sec := 1; tv_nsec := 0 |}
    - nanoseconds {| tv_sec := 0; tv_nsec := 999999999 |}
  <= 1000 * diff_us {| tv_sec := 0; tv_nsec := 999999999 |} {| tv_sec := 1; tv_nsec := 0 |}.
Proof.
  split; [reflexivity |]. split; [reflexivity |].
  apply (diff_us_within_a_microsecond
           {| tv_sec := 0; tv_nsec := 999999999 |} {| tv_sec := 1; tv_nsec := 0 |}).
  - unfold normal_time. cbn. lia.
  - unfold normal_time. cbn. lia.
  - unfold in_range. cbn. lia.
  - unfold in_range. cbn. lia.
  - cbn. lia.
Defined.

(** X2. Measured the other way round the time is the opposite, from a
    time to itself it is 0, and it does not go down when the second
    time moves on: a later stop never gives a shorter time, and a stop
    that is not before the start never gives a negative one. *)
Theorem diff_us_order (t1 t2 t3 : timespec) :
  normal_time t1 -> normal_time t2 -> normal_time t3 ->
  in_range t1 -> in_range t2 -> in_range t3 ->
  diff_us t2 t1 = - diff_us t1 t2 /\
  diff_us t1 t1 = 0 /\
  (nanoseconds t2 <= nanoseconds t3 -> diff_us t1 t2 <= diff_us t1 t3) /\
  (nanoseconds t1 <= nanoseconds t2 -> 0 <= diff_us t1 t2).
Proof.
  intros H1 H2 H3 R1 R2 R3.
  rewrite (diff_us_plain t2 t1), (diff_us_plain t1 t2), (diff_us_plain t1 t1),
    (diff_us_plain t1 t3) by assumption.
  unfold nanoseconds, normal_time in *.
  destruct (quot_1000 (tv_nsec t2 - tv_nsec t1)) as (Hq21 & Hp21 & Hn21).
  destruct (quot_1000 (tv_nsec t1 - tv_nsec t2)) as (Hq12 & Hp12 & Hn12).
  destruct (quot_1000 (tv_nsec t3 - tv_nsec t1)) as (Hq31 & Hp31 & Hn31).
  destruct (quot_1000 (tv_nsec t1 - tv_nsec t1)) as (Hq11 & Hp11 & Hn11).
  repeat split.
  - destruct (Z_le_gt_dec (tv_nsec t1) (tv_nsec t2)) as [Hs | Hs].
    + specialize (Hp21 ltac:(lia)). specialize (Hn12 ltac:(lia)). lia.
    + specialize (Hn21 ltac:(lia)). specialize (Hp12 ltac:(lia)). lia.
  - specialize (Hp11 ltac:(lia)). specialize (Hn11 ltac:(lia)). lia.
  - intros Hle.
    destruct (Z_le_gt_dec (tv_nsec t1) (tv_nsec t2)) as [Hs2 | Hs2];
      destruct (Z_le_gt_dec (tv_nsec t1) (tv_nsec t3)) as [Hs3 | Hs3];
      [specialize (Hp21 ltac:(lia)) | specialize (Hp21 ltac:(lia))
       | specialize (Hn21 ltac:(lia)) | specialize (Hn21 ltac:(lia))];
      [specialize (Hp31 ltac:(lia)) | specialize (Hn31 ltac:(lia))
       | specialize (Hp31 ltac:(lia)) | specialize (Hn31 ltac:(lia))]; lia.
  - intros Hle.
    destruct (Z_le_gt_dec (tv_nsec t1) (tv_nsec t2)) as [Hs | Hs];
      [specialize (Hp21 ltac:(lia)) | specialize (Hn21 ltac:(lia))]; lia.
Qed.

Lemma diff_us_order_witness :
  diff_us {| tv_sec := 5; tv_nsec := 999999500 |} {| tv_sec := 7; tv_nsec := 400 |} = 1000001 /\
  diff_us {| tv_sec := 7; tv_nsec := 400 |} {| tv_sec := 5; tv_nsec := 999999500 |} = - 1000001 /\
  diff_us {| tv_sec := 5; tv_nsec := 999999500 |} {| tv_sec := 7; tv_nsec := 400 |}
  <= diff_us {| tv_sec := 5; tv_nsec := 999999500 |} {| tv_sec := 7; tv_nsec := 1400 |}.
Proof.
  split; [reflexivity |]. split; [reflexivity |].
  apply (diff_us_order {| tv_sec := 5; tv_nsec := 999999500 |}
                       {| tv_sec := 7; tv_nsec := 400 |}
                       {| tv_sec := 7; tv_nsec := 1400 |}).
  - unfold normal_time. cbn. lia.
  - unfold normal_time. cbn. lia.
  - unfold normal_time. cbn. lia.
  - unfold in_range. cbn. lia.
  - unfold in_range. cbn. lia.
  - unfold in_range. cbn. lia.
  - unfold nanoseconds. cbn. lia.
Defined.

(** ** The options, once more *)

(** The loop over the options, over two stretches of them. *)
Lemma getopt_loop_app (E : env) (rs1 rs2 : list getopt_ret) :
  forall a : args,
    getopt_loop E (rs1 ++ rs2) a = (getopt_loop E rs1 a ≫= getopt_loop E rs2).
Proof.
  induction rs1 as [| [sym optarg] rest IH]; intros a.
  - cbn [app getopt_loop]. symmetry. apply bind_ret.
  - cbn [app]. rewrite !getopt_loop_cons.
    repeat match goal with
           | |- context [if ?b then _ else _] => destruct b
           end;
      try apply IH; reflexivity.
Qed.

(** How the loop over the options can end the process: with the help
    text and 0, or with a wrong argument. *)
Lemma getopt_loop_ends (E : env) (rs : list getopt_ret) :
  forall (a : args) (t : list event) (code : Z),
    getopt_loop E rs a = (t, Exit code) ->
    (t = [Stderr MsgUsage; Stderr MsgHelp] /\ code = 0) \/
    (t = [Stderr (MsgError PE_WRONGARG)] /\ code = EX_USAGE).
Proof.
  induction rs as [| [sym optarg] rest IH]; intros a t code Hrun.
  - discriminate.
  - rewrite getopt_loop_cons in Hrun.
    repeat match type of Hrun with
           | (if ?b then _ else _) = _ => destruct b
           end;
      try (eapply IH; exact Hrun);
      inversion Hrun; subst; auto.
Qed.

(** The fields the loop keeps in order: a positive number of steps and
    a number of threads that is not negative stay so, the help flag is
    not set in a process that goes on, and the interval is not touched. *)
Lemma getopt_loop_valid (E : env) (rs : list getopt_ret) :
  forall (a a' : args) (t : list event),
    getopt_loop E rs a = (t, Ret a') ->
    (0 < nsteps (base a) -> 0 < nsteps (base a')) /\
    (0 <= nthreads (base a) -> 0 <= nthreads (base a')) /\
    ishelp a' = ishelp a /\ start a' = start a /\ end_ a' = end_ a.
Proof.
  induction rs as [| [sym optarg] rest IH]; intros a a' t Hrun.
  - inversion Hrun; subst. auto.
  - rewrite getopt_loop_cons in Hrun.
    destruct (Ascii.eqb sym "h"); [discriminate |].
    destruct (Ascii.eqb sym "v"); [apply IH in Hrun; exact Hrun |].
    destruct (Ascii.eqb sym "t").
    { destruct (accepts_t E optarg) eqn:Hacc; [| discriminate].
      apply IH in Hrun. cbn [set_nthreads base nsteps nthreads ishelp start end_] in Hrun.
      destruct Hrun as (Hn & Ht & Hrest). split; [exact Hn |]. split; [| exact Hrest].
      intros _. apply Ht. unfold accepts_t in Hacc.
      apply andb_true_iff in Hacc. destruct Hacc as [_ Hpos]. apply Z.leb_le. exact Hpos. }
    destruct (Ascii.eqb sym "n").
    { destruct (accepts_n E optarg) eqn:Hacc; [| discriminate].
      apply IH in Hrun. cbn [set_nsteps base nsteps nthreads ishelp start end_] in Hrun.
      destruct Hrun as (Hn & Ht & Hrest). split; [| split; [exact Ht | exact Hrest]].
      intros _. apply Hn. unfold accepts_n in Hacc.
      apply andb_true_iff in Hacc. destruct Hacc as [_ Hpos]. apply Z.ltb_lt. exact Hpos. }
    destruct (Ascii.eqb sym "F"); [| discriminate].
    apply IH in Hrun. exact Hrun.
Qed.

(** X3. A request that [parse_args] hands on is in order: it names a
    function, it has at least one step, the number of threads is
    positive or is what [get_nprocs] gave for [-t 0], nothing was
    written, and there are exactly two positional arguments, both read
    as finite numbers, the second above the first by more than
    [EPSILON]; they are the interval, converted to [farg_t]. *)
Theorem parsed_request_in_order (E : env) (argv : list string) (t : list event) (a : args) :
  parse_args E argv = (t, Ret a) ->
  t = [] /\
  funcname a <> None /\
  0 < nsteps (base a) /\
  (0 < nthreads (base a) \/ nthreads (base a) = get_nprocs E) /\
  ishelp a = false /\
  exists lo hi : string,
    snd (getopt argv) = [lo; hi] /\
    fst (ld_conv E lo) = true /\ fst (ld_conv E hi) = true /\
    start a = farg_of_ld (snd (ld_conv E lo)) /\
    end_ a = farg_of_ld (snd (ld_conv E hi)) /\
    ld_le (ld_sub (snd (ld_conv E hi)) (snd (ld_conv E lo))) (ld_of_farg EPSILON) = false.
Proof.
  intros Hparse.
  destruct (getopt_loop_outcome E (fst (getopt argv)) init_args)
    as [[a0 Ha0] | (t0 & code & Ht0 & _)].
  - destruct (getopt_loop_valid E _ _ _ _ Ha0) as (Hn & Hth & Hhelp & _).
    specialize (Hn ltac:(vm_compute; reflexivity)).
    specialize (Hth ltac:(vm_compute; discriminate)).
    rewrite (parse_args_positional E argv a0 Ha0) in Hparse. cbv zeta in Hparse.
    destruct (is_null (funcname a0) || (Z.of_nat (length (snd (getopt argv))) <? 2)) eqn:H1;
      [discriminate |].
    destruct (2 <? Z.of_nat (length (snd (getopt argv)))) eqn:H2; [discriminate |].
    destruct (negb (fst (ld_conv E (nth 0 (snd (getopt argv)) ""%string))
                    && fst (ld_conv E (nth 1 (snd (getopt argv)) ""%string)))) eqn:H3;
      [discriminate |].
    destruct (ld_le _ _) eqn:H4; [discriminate |].
    inversion Hparse; subst t a. clear Hparse.
    apply orb_false_iff in H1. destruct H1 as [Hname Hlen1].
    apply Z.ltb_ge in Hlen1. apply Z.ltb_ge in H2.
    apply negb_false_iff, andb_true_iff in H3. destruct H3 as [Hlo Hhi].
    cbn [set_nthreads set_interval base nsteps nthreads funcname ishelp start end_].
    split; [reflexivity |]. split; [destruct (funcname a0); [discriminate | discriminate] |].
    split; [exact Hn |]. split.
    { destruct (Z.eqb_spec (nthreads (base a0)) 0) as [Hz | Hz]; [right; reflexivity | left; lia]. }
    split; [exact Hhelp |].
    destruct (snd (getopt argv)) as [| lo [| hi [| x rest]]]; cbn [length] in *; try lia.
    exists lo, hi. cbn [nth] in *. repeat split; assumption.
  - unfold parse_args in Hparse. destruct (getopt argv) as [rs positional].
    cbn [fst] in Ht0. rewrite Ht0 in Hparse. discriminate.
Qed.

Lemma parsed_request_in_order_witness :
  exists a : args,
    parse_args (Ref.machine [] (fun _ => true) [] 0)
               ["-t"; "0"; "-F"; "sin"; "0"; "3.5"]%string = ([], Ret a) /\
    funcname a <> None /\ 0 < nsteps (base a) /\
    (0 < nthreads (base a) \/ nthreads (base a) = 4).
Proof.
  eexists. split; [vm_compute; reflexivity |].
  destruct (parsed_request_in_order (Ref.machine [] (fun _ => true) [] 0)
              ["-t"; "0"; "-F"; "sin"; "0"; "3.5"]%string _ _ ltac:(vm_compute; reflexivity))
    as (_ & Hname & Hsteps & Hthreads & _).
  split; [exact Hname |]. split; [exact Hsteps | exact Hthreads].
Defined.

Lemma bind_ret_inv {A B : Type} (x : M A) (k : A -> M B) (t : list event) (b : B) :
  (x ≫= k) = (t, Ret b) ->
  exists (t1 : list event) (a : A) (t2 : list event),
    x = (t1, Ret a) /\ k a = (t2, Ret b) /\ t = t1 ++ t2.
Proof.
  destruct x as [t1 [a | code |]]; try discriminate.
  unfold mbind, M_bind. destruct (k a) as [t2 s] eqn:Hk. intros Heq.
  inversion Heq; subst. exists t1, a, t2. auto.
Qed.

Lemma getopt_loop_verbose (E : env) (rs : list getopt_ret) :
  forall (a a' : args) (t : list event),
    getopt_loop E rs a = (t, Ret a') -> isverbose a' = isverbose a || reported "v" rs.
Proof.
  induction rs as [| [sym optarg] rest IH]; intros a a' t Hrun.
  - inversion Hrun; subst. cbn. rewrite orb_false_r. reflexivity.
  - rewrite getopt_loop_cons in Hrun. cbn [reported existsb]. fold (reported "v" rest).
    destruct (Ascii.eqb sym "h"); [discriminate |].
    destruct (Ascii.eqb sym "v") eqn:Hv.
    { apply IH in Hrun. rewrite Hrun. cbn [set_isverbose isverbose orb].
      rewrite orb_true_r. reflexivity. }
    destruct (Ascii.eqb sym "t"); [destruct (accepts_t E optarg); [| discriminate];
                                    apply IH in Hrun; exact Hrun |].
    destruct (Ascii.eqb sym "n"); [destruct (accepts_n E optarg); [| discriminate];
                                    apply IH in Hrun; exact Hrun |].
    destruct (Ascii.eqb sym "F"); [| discriminate].
    apply IH in Hrun. exact Hrun.
Qed.

(** X4. An option given more than once: every occurrence is checked,
    and the last one counts. After a loop that goes on, the function
    name is the argument of the last [-F], the value of every [-t] and
    of every [-n] was taken, the numbers of threads and of steps are the
    converted arguments of the last [-t] and [-n], and the output is
    verbose when it was so before or [-v] occurred at all. *)
Theorem last_option_counts (E : env) :
  (forall (rs1 rs2 : list getopt_ret) (x : string) (a a' : args) (t : list event),
      getopt_loop E (rs1 ++ Opt "F" x :: rs2) a = (t, Ret a') ->
      reported "F" rs2 = false -> funcname a' = Some x) /\
  (forall (rs1 rs2 : list getopt_ret) (x : string) (a a' : args) (t : list event),
      getopt_loop E (rs1 ++ Opt "t" x :: rs2) a = (t, Ret a') ->
      accepts_t E x = true /\
      (reported "t" rs2 = false ->
       nthreads (base a') = llong_of_ld E (scanned (sscanf_Lg_c E x)))) /\
  (forall (rs1 rs2 : list getopt_ret) (x : string) (a a' : args) (t : list event),
      getopt_loop E (rs1 ++ Opt "n" x :: rs2) a = (t, Ret a') ->
      accepts_n E x = true /\
      (reported "n" rs2 = false ->
       nsteps (base a') = llong_of_ld E (scanned (sscanf_Lg_c E x)))) /\
  (forall (rs : list getopt_ret) (a a' : args) (t : list event),
      getopt_loop E rs a = (t, Ret a') -> isverbose a' = isverbose a || reported "v" rs).
Proof.
  split; [| split; [| split]].
  - intros rs1 rs2 x a a' t Hrun Hlast. rewrite getopt_loop_app in Hrun.
    apply bind_ret_inv in Hrun. destruct Hrun as (t1 & a1 & t2 & _ & Hrest & _).
    rewrite getopt_loop_cons in Hrest. cbn [Ascii.eqb Bool.eqb andb] in Hrest.
    destruct (getopt_loop_keeps E _ _ _ _ Hrest) as (_ & _ & Hname).
    rewrite (Hname Hlast). reflexivity.
  - intros rs1 rs2 x a a' t Hrun. rewrite getopt_loop_app in Hrun.
    apply bind_ret_inv in Hrun. destruct Hrun as (t1 & a1 & t2 & _ & Hrest & _).
    rewrite getopt_loop_cons in Hrest. cbn [Ascii.eqb Bool.eqb andb] in Hrest.
    destruct (accepts_t E x); [| discriminate]. split; [reflexivity |]. intros Hlast.
    destruct (getopt_loop_keeps E _ _ _ _ Hrest) as (Hth & _ & _).
    rewrite (Hth Hlast). reflexivity.
  - intros rs1 rs2 x a a' t Hrun. rewrite getopt_loop_app in Hrun.
    apply bind_ret_inv in Hrun. destruct Hrun as (t1 & a1 & t2 & _ & Hrest & _).
    rewrite getopt_loop_cons in Hrest. cbn [Ascii.eqb Bool.eqb andb] in Hrest.
    destruct (accepts_n E x); [| discriminate]. split; [reflexivity |]. intros Hlast.
    destruct (getopt_loop_keeps E _ _ _ _ Hrest) as (_ & Hn & _).
    rewrite (Hn Hlast). reflexivity.
  - apply getopt_loop_verbose.
Qed.

Lemma last_option_counts_witness :
  exists a : args,
    getopt_loop (Ref.machine [] (fun _ => true) [] 0)
                (fst (getopt ["-F"; "sin"; "-n"; "5"; "-Fcos"; "-n"; "7"; "0"; "1"]%string))
                init_args = ([], Ret a) /\
    funcname a = Some "cos"%string.
Proof.
  eexists. split; [vm_compute; reflexivity |].
  refine (proj1 (last_option_counts (Ref.machine [] (fun _ => true) [] 0))
                [Opt "F" "sin"; Opt "n" "5"] [Opt "n" "7"] "cos"%string init_args _ []
                _ eq_refl).
  vm_compute. reflexivity.
Defined.

(** ** What a run does, case by case *)

(** The ncalls that start the threads of [idx] when each succeeds, and
    the calls that wait for [n] threads from thread [i] on. *)
Definition creates (idx : list nat) : list event :=
  map (fun i : nat => PthreadCreate i true) idx.

Definition joins (i n : nat) : list event := map PthreadJoin (seq i n).

Lemma cancel_threads_trace (i : nat) :
  cancel_threads i = (replicate (S i) (PthreadCancel i), Ret tt).
Proof.
  assert (Hall : forall l : list nat,
             map (fun _ : nat => PthreadCancel i) l = replicate (length l) (PthreadCancel i)).
  { induction l as [| k l IH]; [reflexivity |]. cbn [map length replicate]. f_equal. exact IH. }
  unfold cancel_threads. rewrite Hall, length_rev, length_seq. reflexivity.
Qed.

Lemma start_threads_all (E : env) (idx : list nat) :
  (forall i : nat, In i idx -> pthread_create_ok E i = true) ->
  start_threads E idx = (creates idx, Ret true).
Proof.
  induction idx as [| i rest IH]; intros Hok; [reflexivity |].
  cbn [start_threads]. rewrite bind_emit, (Hok i) by (left; reflexivity).
  rewrite IH by (intros j Hj; apply Hok; right; exact Hj). reflexivity.
Qed.

Lemma start_threads_first (E : env) (pre post : list nat) (i : nat) :
  (forall j : nat, In j pre -> pthread_create_ok E j = true) ->
  pthread_create_ok E i = false ->
  start_threads E (pre ++ i :: post) =
  (creates pre ++ PthreadCreate i false :: replicate (S i) (PthreadCancel i), Ret false).
Proof.
  induction pre as [| j pre IH]; intros Hok Hfail.
  - cbn [app start_threads creates map]. rewrite bind_emit, Hfail, cancel_threads_trace.
    rewrite bind_trace. unfold mret, M_ret. cbn [fst snd]. rewrite app_nil_r. reflexivity.
  - cbn [app start_threads creates map]. rewrite bind_emit, (Hok j) by (left; reflexivity).
    rewrite IH by (try exact Hfail; intros k Hk; apply Hok; right; exact Hk). reflexivity.
Qed.

(** Among the threads 0 to [n - 1] there is a first whose creation
    fails, or there is none. *)
Lemma first_failure (ok : nat -> bool) (n : nat) :
  (forall i : nat, (i < n)%nat -> ok i = true) \/
  exists i : nat, (i < n)%nat /\ ok i = false /\ forall j : nat, (j < i)%nat -> ok j = true.
Proof.
  induction n as [| n IH]; [left; intros i Hi; lia |].
  destruct IH as [Hall | (i & Hi & Hfail & Hbefore)].
  - destruct (ok n) eqn:Hn.
    + left. intros i Hi. destruct (Nat.eq_dec i n) as [-> | Hne]; [exact Hn | apply Hall; lia].
    + right. exists n. split; [lia |]. split; [exact Hn |]. intros j Hj. apply Hall. exact Hj.
  - right. exists i. split; [lia |]. split; [exact Hfail | exact Hbefore].
Qed.

Lemma seq_split_at (n i : nat) :
  (i < n)%nat -> seq 0 n = seq 0 i ++ i :: seq (S i) (n - S i).
Proof.
  intros Hi. replace n with (i + S (n - S i))%nat at 1 by lia.
  rewrite seq_app. reflexivity.
Qed.

(** The loop of [pthread_join] comes to its end when every worker
    returns, and waits at the first that does not. *)
Lemma join_threads_all (fuel : nat) (thargs : list (thread_args farg_t)) :
  forall i : nat,
    Forall (fun ta => integrate_worker fuel ta <> None) thargs ->
    join_threads fuel thargs i = (joins i (length thargs), Ret tt).
Proof.
  induction thargs as [| ta rest IH]; intros i Hall; [reflexivity |].
  inversion Hall as [| ? ? Hta Hrest]; subst.
  cbn [join_threads]. destruct (integrate_worker fuel ta) as [evs |]; [| congruence].
  rewrite bind_emit, IH by exact Hrest. reflexivity.
Qed.

Lemma join_threads_stuck (fuel : nat) (thargs : list (thread_args farg_t)) :
  forall i : nat,
    ~ Forall (fun ta => integrate_worker fuel ta <> None) thargs ->
    exists k : nat,
      (k < length thargs)%nat /\ join_threads fuel thargs i = (joins i k, Hang).
Proof.
  induction thargs as [| ta rest IH]; intros i Hnot.
  - exfalso. apply Hnot. constructor.
  - cbn [join_threads]. destruct (integrate_worker fuel ta) as [evs |] eqn:Hw.
    + destruct (IH (S i)) as (k & Hk & Hjoin).
      { intros Hrest. apply Hnot. constructor; [congruence | exact Hrest]. }
      exists (S k). split; [cbn [length]; lia |].
      rewrite bind_emit, Hjoin. reflexivity.
    + exists 0%nat. split; [cbn [length]; lia | reflexivity].
Qed.

(** When every worker returns, so does the run of all of them. *)
Lemma run_workers_returns {F : Type} `{Arith F} (fuel : nat) (thargs : list (thread_args F))
      (sched : list nat) :
  Forall (fun ta => integrate_worker fuel ta <> None) thargs ->
  forall results : list F,
    exists (results' : list F) (n : nat),
      run_workers fuel thargs sched results = Some (results', n).
Proof.
  intros Hall. induction sched as [| i rest IH]; intros results.
  - eexists; eexists; reflexivity.
  - cbn [run_workers]. destruct (thargs !! i) as [ta |] eqn:Hi; [| apply IH].
    assert (Hta : integrate_worker fuel ta <> None).
    { exact (Forall_lookup_1 _ _ _ _ Hall Hi). }
    destruct (integrate_worker fuel ta) as [evs |]; [| congruence].
    destruct (IH (fold_left apply_wevent evs results)) as (r & n & ->).
    eexists; eexists; reflexivity.
Qed.

Lemma workers_return_or_not {F : Type} `{Arith F} (fuel : nat) (thargs : list (thread_args F)) :
  Forall (fun ta => integrate_worker fuel ta <> None) thargs \/
  ~ Forall (fun ta => integrate_worker fuel ta <> None) thargs.
Proof.
  induction thargs as [| ta rest IH]; [left; constructor |].
  destruct (integrate_worker fuel ta) as [evs |] eqn:Hw.
  - destruct IH as [Hall | Hnot].
    + left. constructor; [congruence | exact Hall].
    + right. intros Hall. inversion Hall; subst. contradiction.
  - right. intros Hall. inversion Hall; subst. congruence.
Qed.

(** The names [main] makes from the function name: the symbol
    ["dlfunc_" name] and the module [bindir "/dlfunc_" name ".so"]. *)
Definition symbol_of (a : args) : string :=
  (FUNC_PREFIX ++ default ""%string (funcname a))%string.

Definition module_of (bindir : string) (a : args) : string :=
  (bindir ++ "/" ++ symbol_of a ++ ".so")%string.

(** The ways [main] goes once the request is parsed: it has no memory
    for the names; the module does not open; the module has no such
    symbol; the creation of thread [i] fails; it waits for a worker that
    does not return; it prints the sum. *)
Inductive dispatched (E : env) (bindir : string) (a : args) : M unit -> Prop :=
| no_memory :
    asprintf_ok E = false ->
    dispatched E bindir a ([Stderr (MsgError PE_MALLOC)], Exit EX_OSERR)
| no_module :
    asprintf_ok E = true ->
    dlopen_ok E (module_of bindir a) = false ->
    dispatched E bindir a
      ([Dlopen (module_of bindir a); Stderr (MsgError PE_DLERR)], Exit EX_SOFTWARE)
| no_symbol :
    asprintf_ok E = true ->
    dlopen_ok E (module_of bindir a) = true ->
    dlsym E (symbol_of a) = None ->
    dispatched E bindir a
      ([Dlopen (module_of bindir a); Dlsym (symbol_of a); Dlclose;
        Stderr (MsgError PE_DLERR)], Exit EX_SOFTWARE)
| no_thread (dlfunc : farg_t -> farg_t) (i : nat) :
    asprintf_ok E = true ->
    dlopen_ok E (module_of bindir a) = true ->
    dlsym E (symbol_of a) = Some dlfunc ->
    (i < Z.to_nat (nthreads (base a)))%nat ->
    pthread_create_ok E i = false ->
    (forall j : nat, (j < i)%nat -> pthread_create_ok E j = true) ->
    dispatched E bindir a
      ([Dlopen (module_of bindir a); Dlsym (symbol_of a)]
         ++ creates (seq 0 i)
         ++ PthreadCreate i false :: replicate (S i) (PthreadCancel i)
         ++ [Dlclose; Stderr (MsgError PE_THREAD)], Exit EX_OSERR)
| waiting (dlfunc : farg_t -> farg_t) (k : nat) :
    asprintf_ok E = true ->
    dlopen_ok E (module_of bindir a) = true ->
    dlsym E (symbol_of a) = Some dlfunc ->
    (forall j : nat, (j < Z.to_nat (nthreads (base a)))%nat -> pthread_create_ok E j = true) ->
    (k < Z.to_nat (nthreads (base a)))%nat ->
    ~ Forall (fun ta => integrate_worker (patience E) ta <> None)
        (make_thargs (start a) (end_ a) (nsteps (base a)) (nthreads (base a)) dlfunc) ->
    dispatched E bindir a
      ([Dlopen (module_of bindir a); Dlsym (symbol_of a)]
         ++ creates (seq 0 (Z.to_nat (nthreads (base a))))
         ++ joins 0 k, Hang)
| summed (dlfunc : farg_t -> farg_t) (results : list farg_t) (ncalls : nat) :
    asprintf_ok E = true ->
    dlopen_ok E (module_of bindir a) = true ->
    dlsym E (symbol_of a) = Some dlfunc ->
    (forall j : nat, (j < Z.to_nat (nthreads (base a)))%nat -> pthread_create_ok E j = true) ->
    Forall (fun ta => integrate_worker (patience E) ta <> None)
      (make_thargs (start a) (end_ a) (nsteps (base a)) (nthreads (base a)) dlfunc) ->
    run_workers (patience E)
      (make_thargs (start a) (end_ a) (nsteps (base a)) (nthreads (base a)) dlfunc)
      (completion_order (Z.to_nat (nthreads (base a))) (schedule E))
      (replicate (Z.to_nat (nthreads (base a))) fzero) = Some (results, ncalls) ->
    dispatched E bindir a
      ([Dlopen (module_of bindir a); Dlsym (symbol_of a)]
         ++ creates (seq 0 (Z.to_nat (nthreads (base a))))
         ++ joins 0 (Z.to_nat (nthreads (base a)))
         ++ Stdout (sum_results results)
            :: (if isverbose a then [Stderr MsgTook] else [])
         ++ [Dlclose], Exit 0).

Lemma dispatch_dispatched (E : env) (bindir : string) (a : args) :
  dispatched E bindir a (dispatch E bindir a).
Proof.
  unfold dispatch. fold (symbol_of a). fold (module_of bindir a).
  destruct (asprintf_ok E) eqn:Hmem; cbn [negb]; [| apply no_memory; exact Hmem].
  rewrite bind_emit.
  destruct (dlopen_ok E (module_of bindir a)) eqn:Hopen; cbn [negb];
    [| apply no_module; assumption].
  rewrite bind_emit.
  destruct (dlsym E (symbol_of a)) as [dlfunc |] eqn:Hsym;
    [| apply no_symbol; assumption].
  cbv zeta.
  set (n := Z.to_nat (nthreads (base a))).
  set (thargs := make_thargs (start a) (end_ a) (nsteps (base a)) (nthreads (base a)) dlfunc).
  assert (Hlen : length thargs = n) by apply make_thargs_length.
  destruct (first_failure (pthread_create_ok E) n) as [Hall | (i & Hi & Hfail & Hbefore)].
  - rewrite (start_threads_all E (seq 0 n)) by (intros i Hi; apply Hall; apply in_seq in Hi; lia).
    rewrite bind_trace. cbn [fst snd negb].
    destruct (workers_return_or_not (patience E) thargs) as [Hret | Hstuck].
    + rewrite (join_threads_all _ _ 0 Hret), Hlen, bind_trace. cbn [fst snd].
      destruct (run_workers_returns (patience E) thargs
                  (completion_order n (schedule E)) Hret (replicate n fzero))
        as (results & ncalls & Hrun).
      rewrite Hrun, bind_emit.
      replace (fst ((if isverbose a then emit (Stderr MsgTook) else mret tt);; finish true PE_OK))
        with ((if isverbose a then [Stderr MsgTook] else []) ++ [Dlclose])
        by (destruct (isverbose a); reflexivity).
      replace (snd ((if isverbose a then emit (Stderr MsgTook) else mret tt);; finish true PE_OK))
        with (@Exit unit 0) by (destruct (isverbose a); reflexivity).
      cbn [fst snd app].
      apply (summed E bindir a dlfunc results ncalls); assumption.
    + destruct (join_threads_stuck _ _ 0 Hstuck) as (k & Hk & Hjoin).
      rewrite Hjoin. cbn [mbind M_bind fst snd app].
      rewrite Hlen in Hk.
      apply (waiting E bindir a dlfunc k); assumption.
  - rewrite (seq_split_at n i Hi).
    rewrite (start_threads_first E (seq 0 i) (seq (S i) (n - S i)) i)
      by (try exact Hfail; intros j Hj; apply Hbefore; apply in_seq in Hj; lia).
    rewrite bind_trace. cbn [fst snd negb].
    change (finish true PE_THREAD)
      with ([Dlclose; Stderr (MsgError PE_THREAD)], @Exit unit EX_OSERR).
    cbn [fst snd]. rewrite <- app_assoc. cbn [app].
    apply (no_thread E bindir a dlfunc i); assumption.
Qed.

(** How [parse_args] can end the process. *)
Inductive turned_down : list event -> Z -> Prop :=
| for_help : turned_down [Stderr MsgUsage; Stderr MsgHelp] 0
| for_usage (err : error) :
    err = PE_WRONGARG \/ err = PE_NENARGS \/ err = PE_TMARGS ->
    turned_down [Stderr (MsgError err)] EX_USAGE
| for_interval (lo hi : long_double) :
    turned_down [Stderr (MsgCanNot lo hi); Stderr (MsgError PE_CVGERR)] EX_DATAERR.

Lemma parse_args_ends (E : env) (argv : list string) (t : list event) (code : Z) :
  parse_args E argv = (t, Exit code) -> turned_down t code.
Proof.
  intros Hparse.
  destruct (getopt_loop_outcome E (fst (getopt argv)) init_args)
    as [[a0 Ha0] | (t0 & code0 & Ht0 & _)].
  - rewrite (parse_args_positional E argv a0 Ha0) in Hparse. cbv zeta in Hparse.
    repeat match type of Hparse with
           | (if ?b then _ else _) = _ => destruct b
           end;
      inversion Hparse; subst; try (apply for_usage; auto); apply for_interval.
  - assert (Hp : parse_args E argv = (t0, Exit code0)).
    { unfold parse_args. destruct (getopt argv) as [rs positional].
      cbn [fst] in Ht0. rewrite Ht0. reflexivity. }
    rewrite Hp in Hparse. inversion Hparse; subst.
    destruct (getopt_loop_ends E _ _ _ _ Ht0) as [[-> ->] | [-> ->]];
      [apply for_help | apply for_usage; auto].
Qed.

(** The ways [main] goes. *)
Inductive ran (E : env) (argv0 : string) (argv : list string) : M unit -> Prop :=
| no_bindir :
    bindir_of E argv0 = None ->
    ran E argv0 argv ([Stderr (MsgError PE_MALLOC)], Exit EX_OSERR)
| no_arguments :
    bindir_of E argv0 <> None -> argv = [] ->
    ran E argv0 argv ([Stderr MsgUsage; Stderr (MsgError PE_NOARGS)], Exit EX_USAGE)
| not_parsed (t : list event) (code : Z) :
    bindir_of E argv0 <> None -> argv <> [] ->
    parse_args E argv = (t, Exit code) -> turned_down t code ->
    ran E argv0 argv (t, Exit code)
| parsed (bindir : string) (a : args) (r : M unit) :
    bindir_of E argv0 = Some bindir -> argv <> [] ->
    parse_args E argv = ([], Ret a) -> dispatched E bindir a r ->
    ran E argv0 argv r.

Lemma main_ran (E : env) (argv0 : string) (argv : list string) :
  ran E argv0 argv (main E argv0 argv).
Proof.
  destruct (bindir_of E argv0) as [bindir |] eqn:Hdir.
  - destruct argv as [| x argv].
    + unfold main. rewrite Hdir. apply no_arguments; [congruence | reflexivity].
    + destruct (parse_args_outcome E (x :: argv)) as [[a Ha] | (t & code & Ht & _)].
      * rewrite (main_parses E argv0 (x :: argv) bindir Hdir ltac:(discriminate)), Ha, bind_silent.
        apply (parsed E argv0 (x :: argv) bindir a); try assumption; try discriminate.
        apply dispatch_dispatched.
      * rewrite (main_rejects E argv0 (x :: argv) t code) by (congruence || assumption).
        apply not_parsed; try assumption; try congruence.
        apply (parse_args_ends E (x :: argv)). exact Ht.
  - unfold main. rewrite Hdir. apply no_bindir. exact Hdir.
Qed.

(** A request that is parsed came with arguments, and has a name. *)
Lemma main_of_parsed (E : env) (argv0 bindir : string) (argv : list string) (a : args) :
  bindir_of E argv0 = Some bindir -> parse_args E argv = ([], Ret a) ->
  main E argv0 argv = dispatch E bindir a.
Proof.
  intros Hdir Hparse.
  assert (Hargv : argv <> []).
  { intros ->. vm_compute in Hparse. discriminate. }
  rewrite (main_parses E argv0 argv bindir Hdir Hargv), Hparse. apply bind_silent.
Qed.

Lemma printed_In (t : list event) (v : farg_t) : In (Stdout v) t <-> In v (printed t).
Proof.
  unfold printed. rewrite in_flat_map. split.
  - intros Hin. exists (Stdout v). split; [exact Hin | left; reflexivity].
  - intros (e & He & Hv). destruct e; cbn in Hv; try contradiction.
    destruct Hv as [-> | []]. exact He.
Qed.

Lemma printed_creates (idx : list nat) : printed (creates idx) = [].
Proof. induction idx as [| i idx IH]; [reflexivity | exact IH]. Qed.

Lemma printed_joins (i n : nat) : printed (joins i n) = [].
Proof.
  unfold joins. induction (seq i n) as [| k l IH]; [reflexivity | exact IH].
Qed.

Lemma printed_replicate_cancel (n i : nat) : printed (replicate n (PthreadCancel i)) = [].
Proof. induction n as [| n IH]; [reflexivity | exact IH]. Qed.


(** What was printed in each of the ways [main] goes after parsing. *)
Lemma printed_dispatched (E : env) (bindir : string) (a : args) (r : M unit) :
  dispatched E bindir a r ->
  printed (fst r) = [] \/
  exists (dlfunc : farg_t -> farg_t) (results : list farg_t) (ncalls : nat),
    dlsym E (symbol_of a) = Some dlfunc /\
    run_workers (patience E)
      (make_thargs (start a) (end_ a) (nsteps (base a)) (nthreads (base a)) dlfunc)
      (completion_order (Z.to_nat (nthreads (base a))) (schedule E))
      (replicate (Z.to_nat (nthreads (base a))) fzero) = Some (results, ncalls) /\
    printed (fst r) = [sum_results results] /\
    r = ([Dlopen (module_of bindir a); Dlsym (symbol_of a)]
           ++ creates (seq 0 (Z.to_nat (nthreads (base a))))
           ++ joins 0 (Z.to_nat (nthreads (base a)))
           ++ Stdout (sum_results results)
              :: (if isverbose a then [Stderr MsgTook] else [])
           ++ [Dlclose], Exit 0).
Proof.
  intros Hd.
  destruct Hd as [| | | dlfunc i | dlfunc k | dlfunc results ncalls]; cbn [fst].
  - left. reflexivity.
  - left. reflexivity.
  - left. reflexivity.
  - left. cbn [app printed flat_map]. fold (printed (creates (seq 0 i) ++ PthreadCreate i false
        :: replicate (S i) (PthreadCancel i) ++ [Dlclose; Stderr (MsgError PE_THREAD)])).
    rewrite printed_app, printed_creates. cbn [app printed flat_map].
    fold (printed (replicate (S i) (PthreadCancel i) ++ [Dlclose; Stderr (MsgError PE_THREAD)])).
    rewrite printed_app, printed_replicate_cancel. reflexivity.
  - left. cbn [app printed flat_map].
    fold (printed (creates (seq 0 (Z.to_nat (nthreads (base a)))) ++ joins 0 k)).
    rewrite printed_app, printed_creates, printed_joins. reflexivity.
  - right. exists dlfunc, results, ncalls. split; [assumption |]. split; [assumption |].
    split; [| reflexivity].
    cbn [app printed flat_map].
    fold (printed (creates (seq 0 (Z.to_nat (nthreads (base a))))
                     ++ joins 0 (Z.to_nat (nthreads (base a)))
                     ++ Stdout (sum_results results)
                        :: (if isverbose a then [Stderr MsgTook] else []) ++ [Dlclose])).
    rewrite printed_app, printed_creates, printed_app, printed_joins.
    destruct (isverbose a); reflexivity.
Qed.




Definition is_close (e : event) : bool :=
  match e with
  | Dlclose => true
  | _ => false
  end.

Lemma existsb_map_false {A B : Type} (p : B -> bool) (f : A -> B) (l : list A) :
  (forall x : A, p (f x) = false) -> existsb p (map f l) = false.
Proof.
  intros Hp. induction l as [| x l IH]; [reflexivity |].
  cbn [map existsb]. rewrite Hp, IH. reflexivity.
Qed.

Lemma existsb_replicate_false {A : Type} (p : A -> bool) (n : nat) (x : A) :
  p x = false -> existsb p (replicate n x) = false.
Proof.
  intros Hp. induction n as [| n IH]; [reflexivity |].
  cbn [replicate existsb]. rewrite Hp, IH. reflexivity.
Qed.





(** The modules a run opened. *)
Definition loaded (t : list event) : list string :=
  flat_map (fun e => match e with Dlopen ld => [ld] | _ => [] end) t.

Lemma loaded_In (t : list event) (ld : string) : In (Dlopen ld) t <-> In ld (loaded t).
Proof.
  unfold loaded. rewrite in_flat_map. split.
  - intros Hin. exists (Dlopen ld). split; [exact Hin | left; reflexivity].
  - intros (e & He & Hv). destruct e; cbn in Hv; try contradiction.
    destruct Hv as [-> | []]. exact He.
Qed.

Lemma flat_map_map_nil {A B C : Type} (g : B -> list C) (f : A -> B) (l : list A) :
  (forall x : A, g (f x) = []) -> flat_map g (map f l) = [].
Proof.
  intros Hg. induction l as [| x l IH]; [reflexivity |].
  cbn [map flat_map]. rewrite Hg, IH. reflexivity.
Qed.

Lemma flat_map_replicate_nil {A C : Type} (g : A -> list C) (n : nat) (x : A) :
  g x = [] -> flat_map g (replicate n x) = [].
Proof.
  intros Hg. induction n as [| n IH]; [reflexivity |].
  cbn [replicate flat_map]. rewrite Hg, IH. reflexivity.
Qed.

Lemma loaded_dispatched (E : env) (bindir : string) (a : args) (r : M unit) :
  dispatched E bindir a r ->
  loaded (fst r) = [] \/ loaded (fst r) = [module_of bindir a].
Proof.
  intros Hd. destruct Hd; cbn [fst]; try (left; reflexivity); right;
    try reflexivity; unfold loaded; cbn [app flat_map]; f_equal;
    repeat rewrite flat_map_app; unfold creates, joins;
    repeat rewrite flat_map_map_nil by reflexivity; cbn [flat_map app];
    try rewrite flat_map_app;
    try rewrite (flat_map_replicate_nil _ (S i) (PthreadCancel i) eq_refl);
    try reflexivity.
  destruct (isverbose a); reflexivity.
Qed.

(** A trace with one [dlclose] has it at one place. *)
Lemma close_unique (A B t1 t2 : list event) :
  existsb is_close A = false -> existsb is_close B = false ->
  A ++ Dlclose :: B = t1 ++ Dlclose :: t2 -> t1 = A /\ t2 = B.
Proof.
  revert t1. induction A as [| e A IH]; intros t1 HA HB Heq.
  - destruct t1 as [| e1 t1]; cbn [app] in Heq.
    + inversion Heq. auto.
    + inversion Heq; subst. rewrite existsb_app in HB. cbn [existsb is_close] in HB.
      rewrite orb_true_r in HB. discriminate.
  - cbn [existsb] in HA. apply orb_false_iff in HA. destruct HA as [He HA].
    destruct t1 as [| e1 t1]; cbn [app] in Heq.
    + inversion Heq; subst. discriminate.
    + inversion Heq; subst. destruct (IH t1 HA HB H1) as [-> ->]. auto.
Qed.

Lemma close_absent (t t1 t2 : list event) :
  existsb is_close t = false -> t <> t1 ++ Dlclose :: t2.
Proof.
  intros Hno ->. rewrite existsb_app in Hno. cbn [existsb is_close] in Hno.
  rewrite orb_true_r in Hno. discriminate.
Qed.

Lemma close_In (t : list event) : In Dlclose t <-> existsb is_close t = true.
Proof.
  rewrite existsb_exists. split.
  - intros Hin. exists Dlclose. split; [exact Hin | reflexivity].
  - intros (e & He & Hp). destruct e; try discriminate. exact He.
Qed.

Lemma In_creates (idx : list nat) (j : nat) (ok : bool) :
  In (PthreadCreate j ok) (creates idx) <-> ok = true /\ In j idx.
Proof.
  unfold creates. rewrite in_map_iff. split.
  - intros (k & Hk & Hin). inversion Hk; subst. auto.
  - intros [-> Hin]. exists j. auto.
Qed.

Lemma In_joins (i n j : nat) : In (PthreadJoin j) (joins i n) <-> In j (seq i n).
Proof.
  unfold joins. rewrite in_map_iff. split.
  - intros (k & Hk & Hin). inversion Hk; subst. exact Hin.
  - intros Hin. exists j. auto.
Qed.

(** Where the dispatcher closes the module: nowhere, or once, with
    nothing but a message after it; and every thread that was created
    has been joined by then, unless a creation failed. *)
Lemma close_dispatched (E : env) (bindir : string) (a : args) (r : M unit) :
  dispatched E bindir a r ->
  (existsb is_close (fst r) = false /\
   (snd r = Hang \/ dlopen_ok E (module_of bindir a) = false \/ loaded (fst r) = [])) \/
  (exists A B : list event,
      fst r = A ++ Dlclose :: B /\ existsb is_close A = false /\
      existsb is_close B = false /\ only_messages B = true /\
      snd r <> Hang /\ dlopen_ok E (module_of bindir a) = true /\
      loaded (fst r) = [module_of bindir a] /\
      ((forall j : nat, ~ In (PthreadCreate j false) A) ->
       forall j : nat, In (PthreadCreate j true) A -> In (PthreadJoin j) A)).
Proof.
  intros Hd. pose proof (loaded_dispatched E bindir a r Hd) as Hl.
  destruct Hd as [| | | dlfunc i | dlfunc k | dlfunc results ncalls]; cbn [fst snd] in *.
  - left. split; [reflexivity | right; right; reflexivity].
  - left. split; [reflexivity | right; left; assumption].
  - right. exists [Dlopen (module_of bindir a); Dlsym (symbol_of a)], [Stderr (MsgError PE_DLERR)].
    split; [reflexivity |]. split; [reflexivity |]. split; [reflexivity |].
    split; [reflexivity |]. split; [discriminate |]. split; [assumption |].
    split; [reflexivity |].
    intros _ j [Hj | [Hj | []]]; discriminate.
  - right.
    exists ([Dlopen (module_of bindir a); Dlsym (symbol_of a)] ++ creates (seq 0 i)
              ++ PthreadCreate i false :: replicate (S i) (PthreadCancel i)),
      [Stderr (MsgError PE_THREAD)].
    split; [repeat (first [rewrite <- app_assoc | progress cbn [app]]); reflexivity |].
    split.
    { cbn [app existsb is_close orb]. rewrite existsb_app. unfold creates.
      rewrite existsb_map_false by reflexivity. cbn [existsb is_close orb].
      apply existsb_replicate_false. reflexivity. }
    split; [reflexivity |]. split; [reflexivity |]. split; [discriminate |].
    split; [assumption |]. split.
    { destruct Hl as [Hl | Hl]; [| exact Hl].
      exfalso. revert Hl. unfold loaded. cbn [app flat_map]. discriminate. }
    intros Hnone. exfalso. apply (Hnone i).
    apply in_or_app. right. apply in_or_app. right. left. reflexivity.
  - left. split; [| left; reflexivity].
    cbn [app existsb is_close orb]. rewrite existsb_app. unfold creates, joins.
    rewrite !existsb_map_false by reflexivity. reflexivity.
  - right.
    exists ([Dlopen (module_of bindir a); Dlsym (symbol_of a)]
              ++ creates (seq 0 (Z.to_nat (nthreads (base a))))
              ++ joins 0 (Z.to_nat (nthreads (base a)))
              ++ Stdout (sum_results results) :: (if isverbose a then [Stderr MsgTook] else [])),
      [].
    split.
    { repeat (first [rewrite <- app_assoc | progress cbn [app]]). reflexivity. }
    split.
    { cbn [app existsb is_close orb]. rewrite !existsb_app. unfold creates, joins.
      rewrite !existsb_map_false by reflexivity. destruct (isverbose a); reflexivity. }
    split; [reflexivity |]. split; [reflexivity |]. split; [discriminate |].
    split; [assumption |]. split.
    { destruct Hl as [Hl | Hl]; [| exact Hl].
      exfalso. revert Hl. unfold loaded. cbn [app flat_map]. discriminate. }
    intros _ j Hj.
    apply in_app_or in Hj. destruct Hj as [[Hj | [Hj | []]] | Hj]; try discriminate.
    apply in_app_or in Hj. destruct Hj as [Hj | Hj].
    + apply In_creates in Hj. destruct Hj as [_ Hj].
      apply in_or_app. right. apply in_or_app. right. apply in_or_app. left.
      apply In_joins. exact Hj.
    + exfalso. apply in_app_or in Hj. destruct Hj as [Hj | Hj].
      * unfold joins in Hj. apply in_map_iff in Hj. destruct Hj as (k & Hk & _).
        discriminate.
      * destruct Hj as [Hj | Hj]; [discriminate |].
        destruct (isverbose a); [destruct Hj as [Hj | []]; discriminate | contradiction].
Qed.

(** X7. Closing the module. [dlclose] is called only on a module that
    [dlopen] opened, and not more than once; a run that ends with an
    exit code after [dlopen] succeeded has called it, and a run that
    waits for a worker has not. Unless a [pthread_create] failed, every
    thread that was created has been joined when the module is closed,
    and after it the process only writes to the standard error. (When a
    [pthread_create] failed, the workers created before it still run
    when the module is closed.) *)
Theorem module_closed_once (E : env) (argv0 : string) (argv : list string) :
  (In Dlclose (fst (main E argv0 argv)) ->
   snd (main E argv0 argv) <> Hang /\
   exists ld : string, In (Dlopen ld) (fst (main E argv0 argv)) /\ dlopen_ok E ld = true) /\
  (forall (code : Z) (ld : string),
      snd (main E argv0 argv) = Exit code ->
      In (Dlopen ld) (fst (main E argv0 argv)) -> dlopen_ok E ld = true ->
      In Dlclose (fst (main E argv0 argv))) /\
  (forall t1 t2 : list event,
      fst (main E argv0 argv) = t1 ++ Dlclose :: t2 ->
      ~ In Dlclose t1 /\ ~ In Dlclose t2 /\
      ((forall j : nat, ~ In (PthreadCreate j false) t1) ->
       (forall j : nat, In (PthreadCreate j true) t1 -> In (PthreadJoin j) t1) /\
       only_messages t2 = true)).
Proof.
  assert (Hnone : forall (t : list event) (s : status unit),
             existsb is_close t = false ->
             (s = Hang \/ forall ld : string, In (Dlopen ld) t -> dlopen_ok E ld = false) ->
             (In Dlclose t ->
              s <> Hang /\ exists ld : string, In (Dlopen ld) t /\ dlopen_ok E ld = true) /\
             (forall (code : Z) (ld : string),
                 s = Exit code -> In (Dlopen ld) t -> dlopen_ok E ld = true -> In Dlclose t) /\
             (forall t1 t2 : list event,
                 t = t1 ++ Dlclose :: t2 ->
                 ~ In Dlclose t1 /\ ~ In Dlclose t2 /\
                 ((forall j : nat, ~ In (PthreadCreate j false) t1) ->
                  (forall j : nat, In (PthreadCreate j true) t1 -> In (PthreadJoin j) t1) /\
                  only_messages t2 = true))).
  { intros t s Hno Hwhy. split; [| split].
    - intros Hin. apply close_In in Hin. congruence.
    - intros code ld Hs Hld Hok. destruct Hwhy as [-> | Hwhy]; [discriminate |].
      rewrite (Hwhy ld Hld) in Hok. discriminate.
    - intros t1 t2 Heq. exfalso. exact (close_absent t t1 t2 Hno Heq). }
  pose proof (main_ran E argv0 argv) as Hran.
  destruct Hran as [Hdir | Hdir Hargv | t code Hdir Hargv Hparse Hdown
                    | bindir a r Hdir Hargv Hparse Hd]; cbn [fst snd].
  - apply Hnone; [reflexivity |]. right. intros ld [Hld | []]. discriminate.
  - apply Hnone; [reflexivity |]. right. intros ld [Hld | [Hld | []]]; discriminate.
  - apply Hnone; [destruct Hdown; reflexivity |]. right. intros ld Hld.
    apply loaded_In in Hld. destruct Hdown; contradiction.
  - destruct (close_dispatched E bindir a r Hd)
      as [[Hno Hwhy] | (A & B & Heq & HA & HB & Hmsg & Hs & Hok & Hl & Hjoined)].
    + apply Hnone; [exact Hno |].
      destruct Hwhy as [Hh | [Hfail | Hl]]; [left; exact Hh | right | right].
      * intros ld Hld. apply loaded_In in Hld.
        destruct (loaded_dispatched E bindir a r Hd) as [Hl | Hl]; rewrite Hl in Hld.
        -- contradiction.
        -- destruct Hld as [<- | []]. exact Hfail.
      * intros ld Hld. apply loaded_In in Hld. rewrite Hl in Hld. contradiction.
    + split; [| split].
      * intros _. split; [exact Hs |]. exists (module_of bindir a).
        split; [| exact Hok]. apply loaded_In. rewrite Hl. left. reflexivity.
      * intros code ld _ _ _. rewrite Heq. apply in_or_app. right. left. reflexivity.
      * intros t1 t2 Hsplit. rewrite Heq in Hsplit.
        destruct (close_unique A B t1 t2 HA HB Hsplit) as [-> ->].
        split; [intros Hin; apply close_In in Hin; congruence |].
        split; [intros Hin; apply close_In in Hin; congruence |].
        intros Hnofail. split; [exact (Hjoined Hnofail) | exact Hmsg].
Qed.

Lemma module_closed_once_witness :
  In Dlclose
     (fst (main (Ref.machine [("id", fun x => x)]%string (fun _ => true) [] 100) "./int"
                ["-t"; "2"; "-n"; "4"; "-F"; "id"; "0"; "1"]%string)) /\
  ~ In Dlclose
      (fst (main (Ref.machine [("id", fun x => x)]%string (fun _ => true) [] 100) "./int"
                 ["-F"; "cos"; "0"; "1"]%string)).
Proof.
  split.
  - apply (proj1 (proj2 (module_closed_once _ _ _)) 0 "./dlfunc_id.so"%string).
    + vm_compute. reflexivity.
    + vm_compute. left. reflexivity.
    + vm_compute. reflexivity.
  - intros Hin. apply (proj1 (module_closed_once _ _ _)) in Hin.
    destruct Hin as (_ & ld & Hld & Hok).
    vm_compute in Hld. destruct Hld as [Hld | [Hld | []]]; [| discriminate].
    injection Hld as <-. vm_compute in Hok. discriminate.
Defined.



Lemma In_replicate {A : Type} (n : nat) (x y : A) : In y (replicate n x) -> y = x.
Proof.
  induction n as [| n IH]; cbn [replicate]; [intros [] |].
  intros [<- | Hin]; [reflexivity | exact (IH Hin)].
Qed.

(** What the main thread does when the creation of thread [i] is the
    first to fail, if nothing stops it. *)
Lemma first_failure_trace (E : env) (argv0 bindir : string) (argv : list string)
        (a : args) (dlfunc : farg_t -> farg_t) (i : nat) :
  bindir_of E argv0 = Some bindir ->
  parse_args E argv = ([], Ret a) ->
  asprintf_ok E = true ->
  dlopen_ok E (module_of bindir a) = true ->
  dlsym E (symbol_of a) = Some dlfunc ->
  (i < Z.to_nat (nthreads (base a)))%nat ->
  pthread_create_ok E i = false ->
  (forall j : nat, (j < i)%nat -> pthread_create_ok E j = true) ->
  main E argv0 argv =
  ([Dlopen (module_of bindir a); Dlsym (symbol_of a)]
     ++ creates (seq 0 i)
     ++ PthreadCreate i false :: replicate (S i) (PthreadCancel i)
     ++ [Dlclose; Stderr (MsgError PE_THREAD)], Exit EX_OSERR) /\
  printed (fst (main E argv0 argv)) = [].
Proof.
  intros Hdir Hparse Hmem Hopen Hsym Hi Hfail Hbefore.
  rewrite (main_of_parsed E argv0 bindir argv a Hdir Hparse).
  pose proof (dispatch_dispatched E bindir a) as Hd.
  pose proof (printed_dispatched E bindir a _ Hd) as Hpr.
  destruct Hd as [Hm | Hm Ho | Hm Ho Hs | f k Hm Ho Hs Hk Hkf Hkb
                  | f k Hm Ho Hs Hall Hk Hstuck | f results ncalls Hm Ho Hs Hall Hret Hrun];
    try congruence.
  - assert (k = i).
    { destruct (Nat.lt_trichotomy k i) as [Hlt | [Heq | Hgt]]; [| exact Heq |].
      - rewrite (Hbefore k Hlt) in Hkf. discriminate.
      - rewrite (Hkb i Hgt) in Hfail. discriminate. }
    subst k. split; [reflexivity |].
    destruct Hpr as [Hnone | (f' & results & ncalls & _ & _ & _ & Hr)]; [exact Hnone |].
    inversion Hr.
  - rewrite (Hall i Hi) in Hfail. discriminate.
  - rewrite (Hall i Hi) in Hfail. discriminate.
Qed.

(** X9. On the way out of a failed [pthread_create]. When the creation
    of thread [i] is the first to fail, the main thread creates no
    further thread, joins no thread and prints nothing. Every
    [pthread_cancel] it calls names [threads[i]], the thread that was
    not created, so that none of the [i] workers that run is cancelled,
    and there are at most [i + 1] such calls. If the process ends with
    an exit code, the code is [EX_OSERR]. (On this way a signal can end
    the process: [threads[i]] was never set, and the workers still run
    when the module is closed.) *)
Theorem thread_creation_failure (E : env) (argv0 bindir : string) (argv : list string)
        (a : args) (dlfunc : farg_t -> farg_t) (i : nat) :
  bindir_of E argv0 = Some bindir ->
  parse_args E argv = ([], Ret a) ->
  asprintf_ok E = true ->
  dlopen_ok E (module_of bindir a) = true ->
  dlsym E (symbol_of a) = Some dlfunc ->
  (i < Z.to_nat (nthreads (base a)))%nat ->
  pthread_create_ok E i = false ->
  (forall j : nat, (j < i)%nat -> pthread_create_ok E j = true) ->
  (forall (j : nat) (ok : bool),
      In (PthreadCreate j ok) (fst (main E argv0 argv)) ->
      ((j < i)%nat /\ ok = true) \/ (j = i /\ ok = false)) /\
  (forall j : nat, In (PthreadCancel j) (fst (main E argv0 argv)) -> j = i) /\
  (length (cancelled (fst (main E argv0 argv))) <= S i)%nat /\
  (forall j : nat, ~ In (PthreadJoin j) (fst (main E argv0 argv))) /\
  printed (fst (main E argv0 argv)) = [] /\
  (forall code : Z, snd (main E argv0 argv) = Exit code -> code = EX_OSERR).
Proof.
  intros Hdir Hparse Hmem Hopen Hsym Hi Hfail Hbefore.
  destruct (first_failure_trace E argv0 bindir argv a dlfunc i
              Hdir Hparse Hmem Hopen Hsym Hi Hfail Hbefore) as [Hmain Hpr].
  split; [| split; [| split; [| split; [| split]]]].
  - intros j ok Hin. rewrite Hmain in Hin. cbn [fst] in Hin.
    apply in_app_or in Hin. destruct Hin as [[Hin | [Hin | []]] | Hin]; try discriminate.
    apply in_app_or in Hin. destruct Hin as [Hin | Hin].
    + apply In_creates in Hin. destruct Hin as [-> Hin]. apply in_seq in Hin. left. lia.
    + destruct Hin as [Hin | Hin]; [inversion Hin; subst; right; auto |].
      exfalso. apply in_app_or in Hin. destruct Hin as [Hin | [Hin | [Hin | []]]];
        try discriminate.
      apply In_replicate in Hin. discriminate.
  - intros j Hin. rewrite Hmain in Hin. cbn [fst] in Hin.
    apply in_app_or in Hin. destruct Hin as [[Hin | [Hin | []]] | Hin]; try discriminate.
    apply in_app_or in Hin. destruct Hin as [Hin | Hin].
    + unfold creates in Hin. apply in_map_iff in Hin. destruct Hin as (k & Hk & _).
      discriminate.
    + destruct Hin as [Hin | Hin]; [discriminate |].
      apply in_app_or in Hin. destruct Hin as [Hin | [Hin | [Hin | []]]]; try discriminate.
      apply In_replicate in Hin. inversion Hin. reflexivity.
  - rewrite Hmain. cbn [fst]. unfold cancelled. cbn [app flat_map].
    rewrite flat_map_app. unfold creates. rewrite flat_map_map_nil by reflexivity.
    cbn [app flat_map]. rewrite flat_map_app. cbn [flat_map app]. rewrite app_nil_r.
    assert (Hrep : forall n : nat,
               length (flat_map (fun e => match e with PthreadCancel k => [k] | _ => [] end)
                                (replicate n (PthreadCancel i))) = n).
    { induction n as [| n IH]; [reflexivity |]. cbn [replicate flat_map app length].
      rewrite IH. reflexivity. }
    rewrite Hrep. lia.
  - intros j Hin. rewrite Hmain in Hin. cbn [fst] in Hin.
    apply in_app_or in Hin. destruct Hin as [[Hin | [Hin | []]] | Hin]; try discriminate.
    apply in_app_or in Hin. destruct Hin as [Hin | Hin].
    + unfold creates in Hin. apply in_map_iff in Hin. destruct Hin as (k & Hk & _).
      discriminate.
    + destruct Hin as [Hin | Hin]; [discriminate |].
      apply in_app_or in Hin. destruct Hin as [Hin | [Hin | [Hin | []]]]; try discriminate.
      apply In_replicate in Hin. discriminate.
  - exact Hpr.
  - intros code Hcode. rewrite Hmain in Hcode. cbn [snd] in Hcode. congruence.
Qed.

Lemma thread_creation_failure_witness :
  cancelled (fst (main (Ref.machine [("one", fun _ => of_ll 1)]%string
                                    (fun i => (i <? 2)%nat) [] 100) "./int"
                       ["-t"; "4"; "-n"; "10"; "-F"; "one"; "0"; "1"]%string)) =
  [2; 2; 2]%nat /\
  forall j : nat,
    ~ In (PthreadJoin j)
        (fst (main (Ref.machine [("one", fun _ => of_ll 1)]%string
                                (fun i => (i <? 2)%nat) [] 100) "./int"
                   ["-t"; "4"; "-n"; "10"; "-F"; "one"; "0"; "1"]%string)).
Proof.
  split; [vm_compute; reflexivity |].
  assert (Hp : {a : args |
                 parse_args (Ref.machine [("one", fun _ => of_ll 1)]%string
                                         (fun i => (i <? 2)%nat) [] 100)
                            ["-t"; "4"; "-n"; "10"; "-F"; "one"; "0"; "1"]%string = ([], Ret a) /\
                 nthreads (base a) = 4 /\ funcname a = Some "one"%string}).
  { eexists. split; [vm_compute; reflexivity |]. split; reflexivity. }
  destruct Hp as (a & Hp & Hn & Hf).
  assert (Hs : symbol_of a = "dlfunc_one"%string) by (unfold symbol_of; rewrite Hf; reflexivity).
  assert (Hm : module_of "." a = "./dlfunc_one.so"%string)
    by (unfold module_of; rewrite Hs; reflexivity).
  refine (proj1 (proj2 (proj2 (proj2
            (thread_creation_failure
               (Ref.machine [("one", fun _ => of_ll 1)]%string (fun i => (i <? 2)%nat) [] 100)
               "./int" "." ["-t"; "4"; "-n"; "10"; "-F"; "one"; "0"; "1"]%string
               a (fun _ => of_ll 1) 2 eq_refl Hp eq_refl _ _ _ eq_refl _))))).
  - rewrite Hm. reflexivity.
  - rewrite Hs. reflexivity.
  - rewrite Hn. vm_compute. lia.
  - intros j Hj. destruct j as [| [| j]]; [reflexivity | reflexivity | lia].
Defined.

(** ** The option [-v] *)

(** What the process did apart from writing to the standard error, and
    its trace without the lines that give the time. *)
Definition actions (t : list event) : list event :=
  List.filter (fun e => negb (is_stderr e)) t.

Definition is_took (e : event) : bool :=
  match e with
  | Stderr MsgTook => true
  | _ => false
  end.

Definition without_took (t : list event) : list event :=
  List.filter (fun e => negb (is_took e)) t.

Definition status_map {A B : Type} (f : A -> B) (s : status A) : status B :=
  match s with
  | Ret a => Ret (f a)
  | Exit code => Exit code
  | Hang => Hang
  end.

Lemma actions_without_took (t : list event) : actions (without_took t) = actions t.
Proof.
  unfold actions, without_took. induction t as [| e t IH]; [reflexivity |].
  cbn [List.filter]. destruct e as [[] | | | | | | |]; cbn [is_took is_stderr negb List.filter];
    rewrite ?IH; reflexivity.
Qed.

(** [getopt] reports a leading [-v] first and goes on with the rest. *)
Lemma getopt_verbose (argv : list string) :
  getopt ("-v"%string :: argv) = (Opt "v" "" :: fst (getopt argv), snd (getopt argv)).
Proof.
  unfold getopt.
  change (Getopt.scan None ("-v"%string :: argv))
    with (let '(rs, pos) := Getopt.scan None argv in (Opt "v" "" :: rs, pos)).
  destruct (Getopt.scan None argv) as [rs pos]. reflexivity.
Qed.

(** The loop over the options does the same for a request that is
    already verbose, and hands on a verbose request. *)
Lemma getopt_loop_set_verbose (E : env) (rs : list getopt_ret) :
  forall a : args,
    getopt_loop E rs (set_isverbose a) =
    (fst (getopt_loop E rs a), status_map set_isverbose (snd (getopt_loop E rs a))).
Proof.
  induction rs as [| [sym optarg] rest IH]; intros a.
  - reflexivity.
  - rewrite !getopt_loop_cons.
    destruct (Ascii.eqb sym "h"); [reflexivity |].
    destruct (Ascii.eqb sym "v"); [apply (IH (set_isverbose a)) |].
    destruct (Ascii.eqb sym "t").
    { destruct (accepts_t E optarg); [| reflexivity].
      apply (IH (set_nthreads a _)). }
    destruct (Ascii.eqb sym "n").
    { destruct (accepts_n E optarg); [| reflexivity].
      apply (IH (set_nsteps a _)). }
    destruct (Ascii.eqb sym "F"); [| reflexivity].
    apply (IH (set_funcname a _)).
Qed.

Lemma getopt_loop_leading_verbose (E : env) (argv : list string) :
  getopt_loop E (fst (getopt ("-v"%string :: argv))) init_args =
  (fst (getopt_loop E (fst (getopt argv)) init_args),
   status_map set_isverbose (snd (getopt_loop E (fst (getopt argv)) init_args))).
Proof.
  rewrite getopt_verbose. cbn [fst]. rewrite getopt_loop_cons.
  change (Ascii.eqb "v" "h") with false. change (Ascii.eqb "v" "v") with true. cbv iota.
  apply getopt_loop_set_verbose.
Qed.

(** [parse_args] with a leading [-v]: the same messages and the same
    end, and the same request but for the flag. *)
Lemma parse_args_verbose (E : env) (argv : list string) :
  parse_args E ("-v"%string :: argv) =
  (fst (parse_args E argv), status_map set_isverbose (snd (parse_args E argv))).
Proof.
  pose proof (getopt_loop_leading_verbose E argv) as Hv.
  destruct (getopt_loop_outcome E (fst (getopt argv)) init_args)
    as [[a Ha] | (t & code & Ht & _)].
  - rewrite Ha in Hv. cbn [fst snd status_map] in Hv.
    rewrite (parse_args_positional E _ _ Hv), (parse_args_positional E _ _ Ha).
    rewrite getopt_verbose. cbv zeta. cbn [snd set_isverbose funcname base].
    repeat match goal with
           | |- context [if ?b then _ else _] =>
               lazymatch b with
               | nthreads _ =? 0 => fail
               | _ => destruct b; [reflexivity |]
               end
           end.
    reflexivity.
  - rewrite Ht in Hv. cbn [fst snd status_map] in Hv.
    unfold parse_args.
    destruct (getopt ("-v"%string :: argv)) as [rs' pos']. destruct (getopt argv) as [rs pos].
    cbn [fst] in *. rewrite Hv, Ht. reflexivity.
Qed.

Lemma without_took_app (t1 t2 : list event) :
  without_took (t1 ++ t2) = without_took t1 ++ without_took t2.
Proof. apply List.filter_app. Qed.

(** Two computations that differ in nothing but the lines that give
    the time. *)
Definition alike {A : Type} (x y : M A) : Prop :=
  without_took (fst x) = without_took (fst y) /\ snd x = snd y.

Lemma alike_refl {A : Type} (x : M A) : alike x x.
Proof. split; reflexivity. Qed.

Lemma alike_bind {A B : Type} (x : M A) (k l : A -> M B) :
  (forall a : A, alike (k a) (l a)) -> alike (x ≫= k) (x ≫= l).
Proof.
  intros Hkl. destruct x as [t [a | code |]]; [| apply alike_refl ..].
  rewrite !bind_trace. destruct (Hkl a) as [Ht Hs]. split; cbn [fst snd]; [| exact Hs].
  rewrite !without_took_app, Ht. reflexivity.
Qed.

(** The dispatcher for a verbose request: the same but for the line
    that gives the time. *)
Lemma dispatch_verbose (E : env) (bindir : string) (a : args) :
  alike (dispatch E bindir (set_isverbose a)) (dispatch E bindir a).
Proof.
  unfold dispatch. cbn [set_isverbose funcname base start end_ isverbose].
  destruct (negb (asprintf_ok E)); [apply alike_refl |].
  apply alike_bind. intros _.
  destruct (negb (dlopen_ok E _)); [apply alike_refl |].
  apply alike_bind. intros _.
  destruct (dlsym E _) as [dlfunc |]; [| apply alike_refl].
  cbv zeta. apply alike_bind. intros started.
  destruct (negb started); [apply alike_refl |].
  apply alike_bind. intros _.
  destruct (run_workers (patience E) _ _ _) as [[results n] |]; [| apply alike_refl].
  apply alike_bind. intros _.
  destruct (isverbose a); [apply alike_refl |].
  split; reflexivity.
Qed.

(** X10. [-v] only adds the time. A command line and the same command
    line after [-v] end the same way (the same exit code, or both wait
    for a worker), with the same loader and thread operations and the
    same printed result; unless the command line is empty, the two runs
    differ in nothing but the lines that give the time. *)
Theorem verbose_only_adds_the_time (E : env) (argv0 : string) (argv : list string) :
  snd (main E argv0 ("-v"%string :: argv)) = snd (main E argv0 argv) /\
  actions (fst (main E argv0 ("-v"%string :: argv))) = actions (fst (main E argv0 argv)) /\
  (argv <> [] ->
   without_took (fst (main E argv0 ("-v"%string :: argv))) =
   without_took (fst (main E argv0 argv))).
Proof.
  assert (Hmain : forall bindir : string,
             bindir_of E argv0 = Some bindir ->
             snd (parse_args E ("-v"%string :: argv) ≫= dispatch E bindir) =
             snd (parse_args E argv ≫= dispatch E bindir) /\
             without_took (fst (parse_args E ("-v"%string :: argv) ≫= dispatch E bindir)) =
             without_took (fst (parse_args E argv ≫= dispatch E bindir))).
  { intros bindir _. rewrite parse_args_verbose.
    destruct (parse_args E argv) as [t [a | code |]]; cbn [fst snd status_map];
      [| split; reflexivity ..].
    rewrite !bind_trace. cbn [fst snd]. rewrite !without_took_app.
    destruct (dispatch_verbose E bindir a) as [Ht Hs]. rewrite Ht, Hs. split; reflexivity. }
  destruct (bindir_of E argv0) as [bindir |] eqn:Hdir.
  - specialize (Hmain bindir eq_refl).
    rewrite (main_parses E argv0 ("-v"%string :: argv) bindir Hdir) by discriminate.
    destruct argv as [| x argv].
    + (* no arguments at all: a usage error either way *)
      unfold main. rewrite Hdir. cbn [length Z.of_nat]. 
      change (1 =? 1 + 0) with true. cbv iota.
      rewrite parse_args_verbose.
      assert (Hempty : parse_args E [] = ([Stderr (MsgError PE_NENARGS)], Exit EX_USAGE))
        by reflexivity.
      rewrite Hempty. cbn [fst snd status_map].
      split; [reflexivity |]. split; [reflexivity | congruence].
    + rewrite (main_parses E argv0 (x :: argv) bindir Hdir) by discriminate.
      destruct Hmain as [Hs Ht]. split; [exact Hs |]. split; [| intros _; exact Ht].
      rewrite <- (actions_without_took (fst (parse_args E ("-v"%string :: x :: argv)
                                             ≫= dispatch E bindir))).
      rewrite <- (actions_without_took (fst (parse_args E (x :: argv) ≫= dispatch E bindir))).
      rewrite Ht. reflexivity.
  - unfold main. rewrite Hdir. split; [reflexivity |]. split; [reflexivity |].
    intros _. reflexivity.
Qed.

Lemma verbose_only_adds_the_time_witness :
  main (Ref.machine [("one", fun _ => of_ll 1)]%string (fun _ => true) [] 100) "./int"
       ["-v"; "-n"; "4"; "-F"; "one"; "0"; "1"]%string =
  ([Dlopen "./dlfunc_one.so"; Dlsym "dlfunc_one"; PthreadCreate 0 true; PthreadJoin 0;
    Stdout (of_ll 1); Stderr MsgTook; Dlclose], Exit 0) /\
  without_took (fst (main (Ref.machine [("one", fun _ => of_ll 1)]%string (fun _ => true) [] 100)
                          "./int" ["-v"; "-n"; "4"; "-F"; "one"; "0"; "1"]%string)) =
  without_took (fst (main (Ref.machine [("one", fun _ => of_ll 1)]%string (fun _ => true) [] 100)
                          "./int" ["-n"; "4"; "-F"; "one"; "0"; "1"]%string)).
Proof.
  split; [vm_compute; reflexivity |].
  apply (verbose_only_adds_the_time
           (Ref.machine [("one", fun _ => of_ll 1)]%string (fun _ => true) [] 100) "./int"
           ["-n"; "4"; "-F"; "one"; "0"; "1"]%string).
  discriminate.
Defined.

(** ** The value that is printed *)

(** The sum a worker stores for a part whose loop leaves after [n]
    turns. *)
Definition part_sum {F : Type} `{Arith F} (ta : thread_args F) (n : nat) : F :=
  left_sum (th_funcptr ta) (th_step ta) (samples (th_start ta) (th_step ta) n).

Lemma worker_effect_part_sum {F : Type} `{Arith F} (fuel : nat) (ta : thread_args F)
      (r : F) (c : nat) :
  worker_effect fuel ta = Some (r, c) ->
  leaves_after (th_start ta) (th_end ta) (th_step ta) c /\ r = part_sum ta c.
Proof.
  unfold worker_effect. intros Hw.
  destruct (worker_loop fuel (th_funcptr ta) (th_start ta) (th_end ta) (th_step ta) fzero)
    as [[xs r0] |] eqn:Hloop; [| discriminate].
  injection Hw as -> <-.
  destruct (worker_loop_leaves _ _ _ _ _ _ _ _ Hloop) as [Hleave Hlen].
  split; [exact Hleave |].
  rewrite (worker_loop_returns _ _ _ _ _ _ _ Hleave Hlen) in Hloop.
  injection Hloop as _ <-. reflexivity.
Qed.

Lemma results_part_sums {F : Type} `{Arith F} (fuel : nat) (thargs : list (thread_args F))
      (results : list F) :
  Forall2 (fun ta r => exists c : nat, worker_effect fuel ta = Some (r, c)) thargs results ->
  exists ns : list nat,
    Forall2 (fun ta n => leaves_after (th_start ta) (th_end ta) (th_step ta) n) thargs ns /\
    results = zip_with part_sum thargs ns.
Proof.
  induction 1 as [| ta r thargs results [c Hw] _ (ns & Hns & ->)].
  - exists []. split; [constructor | reflexivity].
  - destruct (worker_effect_part_sum fuel ta r c Hw) as [Hleave ->].
    exists (c :: ns). split; [constructor; assumption | reflexivity].
Qed.

(** X11. What the program prints. A run prints at most one value, and
    then this one: with the parts [main] makes of the request and, for
    each part, the number of turns after which its sequence of points
    leaves the part, the sum over the parts in the order of their
    indices, starting from 0, of the left-rectangle sums of the loaded
    function over the points of each part. *)
Theorem printed_value (E : env) (argv0 : string) (argv : list string) (v : farg_t) :
  In (Stdout v) (fst (main E argv0 argv)) ->
  exists (a : args) (dlfunc : farg_t -> farg_t) (ns : list nat),
    parse_args E argv = ([], Ret a) /\
    dlsym E (symbol_of a) = Some dlfunc /\
    Forall2 (fun ta n => leaves_after (th_start ta) (th_end ta) (th_step ta) n)
            (make_thargs (start a) (end_ a) (nsteps (base a)) (nthreads (base a)) dlfunc) ns /\
    v = sum_results
          (zip_with part_sum
             (make_thargs (start a) (end_ a) (nsteps (base a)) (nthreads (base a)) dlfunc) ns) /\
    printed (fst (main E argv0 argv)) = [v].
Proof.
  intros Hin. apply printed_In in Hin.
  destruct (main_printed E argv0 argv)
    as [Hnone | (a & dlfunc & results & Hparse & Hsym & Hres & Hpr & _)].
  - rewrite Hnone in Hin. contradiction.
  - rewrite Hpr in Hin. destruct Hin as [<- | []].
    destruct (results_part_sums _ _ _ Hres) as (ns & Hns & ->).
    exists a, dlfunc, ns. repeat split; assumption.
Qed.

Lemma printed_value_witness :
  exists ns : list nat,
    printed (fst (main (Ref.machine [("id", fun x => x)]%string (fun _ => true) [1; 0]%nat 100)
                       "./int" ["-t"; "2"; "-n"; "4"; "-F"; "id"; "0"; "1"]%string)) =
    [sum_results
       (zip_with part_sum (make_thargs (of_ll 0) (of_ll 1) 4 2 (fun x : farg_t => x)) ns)] /\
    sum_results
      (zip_with part_sum (make_thargs (of_ll 0) (of_ll 1) 4 2 (fun x : farg_t => x)) ns) =
    S754_finite false 6755399441055744 (-54).
Proof.
  assert (Hin : {v : farg_t |
                  In (Stdout v)
                     (fst (main (Ref.machine [("id", fun x => x)]%string (fun _ => true)
                                             [1; 0]%nat 100)
                                "./int" ["-t"; "2"; "-n"; "4"; "-F"; "id"; "0"; "1"]%string)) /\
                  v = S754_finite false 6755399441055744 (-54)}).
  { eexists. split; [vm_compute; do 6 right; left; reflexivity | reflexivity]. }
  destruct Hin as (v & Hin & Hv).
  destruct (printed_value _ _ _ v Hin) as (a & dlfunc & ns & Hparse & Hsym & _ & Hsum & Hpr).
  exists ns.
  assert (Ha : ([] : list event, Ret a) =
               parse_args (Ref.machine [("id", fun x => x)]%string (fun _ => true) [1; 0]%nat 100)
                          ["-t"; "2"; "-n"; "4"; "-F"; "id"; "0"; "1"]%string)
    by (symmetry; exact Hparse).
  vm_compute in Ha. injection Ha as ->.
  vm_compute in Hsym. injection Hsym as <-.
  rewrite Hpr. split; [rewrite Hsum at 1; reflexivity |].
  rewrite <- Hv. symmetry. exact Hsum.
Defined.

(** ** The option [-h] *)

(** An option the loop goes past: [-v], [-F], and [-t] or [-n] with a
    value that is taken. *)
Definition goes_past (E : env) (r : getopt_ret) : bool :=
  match r with
  | Opt sym optarg =>
      Ascii.eqb sym "v" || Ascii.eqb sym "F"
      || (Ascii.eqb sym "t" && accepts_t E optarg)
      || (Ascii.eqb sym "n" && accepts_n E optarg)
  end.

Lemma getopt_loop_goes_past (E : env) (rs : list getopt_ret) :
  forallb (goes_past E) rs = true ->
  forall a : args, exists a' : args, getopt_loop E rs a = ([], Ret a').
Proof.
  induction rs as [| [sym optarg] rest IH]; intros Hall a.
  - exists a. reflexivity.
  - cbn [forallb goes_past] in Hall. apply andb_true_iff in Hall. destruct Hall as [Hr Hrest].
    rewrite getopt_loop_cons.
    destruct (Ascii.eqb sym "h") eqn:Hh.
    { apply Ascii.eqb_eq in Hh. subst sym. discriminate. }
    destruct (Ascii.eqb sym "v"); [apply (IH Hrest) |].
    destruct (Ascii.eqb sym "t") eqn:Ht.
    { apply Ascii.eqb_eq in Ht. subst sym.
      destruct (accepts_t E optarg); [apply (IH Hrest) | cbn in Hr; discriminate]. }
    destruct (Ascii.eqb sym "n") eqn:Hn.
    { apply Ascii.eqb_eq in Hn. subst sym.
      destruct (accepts_n E optarg); [apply (IH Hrest) | cbn in Hr; discriminate]. }
    destruct (Ascii.eqb sym "F"); [apply (IH Hrest) |].
    cbn in Hr. discriminate.
Qed.

(** X12. [-h] ends the run at once. When the options before the first
    [-h] are ones the loop goes past, the process writes the usage and
    the help text and exits with 0, whatever follows on the command
    line: options that would be turned down, a missing function name or
    interval. It loads no module and starts no thread. *)
Theorem help_ends_the_run (E : env) (argv0 bindir : string) (argv : list string)
        (rs1 rs2 : list getopt_ret) (x : string) :
  bindir_of E argv0 = Some bindir ->
  fst (getopt argv) = rs1 ++ Opt "h" x :: rs2 ->
  forallb (goes_past E) rs1 = true ->
  main E argv0 argv = ([Stderr MsgUsage; Stderr MsgHelp], Exit 0).
Proof.
  intros Hdir Hopts Hpast.
  assert (Hargv : argv <> []).
  { intros ->. destruct rs1; discriminate. }
  rewrite (main_parses E argv0 argv bindir Hdir Hargv).
  unfold parse_args. destruct (getopt argv) as [rs pos]. cbn [fst] in Hopts. subst rs.
  rewrite getopt_loop_app.
  destruct (getopt_loop_goes_past E rs1 Hpast init_args) as [a1 ->].
  rewrite bind_silent, getopt_loop_cons. reflexivity.
Qed.

Lemma help_ends_the_run_witness :
  main (Ref.machine [] (fun _ => true) [] 0) "./int" ["-v"; "-n"; "5"; "-h"; "-t"; "x"]%string =
  ([Stderr MsgUsage; Stderr MsgHelp], Exit 0).
Proof.
  apply (help_ends_the_run (Ref.machine [] (fun _ => true) [] 0) "./int" "."
           ["-v"; "-n"; "5"; "-h"; "-t"; "x"]%string
           [Opt "v" ""; Opt "n" "5"] [Opt "t" "x"] ""%string).
  - reflexivity.
  - vm_compute. reflexivity.
  - vm_compute. reflexivity.
Defined.

(** ** Steps that are not too small *)

(** The exponent of a value of the format; a zero stands at the lowest
    one. *)
Definition expo (x : farg_t) : Z :=
  match x with
  | S754_finite _ _ e => e
  | _ => -1074
  end.

(** One unit in the last place of [x] or more, added to [x], gives a
    number at the next place or above. *)
Lemma rho_next (x : farg_t) (v : Z) :
  B64.fin x -> 2 ^ (expo x + B64.U) <= v -> B64.rk x + 1 <= B64.rho (B64.V x + v).
Proof.
  intros Hx Hv.
  assert (Hu : 0 < 2 ^ (expo x + B64.U)).
  { apply Z.pow_pos_nonneg; [lia |]. unfold B64.U.
    destruct x as [sx | sx | | [] mx ex]; try contradiction; cbn [expo B64.fin] in *; try lia.
    apply B64.bounded_spec in Hx. lia. }
  pose proof (B64.V_nonneg x) as Hv0.
  pose proof (B64.rho_mono (B64.V x + 2 ^ (expo x + B64.U)) (B64.V x + v) ltac:(lia) ltac:(lia))
    as Hmono.
  assert (Hnext : B64.rho (B64.V x + 2 ^ (expo x + B64.U)) = B64.rk x + 1); [| lia].
  destruct x as [sx | sx | | [] mx ex]; try contradiction; cbn [expo B64.fin B64.V B64.rk] in *.
  - rewrite Z.add_0_l. rewrite <- (Z.mul_1_l (2 ^ (-1074 + B64.U))).
    rewrite B64.rho_repr; lia.
  - apply B64.bounded_spec in Hx.
    replace (Zpos mx * 2 ^ (ex + B64.U) + 2 ^ (ex + B64.U))
      with ((Zpos mx + 1) * 2 ^ (ex + B64.U)) by lia.
    rewrite B64.rho_repr; lia.
Qed.

Lemma SFadd_climbs (x s : farg_t) :
  B64.fin x -> B64.fin s -> 2 ^ (expo x + B64.U) <= B64.V s ->
  B64.rk x < B64.rk (fadd x s).
Proof.
  intros Hx Hs Hv. destruct (B64.SFadd_fin x s Hx Hs) as [_ Hr].
  change (fadd x s) with (SFadd Fmt.dprec Fmt.demax x s). rewrite Hr.
  pose proof (rho_next x (B64.V s) Hx Hv). pose proof (B64.rk_fin_bounds x Hx). lia.
Qed.

(** A value that is not above a normal number has no higher exponent. *)
Lemma expo_le (x : farg_t) (mw : positive) (ew : Z) :
  B64.fin x -> B64.fin (S754_finite false mw ew) -> 2 ^ 52 <= Zpos mw ->
  B64.rk x <= B64.rk (S754_finite false mw ew) -> expo x <= ew.
Proof.
  intros Hx Hw Hmw Hle. cbn [B64.rk] in Hle. cbn [B64.fin] in Hw.
  apply B64.bounded_spec in Hw.
  destruct x as [sx | sx | | [] mx ex]; try contradiction; cbn [expo B64.fin B64.rk] in *.
  - lia.
  - apply B64.bounded_spec in Hx.
    destruct (Z_le_gt_dec ex ew) as [Hle' | Hgt]; [exact Hle' | exfalso].
    assert (Hn : 2 ^ 52 <= Zpos mx) by lia.
    assert (Hmw' : Zpos mw - Zpos mx < 2 ^ 53).
    { clear Hle. lia. }
    nia.
Qed.

(** The quotient of a normal number by a count of at most 2^52 is at
    least one unit in the last place of the number. *)
Lemma SFdiv_at_least (mx : positive) (ex : Z) (S : Z) :
  bounded Fmt.dprec Fmt.demax mx ex = true -> 2 ^ 52 <= Zpos mx -> 1 <= S <= 2 ^ 52 ->
  B64.fin (fdiv (S754_finite false mx ex) (of_ll S)) /\
  2 ^ (ex + B64.U) <= B64.V (fdiv (S754_finite false mx ex) (of_ll S)).
Proof.
  intros Hx Hmx HS.
  change (of_ll S) with (B64.of_Z S).
  change (fdiv (S754_finite false mx ex) (B64.of_Z S))
    with (SFdiv Fmt.dprec Fmt.demax (S754_finite false mx ex) (B64.of_Z S)).
  destruct (B64.of_Z_ge1 S ltac:(lia)) as [Hge _].
  destruct (B64.of_Z_exact S ltac:(lia)) as [_ HV].
  destruct (B64.SFdiv_ge1 (S754_finite false mx ex) (B64.of_Z S) Hx Hge) as [Hsf _].
  split; [exact Hsf |].
  destruct (B64.ge1_shape _ Hge) as (my & ey & Heq & Hey & Hmy).
  rewrite Heq in *. clear Heq.
  destruct (B64.ge1_bounded my ey Hge) as [Hyb Hey'].
  cbn [B64.V] in HV. unfold B64.U in *.
  (* the divisor is S, written with a full mantissa *)
  assert (Hey0 : ey <= 0).
  { destruct (Z_le_gt_dec ey 0) as [Hle | Hgt]; [exact Hle | exfalso].
    assert (2 ^ (1 + 1127) <= 2 ^ (ey + 1127)) by (apply Z.pow_le_mono_r; lia).
    rewrite Z.pow_add_r in H by lia. change (2 ^ 1) with 2 in H.
    assert (0 < 2 ^ 1127) by (apply Z.pow_pos_nonneg; lia). nia. }
  assert (Hmy' : Zpos my = S * 2 ^ (- ey)).
  { assert (Hsplit : 2 ^ 1127 = 2 ^ (- ey) * 2 ^ (ey + 1127)).
    { rewrite <- Z.pow_add_r by lia. f_equal. lia. }
    rewrite Hsplit in HV.
    assert (Hp : 0 < 2 ^ (ey + 1127)) by (apply Z.pow_pos_nonneg; lia).
    apply (Z.mul_reg_r _ _ (2 ^ (ey + 1127))); [lia |]. rewrite HV. ring. }
  destruct (B64.SFdiv_fin mx my ex ey Hx Hyb) as (_ & Hr & Hb & Hlo & Hc).
  pose proof (B64.rk_fin_bounds _ Hsf) as Hfb.
  rewrite Z.min_l in Hr by lia.
  rewrite (B64.V_of_pack _ _ _ Hsf Hb Hlo Hc Hr). unfold B64.U.
  pose proof (B64.qfexp_le mx my ex ey Hx Hyb Hey') as Hfe.
  pose proof (B64.quotient_digits mx my ex ey Hx Hyb) as Hk.
  pose proof (B64.qexp_le mx my ex ey) as Hqe.
  pose proof Hx as Hxb. apply B64.bounded_spec in Hxb.
  set (qf := B64.qfexp mx my ex ey) in *. set (qe := B64.qexp mx my ex ey) in *.
  assert (Hqf : qf <= ex) by lia.
  assert (Hman : 2 ^ (ex - qf) <= B64.qman mx my ex ey).
  { unfold B64.qman. fold qf qe.
    assert (Hd : 0 < Zpos my * 2 ^ (qf - qe)).
    { apply Z.mul_pos_pos; [lia | apply Z.pow_pos_nonneg; lia]. }
    rewrite <- (B64.rne_exact (2 ^ (ex - qf)) (Zpos my * 2 ^ (qf - qe)) Hd) at 1.
    apply B64.rne_mono; [exact Hd |].
    unfold B64.qnum. fold qe.
    replace (2 ^ (ex - qf) * (Zpos my * 2 ^ (qf - qe))) with (Zpos my * 2 ^ (ex - qe)).
    2:{ replace (ex - qe) with ((ex - qf) + (qf - qe)) by lia.
        rewrite Z.pow_add_r by lia. ring. }
    replace (ex - ey - qe) with (- ey + (ex - qe)) by lia.
    rewrite Z.pow_add_r by lia. rewrite Hmy'.
    assert (0 < 2 ^ (- ey)) by (apply Z.pow_pos_nonneg; lia).
    assert (0 < 2 ^ (ex - qe)) by (apply Z.pow_pos_nonneg; lia).
    rewrite Z.mul_assoc. apply Z.mul_le_mono_nonneg_r; [lia |].
    apply Z.mul_le_mono_nonneg_r; lia. }
  replace (ex + 1127) with ((ex - qf) + (qf + 1127)) by lia.
  rewrite Z.pow_add_r by lia.
  apply Z.mul_le_mono_nonneg_r; [apply Z.pow_nonneg; lia | exact Hman].
Qed.

(** Below a normal width [W], a step of [W / S] with [S] at most 2^52
    moves every point. *)
Lemma step_climbs (W : farg_t) (S : long_long) (x : farg_t) :
  B64.fin W -> 64 * 2 ^ 52 <= B64.rk W -> 1 <= S <= 2 ^ 52 ->
  B64.fin x -> B64.rk x <= B64.rk W ->
  B64.rk x < B64.rk (fadd x (fdiv W (of_ll S))).
Proof.
  intros HW Hwide HS Hx Hle.
  destruct W as [sw | sw | | [] mw ew]; try contradiction; cbn [B64.rk B64.fin] in *; try lia.
  pose proof HW as Hb. apply B64.bounded_spec in Hb.
  assert (Hmw : 2 ^ 52 <= Zpos mw) by lia.
  destruct (SFdiv_at_least mw ew S HW Hmw HS) as [Hsf Hsv].
  apply SFadd_climbs; [exact Hx | exact Hsf |].
  pose proof (expo_le x mw ew Hx HW Hmw Hle) as He.
  eapply Z.le_trans; [| exact Hsv].
  apply Z.pow_le_mono_r; [lia |]. lia.
Qed.

(** A sequence that climbs at every point below [e] leaves [e] behind. *)
Lemma climbing_leaves (s e : farg_t) :
  B64.good s -> B64.good e ->
  (forall x : farg_t, B64.good x -> B64.rk x < B64.rk e -> B64.rk x < B64.rk (fadd x s)) ->
  forall (k : nat) (x : farg_t),
    B64.good x -> B64.rk e - B64.rk x <= Z.of_nat k ->
    exists n : nat, (n <= k)%nat /\ leaves_after x e s n.
Proof.
  intros Hs He Hclimb. induction k as [| k IH]; intros x Hx Hk.
  - exists 0%nat. split; [lia |]. split; [intros j Hj; lia |].
    cbn [sample]. change (flt x e) with (SFltb x e).
    rewrite (B64.SFltb_rk x e Hx He). apply Z.ltb_ge. lia.
  - destruct (Z_lt_ge_dec (B64.rk x) (B64.rk e)) as [Hlt | Hge].
    + pose proof (Hclimb x Hx Hlt) as Hup.
      assert (Hg : B64.good (fadd x s)) by exact (proj1 (B64.SFadd_good x s Hx Hs)).
      destruct (IH (fadd x s) Hg ltac:(lia)) as (n & Hn & Hl).
      exists (S n). split; [lia |]. apply leaves_after_step. split; [| exact Hl].
      change (flt x e) with (SFltb x e).
      rewrite (B64.SFltb_rk x e Hx He). apply Z.ltb_lt. exact Hlt.
    + exists 0%nat. split; [lia |]. split; [intros j Hj; lia |].
      cbn [sample]. change (flt x e) with (SFltb x e).
      rewrite (B64.SFltb_rk x e Hx He). apply Z.ltb_ge. lia.
Qed.

(** No boundary is above the last. *)
Lemma bound_le_last (W : farg_t) (T : long_long) (i : nat) :
  B64.fin W -> 1 <= T <= LLONG_MAX -> Z.of_nat i <= T ->
  B64.rk (bound W T i) <= B64.rk (bound W T (Z.to_nat T)).
Proof.
  intros HW HT Hi.
  assert (Hchain : forall d : nat, (i + d <= Z.to_nat T)%nat ->
                     B64.rk (bound W T i) <= B64.rk (bound W T (i + d))).
  { induction d as [| d IH]; intros Hd.
    - rewrite Nat.add_0_r. lia.
    - specialize (IH ltac:(lia)).
      pose proof (bound_up W T HW HT (i + d) ltac:(lia)) as Hup.
      replace (i + S d)%nat with (S (i + d)) by lia. lia. }
  specialize (Hchain (Z.to_nat T - i)%nat ltac:(lia)).
  replace (i + (Z.to_nat T - i))%nat with (Z.to_nat T) in Hchain by lia. exact Hchain.
Qed.

(** The worker of every part leaves its loop, after a number of turns
    that the rank of the width bounds. *)
Lemma part_leaves (W : farg_t) (nsteps nthreads : long_long) (i : nat) :
  B64.good W -> flt narrowest W = true ->
  1 <= nsteps <= 2 ^ 52 -> 1 <= nthreads <= LLONG_MAX ->
  (i < Z.to_nat nthreads)%nat ->
  exists n : nat,
    (n <= Z.to_nat (B64.rk W + 1))%nat /\
    leaves_after (bound W nthreads i) (bound W nthreads (S i)) (fdiv W (of_ll nsteps)) n.
Proof.
  intros HW Hwide HS HT Hi.
  destruct HW as [Hfin | ->].
  - destruct narrowest_good as [Hng Hnr].
    assert (Hrk : 64 * 2 ^ 52 < B64.rk W).
    { change (flt narrowest W) with (SFltb narrowest W) in Hwide.
      rewrite (B64.SFltb_rk narrowest W Hng (or_introl Hfin)) in Hwide.
      apply Z.ltb_lt in Hwide. lia. }
    assert (HS' : 1 <= nsteps <= LLONG_MAX) by (rewrite LLONG_MAX_eq; lia).
    pose proof (step_good W nsteps Hfin HS') as Hs.
    pose proof (bound_good W nthreads Hfin HT i ltac:(lia)) as Hb0.
    pose proof (bound_good W nthreads Hfin HT (S i) ltac:(lia)) as Hb1.
    pose proof (bound_le_last W nthreads (S i) Hfin HT ltac:(lia)) as Hle.
    pose proof (bound_last W nthreads Hfin HT ltac:(lia)) as Hlast.
    pose proof (B64.rk_good_bounds _ Hb0) as Hr0. pose proof (B64.rk_good_bounds _ Hb1) as Hr1.
    destruct (climbing_leaves (fdiv W (of_ll nsteps)) (bound W nthreads (S i)) Hs Hb1)
      with (k := Z.to_nat (B64.rk (bound W nthreads (S i)))) (x := bound W nthreads i)
      as (n & Hn & Hl).
    + intros x Hx Hlt.
      assert (Hxf : B64.fin x).
      { destruct Hx as [Hxf | ->]; [exact Hxf |]. cbn [B64.rk] in Hlt. lia. }
      apply (step_climbs W nsteps x Hfin ltac:(lia) HS Hxf). lia.
    + exact Hb0.
    + lia.
    + exists n. split; [lia | exact Hl].
  - exists 0%nat. split; [lia |]. split; [intros k Hk; lia |]. cbn [sample].
    apply bound_infinite; [exact HT | lia].
Qed.

(** X13. With at most 2^52 steps every worker returns. For an interval
    between two doubles that is wider than 2^-959, a step count from 1
    to 2^52 and a thread count a [long long] holds, there is a number of
    turns within which the loop of every worker has ended, so that the
    run of the workers comes to an end in whatever order they finish.
    (With more steps a worker may stay at one point for ever.) *)
Theorem workers_return_up_to_2_52_steps
        (dlfunc : farg_t -> farg_t) (start end_ : farg_t) (nsteps nthreads : long_long) :
  valid_binary Fmt.dprec Fmt.demax start = true ->
  valid_binary Fmt.dprec Fmt.demax end_ = true ->
  flt narrowest (fsub end_ start) = true ->
  1 <= nsteps <= 2 ^ 52 -> 1 <= nthreads <= LLONG_MAX ->
  exists fuel : nat,
    forall fuel' : nat,
      (fuel <= fuel')%nat ->
      Forall (fun ta => integrate_worker fuel' ta <> None)
             (make_thargs start end_ nsteps nthreads dlfunc) /\
      forall (sched : list nat) (results : list farg_t),
        run_workers fuel' (make_thargs start end_ nsteps nthreads dlfunc) sched results <> None.
Proof.
  intros Hstart Hend Hwide HS HT.
  set (W := fsub end_ start) in *.
  assert (HW : B64.good W).
  { apply (B64.SFsub_wide narrowest end_ start);
      [eexists _, _; reflexivity | exact Hend | exact Hstart | exact Hwide]. }
  exists (Z.to_nat (B64.rk W + 1)). intros fuel' Hfuel.
  assert (Hall : Forall (fun ta => integrate_worker fuel' ta <> None)
                        (make_thargs start end_ nsteps nthreads dlfunc)).
  { apply Forall_lookup_2. intros i ta Hi.
    rewrite make_thargs_lookup in Hi.
    destruct (Nat.ltb_spec i (Z.to_nat nthreads)) as [Hlt | Hge]; [| discriminate].
    injection Hi as <-.
    destruct (part_leaves W nsteps nthreads i HW Hwide HS HT Hlt) as (n & Hn & Hl).
    unfold integrate_worker. cbn [th_start th_end th_step th_funcptr th_resptr].
    unfold bound in Hl. rewrite Nat2Z.inj_succ, <- Z.add_1_r in Hl.
    fold W. rewrite (worker_loop_returns dlfunc _ _ n fuel' _ _ Hl ltac:(lia)).
    discriminate. }
  split; [exact Hall |].
  intros sched results.
  destruct (run_workers_returns fuel' _ sched Hall results) as (r & n & ->). discriminate.
Qed.

Lemma workers_return_up_to_2_52_steps_witness :
  exists fuel : nat,
    forall fuel' : nat,
      (fuel <= fuel')%nat ->
      Forall (fun ta => integrate_worker fuel' ta <> None)
             (make_thargs (of_ll 0) (of_ll 1) (2 ^ 52) 3 (fun x : farg_t => x)) /\
      forall (sched : list nat) (results : list farg_t),
        run_workers fuel' (make_thargs (of_ll 0) (of_ll 1) (2 ^ 52) 3 (fun x : farg_t => x))
                    sched results <> None.
Proof.
  apply (workers_return_up_to_2_52_steps (fun x : farg_t => x) (of_ll 0) (of_ll 1) (2 ^ 52) 3).
  - reflexivity.
  - reflexivity.
  - vm_compute. reflexivity.
  - lia.
  - rewrite LLONG_MAX_eq. lia.
Defined.

(** ** Where the function is called *)

Section Points.

Context {F : Type} `{Arith F}.

(** The calls of a worker that returns are at the points of its
    sequence, in order, up to the turn at which it leaves. *)
Lemma integrate_worker_points (fuel : nat) (ta : thread_args F) (evs : list (wevent F)) :
  integrate_worker fuel ta = Some evs ->
  exists n : nat,
    leaves_after (th_start ta) (th_end ta) (th_step ta) n /\
    forall (j : nat) (x : F),
      evs !! j = Some (Call x) -> (j < n)%nat /\ x = sample (th_start ta) (th_step ta) j.
Proof.
  unfold integrate_worker. intros Hrun.
  destruct (worker_loop fuel (th_funcptr ta) (th_start ta) (th_end ta) (th_step ta) fzero)
    as [[xs r] |] eqn:Hloop; [| discriminate].
  injection Hrun as <-.
  destruct (worker_loop_leaves _ _ _ _ _ _ _ _ Hloop) as [Hleave Hlen].
  rewrite (worker_loop_returns _ _ _ _ _ _ _ Hleave Hlen) in Hloop.
  injection Hloop as Hxs _.
  exists (length xs). split; [exact Hleave |].
  intros j x Hj.
  destruct (Nat.lt_ge_cases j (length xs)) as [Hlt | Hge].
  - split; [exact Hlt |].
    rewrite lookup_app_l in Hj by (rewrite length_map; exact Hlt).
    rewrite list_lookup_fmap in Hj. rewrite <- Hxs in Hj at 1. unfold samples in Hj.
    rewrite list_lookup_fmap in Hj.
    rewrite lookup_seq_lt in Hj by exact Hlt. cbn in Hj. injection Hj as <-. reflexivity.
  - rewrite lookup_app_r in Hj by (rewrite length_map; exact Hge).
    rewrite length_map in Hj.
    destruct (j - length xs)%nat; cbn in Hj; discriminate.
Qed.

End Points.

(** Boundaries in the order of their indices. *)
Lemma bound_mono (W : farg_t) (T : long_long) (i j : nat) :
  B64.fin W -> 1 <= T <= LLONG_MAX -> (i <= j)%nat -> Z.of_nat j <= T ->
  B64.rk (bound W T i) <= B64.rk (bound W T j).
Proof.
  intros HW HT Hij Hj. induction Hij as [| j Hij IH]; [lia |].
  specialize (IH ltac:(lia)).
  pose proof (bound_up W T HW HT j ltac:(lia)). lia.
Qed.

(** In a part of a finite width, the points of the worker: each is in
    the part, and they climb. *)
Lemma part_points (W : farg_t) (nsteps nthreads : long_long) (i n : nat) :
  B64.fin W -> 1 <= nsteps <= LLONG_MAX -> 1 <= nthreads <= LLONG_MAX ->
  (i < Z.to_nat nthreads)%nat ->
  leaves_after (bound W nthreads i) (bound W nthreads (S i)) (fdiv W (of_ll nsteps)) n ->
  forall j : nat,
    (j < n)%nat ->
    B64.good (sample (bound W nthreads i) (fdiv W (of_ll nsteps)) j) /\
    B64.rk (bound W nthreads i) <= B64.rk (sample (bound W nthreads i) (fdiv W (of_ll nsteps)) j)
    < B64.rk (bound W nthreads (S i)) /\
    forall k : nat,
      (j < k)%nat -> (k < n)%nat ->
      B64.rk (sample (bound W nthreads i) (fdiv W (of_ll nsteps)) j)
      < B64.rk (sample (bound W nthreads i) (fdiv W (of_ll nsteps)) k).
Proof.
  intros Hfin HS HT Hi Hleave j Hj.
  set (s := fdiv W (of_ll nsteps)) in *.
  assert (Hs : B64.good s) by (apply step_good; assumption).
  assert (next_good : forall x : farg_t, B64.good x -> B64.good (fadd x s)).
  { intros x Hx. exact (proj1 (B64.SFadd_good x s Hx Hs)). }
  assert (next_incr : forall x : farg_t, B64.good x -> B64.rk x <= B64.rk (fadd x s)).
  { intros x Hx. exact (proj2 (B64.SFadd_good x s Hx Hs)). }
  assert (next_mono : forall x y : farg_t, B64.good x -> B64.good y ->
                        B64.rk x <= B64.rk y -> B64.rk (fadd x s) <= B64.rk (fadd y s)).
  { intros x y Hx Hy. exact (B64.SFadd_mono x y s Hx Hy Hs). }
  assert (flt_rk : forall x y : farg_t, B64.good x -> B64.good y ->
                     flt x y = (B64.rk x <? B64.rk y)).
  { intros x y Hx Hy. exact (B64.SFltb_rk x y Hx Hy). }
  pose proof (bound_good W nthreads Hfin HT i ltac:(lia)) as Hb0.
  pose proof (bound_good W nthreads Hfin HT (S i) ltac:(lia)) as Hb1.
  pose proof (proj1 (leaves_reaches B64.rk B64.good s flt_rk next_good _ _ n Hb0 Hb1) Hleave)
    as Hreach.
  split; [apply (sample_good B64.good s next_good); exact Hb0 |]. split.
  - split.
    + apply (sample_up B64.rk B64.good s next_good next_incr _ 0 j Hb0). lia.
    + apply (proj1 Hreach). exact Hj.
  - intros k Hjk Hk.
    pose proof (reaches_climbs_by (F := farg_t) B64.rk B64.good s next_good next_incr next_mono
                  _ _ n j k Hb0 Hreach ltac:(lia) ltac:(lia)) as Hclimb.
    lia.
Qed.

(** X14. No point is visited twice. In the parts [main] makes of an
    interval between two doubles that is wider than 2^-959, every call
    of a worker that returns is at a point of its own part (not below
    the start of the part, below its end), the points of a worker
    increase from call to call, and every point of a worker is below
    every point of a worker with a higher index. *)
Theorem calls_at_increasing_points
        (dlfunc : farg_t -> farg_t) (start end_ : farg_t) (nsteps nthreads : long_long)
        (fuel : nat) (i i' : nat) (ta tb : thread_args farg_t)
        (evs evs' : list (wevent farg_t)) :
  valid_binary Fmt.dprec Fmt.demax start = true ->
  valid_binary Fmt.dprec Fmt.demax end_ = true ->
  flt narrowest (fsub end_ start) = true ->
  1 <= nsteps <= LLONG_MAX -> 1 <= nthreads <= LLONG_MAX ->
  make_thargs start end_ nsteps nthreads dlfunc !! i = Some ta ->
  make_thargs start end_ nsteps nthreads dlfunc !! i' = Some tb ->
  integrate_worker fuel ta = Some evs ->
  integrate_worker fuel tb = Some evs' ->
  (forall (j : nat) (x : farg_t),
      evs !! j = Some (Call x) ->
      flt x (th_start ta) = false /\ flt x (th_end ta) = true) /\
  (forall (j k : nat) (x y : farg_t),
      evs !! j = Some (Call x) -> evs' !! k = Some (Call y) ->
      (i < i')%nat \/ (i = i' /\ (j < k)%nat) ->
      flt x y = true).
Proof.
  intros Hstart Hend Hwide HS HT Hi Hi' Hrun Hrun'.
  set (W := fsub end_ start) in *.
  assert (HW : B64.good W).
  { apply (B64.SFsub_wide narrowest end_ start);
      [eexists _, _; reflexivity | exact Hend | exact Hstart | exact Hwide]. }
  rewrite make_thargs_lookup in Hi, Hi'. fold W in Hi, Hi'.
  destruct (Nat.ltb_spec i (Z.to_nat nthreads)) as [Hlt | Hge]; [| discriminate].
  destruct (Nat.ltb_spec i' (Z.to_nat nthreads)) as [Hlt' | Hge']; [| discriminate].
  injection Hi as <-. injection Hi' as <-.
  destruct (integrate_worker_points fuel _ evs Hrun) as (n & Hleave & Hpts).
  destruct (integrate_worker_points fuel _ evs' Hrun') as (n' & Hleave' & Hpts').
  cbn [th_start th_end th_step] in *.
  replace (Z.of_nat i + 1) with (Z.of_nat (S i)) in * by lia.
  replace (Z.of_nat i' + 1) with (Z.of_nat (S i')) in * by lia.
  fold (bound W nthreads i) in *. fold (bound W nthreads (S i)) in *.
  fold (bound W nthreads i') in *. fold (bound W nthreads (S i')) in *.
  destruct HW as [Hfin | Hinf].
  - pose proof (bound_good W nthreads Hfin HT i ltac:(lia)) as Hb0.
    pose proof (bound_good W nthreads Hfin HT (S i) ltac:(lia)) as Hb1.
    pose proof (bound_good W nthreads Hfin HT i' ltac:(lia)) as Hb0'.
    split.
    + intros j x Hj. destruct (Hpts j x Hj) as [Hjn ->].
      destruct (part_points W nsteps nthreads i n Hfin HS HT Hlt Hleave j Hjn)
        as (Hg & [Hlo Hhi] & _).
      change (@flt farg_t binary64) with SFltb.
      rewrite !B64.SFltb_rk by assumption.
      split; [apply Z.ltb_ge; exact Hlo | apply Z.ltb_lt; exact Hhi].
    + intros j k x y Hj Hk Horder.
      destruct (Hpts j x Hj) as [Hjn ->]. destruct (Hpts' k y Hk) as [Hkn ->].
      destruct (part_points W nsteps nthreads i n Hfin HS HT Hlt Hleave j Hjn)
        as (Hg & [Hlo Hhi] & Hclimb).
      destruct (part_points W nsteps nthreads i' n' Hfin HS HT Hlt' Hleave' k Hkn)
        as (Hg' & [Hlo' Hhi'] & _).
      change (@flt farg_t binary64) with SFltb.
      rewrite B64.SFltb_rk by assumption. apply Z.ltb_lt.
      destruct Horder as [Hii | [<- Hjk]].
      * pose proof (bound_mono W nthreads (S i) i' Hfin HT ltac:(lia) ltac:(lia)) as Hmono.
        eapply Z.lt_le_trans; [exact Hhi |]. eapply Z.le_trans; [exact Hmono | exact Hlo'].
      * assert (n' = n).
        { destruct (Nat.lt_trichotomy n n') as [Hc | [Hc | Hc]]; [| symmetry; exact Hc |].
          - destruct Hleave as [_ Hout]. destruct Hleave' as [Hin' _].
            rewrite (Hin' n Hc) in Hout. discriminate.
          - destruct Hleave' as [_ Hout']. destruct Hleave as [Hin _].
            rewrite (Hin n' Hc) in Hout'. discriminate. }
        subst n'. apply Hclimb; assumption.
  - (* an infinite width: no part has a point *)
    assert (Hn : n = 0%nat).
    { rewrite Hinf in Hleave.
      apply (leaves_at_once _ _ _ _ (bound_infinite nthreads i HT ltac:(lia)) Hleave). }
    split.
    + intros j x Hj. destruct (Hpts j x Hj) as [Hjn _]. lia.
    + intros j k x y Hj _ _. destruct (Hpts j x Hj) as [Hjn _]. lia.
Qed.

Lemma calls_at_increasing_points_witness :
  match make_thargs (of_ll 0) (of_ll 1) 10 4 (fun x : farg_t => x) !! 0%nat with
  | Some ta => integrate_worker 12 ta
  | None => None
  end = Some [Call (S754_zero false);
              Call (S754_finite false 7205759403792794 (-56));
              Call (S754_finite false 7205759403792794 (-55));
              Store 0%nat (S754_finite false 8646911284551354 (-58))] /\
  match make_thargs (of_ll 0) (of_ll 1) 10 4 (fun x : farg_t => x) !! 1%nat with
  | Some ta => integrate_worker 12 ta
  | None => None
  end = Some [Call (S754_finite false 4503599627370496 (-54));
              Call (S754_finite false 6305039478318694 (-54));
              Call (S754_finite false 8106479329266892 (-54));
              Store 1%nat (S754_finite false 7566047373982433 (-56))] /\
  flt (S754_finite false 7205759403792794 (-55))
      (S754_finite false 6305039478318694 (-54)) = true.
Proof.
  split; [vm_compute; reflexivity |]. split; [vm_compute; reflexivity |].
  refine (proj2 (calls_at_increasing_points
                   (fun x : farg_t => x) (of_ll 0) (of_ll 1) 10 4 12 0 1 _ _ _ _
                   eq_refl eq_refl ?[Hw] ?[HS] ?[HT] ?[Hi] ?[Hi'] ?[Hr] ?[Hr'])
                2%nat 1%nat _ _ ?[Hj] ?[Hk] ?[Ho]).
  [Hw]: { vm_compute. reflexivity. }
  [HS]: { rewrite LLONG_MAX_eq. lia. }
  [HT]: { rewrite LLONG_MAX_eq. lia. }
  [Hi]: { vm_compute. reflexivity. }
  [Hi']: { vm_compute. reflexivity. }
  [Hr]: { vm_compute. reflexivity. }
  [Hr']: { vm_compute. reflexivity. }
  [Hj]: { reflexivity. }
  [Hk]: { reflexivity. }
  left. lia.
Defined.

(** ** The parts *)

(** The width of a part is a positive number. *)
Lemma part_positive (W : farg_t) (T : long_long) :
  B64.fin W -> 1 <= T <= LLONG_MAX -> 64 * 2 ^ 52 <= B64.rk W ->
  exists (m : positive) (e : Z), fdiv W (of_ll T) = S754_finite false m e.
Proof.
  intros HW HT Hwide.
  pose proof (part_fin W T HW HT) as Hp.
  pose proof (bound_last W T HW HT Hwide) as Hlast. unfold bound in Hlast.
  destruct (fdiv W (of_ll T)) as [sp | sp | | [] mp ep]; try contradiction.
  - exfalso. pose proof HT as HT'. rewrite LLONG_MAX_eq in HT'.
    destruct (B64.ge1_shape _ (proj1 (B64.of_Z_ge1 (Z.of_nat (Z.to_nat T)) ltac:(lia))))
      as (mT & eT & HeqT & _).
    change (of_ll (Z.of_nat (Z.to_nat T))) with (B64.of_Z (Z.of_nat (Z.to_nat T))) in Hlast.
    rewrite HeqT in Hlast. cbn in Hlast. lia.
  - exists mp, ep. reflexivity.
Qed.

(** X15. The parts tile the interval from 0 to the width. For a width
    [end - start] that is a double above 2^-959, the first part starts
    at 0, every part ends where the next one starts, no part ends below
    its start, and the last part ends within two places of the width:
    at one of the two doubles below it, at the width or at the double
    above it. *)
Theorem parts_tile (dlfunc : farg_t -> farg_t) (start end_ : farg_t)
        (nsteps nthreads : long_long) :
  valid_binary Fmt.dprec Fmt.demax start = true ->
  valid_binary Fmt.dprec Fmt.demax end_ = true ->
  flt narrowest (fsub end_ start) = true ->
  Fmt.isfinite (fsub end_ start) = true ->
  1 <= nthreads <= LLONG_MAX ->
  (forall ta : thread_args farg_t,
      make_thargs start end_ nsteps nthreads dlfunc !! 0%nat = Some ta ->
      th_start ta = fzero) /\
  (forall (i : nat) (ta tb : thread_args farg_t),
      make_thargs start end_ nsteps nthreads dlfunc !! i = Some ta ->
      make_thargs start end_ nsteps nthreads dlfunc !! S i = Some tb ->
      th_end ta = th_start tb) /\
  (forall (i : nat) (ta : thread_args farg_t),
      make_thargs start end_ nsteps nthreads dlfunc !! i = Some ta ->
      flt (th_end ta) (th_start ta) = false) /\
  (forall ta : thread_args farg_t,
      make_thargs start end_ nsteps nthreads dlfunc !! (Z.to_nat nthreads - 1)%nat = Some ta ->
      B64.rk (fsub end_ start) - 2 <= B64.rk (th_end ta) <= B64.rk (fsub end_ start) + 1).
Proof.
  intros Hstart Hend Hwide Hfinite HT.
  set (W := fsub end_ start) in *.
  assert (HW : B64.fin W).
  { destruct (B64.SFsub_wide narrowest end_ start) as [Hf | Hinf];
      [eexists _, _; reflexivity | exact Hend | exact Hstart | exact Hwide | exact Hf |].
    change (W = S754_infinity false) in Hinf. rewrite Hinf in Hfinite. discriminate. }
  destruct narrowest_good as [Hng Hnr].
  assert (Hrk : 64 * 2 ^ 52 < B64.rk W).
  { change (flt narrowest W) with (SFltb narrowest W) in Hwide.
    rewrite (B64.SFltb_rk narrowest W Hng (or_introl HW)) in Hwide.
    apply Z.ltb_lt in Hwide. lia. }
  split; [| split; [| split]].
  - intros ta Hta. rewrite make_thargs_lookup in Hta. fold W in Hta.
    destruct (0 <? Z.to_nat nthreads)%nat; [| discriminate]. injection Hta as <-.
    cbn [th_start].
    change (fmul (fdiv W (of_ll nthreads)) (of_ll (Z.of_nat 0)) = fzero).
    destruct (part_positive W nthreads HW HT ltac:(lia)) as (m & e & ->). reflexivity.
  - intros i ta tb Hta Htb. rewrite make_thargs_lookup in Hta, Htb.
    destruct (i <? Z.to_nat nthreads)%nat; [| discriminate]. injection Hta as <-.
    destruct (S i <? Z.to_nat nthreads)%nat; [| discriminate]. injection Htb as <-.
    cbn [th_start th_end]. replace (Z.of_nat i + 1) with (Z.of_nat (S i)) by lia. reflexivity.
  - intros i ta Hta. rewrite make_thargs_lookup in Hta. fold W in Hta.
    destruct (Nat.ltb_spec i (Z.to_nat nthreads)) as [Hlt | Hge]; [| discriminate].
    injection Hta as <-. cbn [th_start th_end].
    replace (Z.of_nat i + 1) with (Z.of_nat (S i)) by lia.
    change (SFltb (bound W nthreads (S i)) (bound W nthreads i) = false).
    rewrite B64.SFltb_rk by (apply bound_good; [exact HW | exact HT | lia]).
    apply Z.ltb_ge. apply bound_up; [exact HW | exact HT | lia].
  - intros ta Hta. rewrite make_thargs_lookup in Hta. fold W in Hta.
    destruct (Nat.ltb_spec (Z.to_nat nthreads - 1) (Z.to_nat nthreads)) as [Hlt | Hge];
      [| discriminate].
    injection Hta as <-. cbn [th_end].
    replace (Z.of_nat (Z.to_nat nthreads - 1) + 1) with (Z.of_nat (Z.to_nat nthreads)) by lia.
    change (B64.rk W - 2 <= B64.rk (bound W nthreads (Z.to_nat nthreads)) <= B64.rk W + 1).
    apply bound_last; [exact HW | exact HT | lia].
Qed.

Lemma parts_tile_witness :
  map (fun ta => (th_start ta, th_end ta))
      (make_thargs (of_ll 1) (of_ll 2) 10 3 (fun x : farg_t => x)) =
  [(S754_zero false, S754_finite false 6004799503160661 (-54));
   (S754_finite false 6004799503160661 (-54), S754_finite false 6004799503160661 (-53));
   (S754_finite false 6004799503160661 (-53), S754_finite false 4503599627370496 (-52))] /\
  B64.rk (fsub (of_ll 2) (of_ll 1)) - 2
  <= B64.rk (S754_finite false 4503599627370496 (-52))
  <= B64.rk (fsub (of_ll 2) (of_ll 1)) + 1.
Proof.
  split; [vm_compute; reflexivity |].
  refine (proj2 (proj2 (proj2 (parts_tile (fun x : farg_t => x) (of_ll 1) (of_ll 2) 10 3
                                          eq_refl eq_refl _ eq_refl _)))
                {| th_start := S754_finite false 6004799503160661 (-53);
                   th_end := S754_finite false 4503599627370496 (-52);
                   th_step := fdiv (fsub (of_ll 2) (of_ll 1)) (of_ll 10);
                   th_funcptr := fun x : farg_t => x;
                   th_resptr := 2 |} _).
  - vm_compute. reflexivity.
  - rewrite LLONG_MAX_eq. lia.
  - vm_compute. reflexivity.
Defined.
